(** * tsched.c: the bounded task queue and its worker pool

    A shallow embedding of [src/util/src/tsched.c] (TDengine) and the
    properties of its queue, its two entry loops and its life cycle.

    - integers of type [int] are values of [Z]; every arithmetic
      operation of the source is followed by the 32-bit two's-complement
      wrap ([wrap32]) and [%] is the truncating remainder ([Z.rem]);
    - pointers are values of [Z], [NULL] is [0];
    - the scheduler object is a record with the fields of [SSchedQueue];
      the two semaphores are their counts and the mutex is its owner;
    - the blocking functions [taosScheduleTask] and
      [taosProcessSchedQueue] are step functions over a program counter,
      one step per statement, so that threads can be interleaved;
    - results of calls into the operating system are inputs of a step. *)

From Stdlib Require Import ZArith List Lia Bool String.
From stdpp Require Import base numbers option list gmap.

Local Open Scope Z_scope.

(** ** C arithmetic on [int] *)

Definition INT_MAX : Z := 2147483647.

Definition wrap32 (z : Z) : Z := (z + 2 ^ 31) `mod` 2 ^ 32 - 2 ^ 31.

Definition c_add (a b : Z) : Z := wrap32 (a + b).
Definition c_sub (a b : Z) : Z := wrap32 (a - b).
(** [a % b]; the source never guards the divisor, and a zero divisor
    traps in C, so every use below is under [queueSize <> 0]. *)
Definition c_rem (a b : Z) : Z := Z.rem a b.

Definition NULL : Z := 0.
Definition EINTR : Z := 4.
Definition DUMP_SCHEDULER_TIME_WINDOW : Z := 30000.

(** ** Data model *)

(** Modelled from the spec: the declaration of [SSchedMsg] is in
    [tsched.h], which is not part of the sources at hand.  The record
    has the direct callback [fp], the handle-pair callback [tfp], a
    payload reference [msg] and the two opaque handles; [tsched.c] reads
    [fp], [tfp], [ahandle] and [thandle] and copies the record whole. *)
Record SSchedMsg : Type := mkMsg {
  fp : Z;
  tfp : Z;
  msg : Z;
  ahandle : Z;
  thandle : Z
}.

#[global] Instance SSchedMsg_eq_dec : EqDecision SSchedMsg.
Proof. solve_decision. Defined.

(** The value [memset(.., 0, sizeof(SSchedMsg))] and [calloc] leave. *)
Definition zero_msg : SSchedMsg := mkMsg 0 0 0 0 0.

Record SSchedQueue : Type := mkSched {
  label : string;                    (* char label[16] *)
  emptySem : Z;                      (* count of tsem_t emptySem *)
  fullSem : Z;                       (* count of tsem_t fullSem *)
  queueMutex : option nat;           (* owner of queueMutex, if locked *)
  fullSlot : Z;
  emptySlot : Z;
  queueSize : Z;
  numOfThreads : Z;
  qthread : option (list Z);         (* NULL, or the table of pthread_t *)
  queue : option (list SSchedMsg);   (* NULL, or the slot buffer *)
  pTmrCtrl : Z;
  pTimer : Z
}.

(** [calloc(sizeof(SSchedQueue), 1)] *)
Definition zero_sched : SSchedQueue :=
  mkSched "" 0 0 None 0 0 0 0 None None NULL NULL.

Definition set_label (v : string) (s : SSchedQueue) : SSchedQueue :=
  mkSched v (emptySem s) (fullSem s) (queueMutex s) (fullSlot s) (emptySlot s)
    (queueSize s) (numOfThreads s) (qthread s) (queue s) (pTmrCtrl s) (pTimer s).
Definition set_emptySem (v : Z) (s : SSchedQueue) : SSchedQueue :=
  mkSched (label s) v (fullSem s) (queueMutex s) (fullSlot s) (emptySlot s)
    (queueSize s) (numOfThreads s) (qthread s) (queue s) (pTmrCtrl s) (pTimer s).
Definition set_fullSem (v : Z) (s : SSchedQueue) : SSchedQueue :=
  mkSched (label s) (emptySem s) v (queueMutex s) (fullSlot s) (emptySlot s)
    (queueSize s) (numOfThreads s) (qthread s) (queue s) (pTmrCtrl s) (pTimer s).
Definition set_queueMutex (v : option nat) (s : SSchedQueue) : SSchedQueue :=
  mkSched (label s) (emptySem s) (fullSem s) v (fullSlot s) (emptySlot s)
    (queueSize s) (numOfThreads s) (qthread s) (queue s) (pTmrCtrl s) (pTimer s).
Definition set_fullSlot (v : Z) (s : SSchedQueue) : SSchedQueue :=
  mkSched (label s) (emptySem s) (fullSem s) (queueMutex s) v (emptySlot s)
    (queueSize s) (numOfThreads s) (qthread s) (queue s) (pTmrCtrl s) (pTimer s).
Definition set_emptySlot (v : Z) (s : SSchedQueue) : SSchedQueue :=
  mkSched (label s) (emptySem s) (fullSem s) (queueMutex s) (fullSlot s) v
    (queueSize s) (numOfThreads s) (qthread s) (queue s) (pTmrCtrl s) (pTimer s).
Definition set_queueSize (v : Z) (s : SSchedQueue) : SSchedQueue :=
  mkSched (label s) (emptySem s) (fullSem s) (queueMutex s) (fullSlot s) (emptySlot s)
    v (numOfThreads s) (qthread s) (queue s) (pTmrCtrl s) (pTimer s).
Definition set_numOfThreads (v : Z) (s : SSchedQueue) : SSchedQueue :=
  mkSched (label s) (emptySem s) (fullSem s) (queueMutex s) (fullSlot s) (emptySlot s)
    (queueSize s) v (qthread s) (queue s) (pTmrCtrl s) (pTimer s).
Definition set_qthread (v : option (list Z)) (s : SSchedQueue) : SSchedQueue :=
  mkSched (label s) (emptySem s) (fullSem s) (queueMutex s) (fullSlot s) (emptySlot s)
    (queueSize s) (numOfThreads s) v (queue s) (pTmrCtrl s) (pTimer s).
Definition set_queue (v : option (list SSchedMsg)) (s : SSchedQueue) : SSchedQueue :=
  mkSched (label s) (emptySem s) (fullSem s) (queueMutex s) (fullSlot s) (emptySlot s)
    (queueSize s) (numOfThreads s) (qthread s) v (pTmrCtrl s) (pTimer s).
Definition set_pTmrCtrl (v : Z) (s : SSchedQueue) : SSchedQueue :=
  mkSched (label s) (emptySem s) (fullSem s) (queueMutex s) (fullSlot s) (emptySlot s)
    (queueSize s) (numOfThreads s) (qthread s) (queue s) v (pTimer s).
Definition set_pTimer (v : Z) (s : SSchedQueue) : SSchedQueue :=
  mkSched (label s) (emptySem s) (fullSem s) (queueMutex s) (fullSlot s) (emptySlot s)
    (queueSize s) (numOfThreads s) (qthread s) (queue s) (pTmrCtrl s) v.

(** Array access [a[i]]; an index outside the array has no value. *)
Definition slot_read {A : Type} (a : list A) (i : Z) : option A :=
  if bool_decide (0 ≤ i) then a !! Z.to_nat i else None.

Definition slot_write {A : Type} (a : list A) (i : Z) (x : A) : option (list A) :=
  if bool_decide (0 ≤ i < Z.of_nat (length a)) then Some (<[Z.to_nat i := x]> a) else None.

(** ** The environment: results of system calls, and what a run leaves behind *)

Inductive sem : Type := EmptySem | FullSem.

(** Result of [tsem_wait], [tsem_post], [pthread_mutex_lock] and
    [pthread_mutex_unlock]: success, or a failure with its error number. *)
Inductive oscall : Type :=
| OsOk
| OsFail (errno : Z).

Inductive loglevel : Type := LError | LTrace.

Inductive logarg : Type :=
| AStr (s : string)
| AInt (z : Z)
| APtr (p : Z)
| AErrno (e : Z).

(** Memory blocks the scheduler allocates. *)
Inductive block : Type := BSched | BQueue | BQthread.

Inductive event : Type :=
(* queue traffic *)
| ESemWait (sm : sem) (o : oscall)
| ESemPost (sm : sem) (o : oscall)
| ELock (o : oscall)
| EUnlock (o : oscall)
| ERead (i : Z) (m : SSchedMsg)
| EClear (i : Z)
| EWrite (i : Z) (m : SSchedMsg)
| ESetFullSlot (v : Z)
| ESetEmptySlot (v : Z)
| ECallFp (f : Z) (m : SSchedMsg)
| ECallTfp (f : Z) (a t : Z)
| EReturn (v : Z)
| ELog (lv : loglevel) (fmt : string) (args : list logarg)
(* life cycle *)
| ECalloc (b : block) (ok : bool)
| EFree (b : block)
| EMutexInit (rc : Z)
| EMutexDestroy
| ESemInit (sm : sem) (value : Z) (rc : Z)
| ESemDestroy (sm : sem)
| EThreadCreate (i : Z) (rc : Z) (th : Z)
| EThreadCancel (th : Z)
| EThreadJoin (th : Z)
| ETmrReset (ms : Z) (param : Z) (ctrl : Z) (old : Z)
| ETmrStop (tmr : Z).

#[global] Instance sem_eq_dec : EqDecision sem.
Proof. solve_decision. Defined.
#[global] Instance oscall_eq_dec : EqDecision oscall.
Proof. solve_decision. Defined.
#[global] Instance loglevel_eq_dec : EqDecision loglevel.
Proof. solve_decision. Defined.
#[global] Instance logarg_eq_dec : EqDecision logarg.
Proof. solve_decision. Defined.
#[global] Instance block_eq_dec : EqDecision block.
Proof. solve_decision. Defined.
#[global] Instance event_eq_dec : EqDecision event.
Proof. solve_decision. Defined.

Definition uError (fmt : string) (args : list logarg) : event := ELog LError fmt args.
Definition uTrace (fmt : string) (args : list logarg) : event := ELog LTrace fmt args.

(** One step of a thread either moves on, is not enabled now (a
    semaphore at zero, a mutex held by another thread), or has no
    defined behaviour (a slot index outside the buffer, a remainder by
    zero, a null buffer). *)
Inductive result (A : Type) : Type :=
| Next (a : A)
| Blocked
| Fault.
Arguments Next {A} a.
Arguments Blocked {A}.
Arguments Fault {A}.

(** ** [taosProcessSchedQueue], lines 118-152 *)

Inductive wpc : Type :=
| WWaitFull      (* 123  tsem_wait(&pSched->fullSem) *)
| WLock          (* 132  pthread_mutex_lock(&pSched->queueMutex) *)
| WRead          (* 135  msg = pSched->queue[pSched->fullSlot] *)
| WClear         (* 136  memset(pSched->queue + pSched->fullSlot, 0, ..) *)
| WAdvance       (* 137  pSched->fullSlot = (pSched->fullSlot + 1) % pSched->queueSize *)
| WUnlock        (* 139  pthread_mutex_unlock(&pSched->queueMutex) *)
| WPostEmpty     (* 142  tsem_post(&pSched->emptySem) *)
| WDispatch.     (* 145-148  the callback *)

#[global] Instance wpc_eq_dec : EqDecision wpc.
Proof. solve_decision. Defined.

(** Lines 145-148: which callback a dequeued record runs. *)
Definition dispatch (m : SSchedMsg) : list event :=
  if bool_decide (fp m ≠ NULL) then [ECallFp (fp m) m]
  else if bool_decide (tfp m ≠ NULL) then [ECallTfp (tfp m) (ahandle m) (thandle m)]
  else [].

(** One statement of the worker loop, run by thread [me] with the local
    variable [m] ([msg] in the source), on the scheduler [s]; [o] is the
    result of the system call, if the statement is one. *)
Definition taosProcessSchedQueue (me : nat) (o : oscall) (pc : wpc) (m : SSchedMsg)
    (s : SSchedQueue) : result (SSchedQueue * wpc * SSchedMsg * list event) :=
  match pc with
  | WWaitFull =>
      match o with
      | OsOk =>
          if bool_decide (0 < fullSem s)
          then Next (set_fullSem (fullSem s - 1) s, WLock, m, [ESemWait FullSem OsOk])
          else Blocked
      | OsFail e =>
          if bool_decide (e = EINTR)
          then Next (s, WWaitFull, m,
                     [ESemWait FullSem o;
                      uTrace "wait %s fullSem was interrupted" [AStr (label s)]])
          else Next (s, WLock, m,
                     [ESemWait FullSem o;
                      uError "wait %s fullSem failed(%s)" [AStr (label s); AErrno e]])
      end
  | WLock =>
      match o with
      | OsOk =>
          match queueMutex s with
          | None => Next (set_queueMutex (Some me) s, WRead, m, [ELock OsOk])
          | Some _ => Blocked
          end
      | OsFail e =>
          Next (s, WRead, m,
                [ELock o; uError "lock %s queueMutex failed(%s)" [AStr (label s); AErrno e]])
      end
  | WRead =>
      match queue s with
      | Some q =>
          match slot_read q (fullSlot s) with
          | Some x => Next (s, WClear, x, [ERead (fullSlot s) x])
          | None => Fault
          end
      | None => Fault
      end
  | WClear =>
      match queue s with
      | Some q =>
          match slot_write q (fullSlot s) zero_msg with
          | Some q' => Next (set_queue (Some q') s, WAdvance, m, [EClear (fullSlot s)])
          | None => Fault
          end
      | None => Fault
      end
  | WAdvance =>
      if bool_decide (queueSize s = 0) then Fault
      else
        let v := c_rem (c_add (fullSlot s) 1) (queueSize s) in
        Next (set_fullSlot v s, WUnlock, m, [ESetFullSlot v])
  | WUnlock =>
      match o with
      | OsOk => Next (set_queueMutex None s, WPostEmpty, m, [EUnlock OsOk])
      | OsFail e =>
          Next (s, WPostEmpty, m,
                [EUnlock o; uError "unlock %s queueMutex failed(%s)" [AStr (label s); AErrno e]])
      end
  | WPostEmpty =>
      match o with
      | OsOk => Next (set_emptySem (emptySem s + 1) s, WDispatch, m, [ESemPost EmptySem OsOk])
      | OsFail e =>
          Next (s, WDispatch, m,
                [ESemPost EmptySem o;
                 uError "post %s emptySem failed(%s)" [AStr (label s); AErrno e]])
      end
  | WDispatch => Next (s, WWaitFull, m, dispatch m)
  end.

(** ** [taosScheduleTask], lines 154-182 *)

Inductive ppc : Type :=
| PCheck         (* 156  if (pSched == NULL) *)
| PWaitEmpty     (* 161  while (tsem_wait(&pSched->emptySem) != 0) *)
| PLock          (* 169  pthread_mutex_lock(&pSched->queueMutex) *)
| PWrite         (* 172  pSched->queue[pSched->emptySlot] = *pMsg *)
| PAdvance       (* 173  pSched->emptySlot = (pSched->emptySlot + 1) % pSched->queueSize *)
| PUnlock        (* 175  pthread_mutex_unlock(&pSched->queueMutex) *)
| PPostFull      (* 178  tsem_post(&pSched->fullSem) *)
| PReturn.       (* 181  return 0 *)

#[global] Instance ppc_eq_dec : EqDecision ppc.
Proof. solve_decision. Defined.

(** Where a step of a function that can return leaves its caller. *)
Inductive ctl : Type :=
| Goto (pc : ppc)
| Return (v : Z).

(** One statement of [taosScheduleTask(qhandle, pMsg)] run by thread
    [me]; [s] is the object a non-null [qhandle] points to and [pMsg] is
    the record the second argument points to. *)
Definition taosScheduleTask (me : nat) (o : oscall) (qhandle : Z) (pMsg : SSchedMsg)
    (pc : ppc) (s : SSchedQueue) : result (SSchedQueue * ctl * list event) :=
  match pc with
  | PCheck =>
      if bool_decide (qhandle = NULL)
      then Next (s, Return 0,
                 [uError "sched is not ready, msg:%p is dropped" []; EReturn 0])
      else Next (s, Goto PWaitEmpty, [])
  | PWaitEmpty =>
      match o with
      | OsOk =>
          if bool_decide (0 < emptySem s)
          then Next (set_emptySem (emptySem s - 1) s, Goto PLock, [ESemWait EmptySem OsOk])
          else Blocked
      | OsFail e =>
          if bool_decide (e ≠ EINTR)
          then Next (s, Goto PLock,
                     [ESemWait EmptySem o;
                      uError "wait %s emptySem failed(%s)" [AStr (label s); AErrno e]])
          else Next (s, Goto PWaitEmpty,
                     [ESemWait EmptySem o;
                      uTrace "wait %s emptySem was interrupted" [AStr (label s)]])
      end
  | PLock =>
      match o with
      | OsOk =>
          match queueMutex s with
          | None => Next (set_queueMutex (Some me) s, Goto PWrite, [ELock OsOk])
          | Some _ => Blocked
          end
      | OsFail e =>
          Next (s, Goto PWrite,
                [ELock o; uError "lock %s queueMutex failed(%s)" [AStr (label s); AErrno e]])
      end
  | PWrite =>
      match queue s with
      | Some q =>
          match slot_write q (emptySlot s) pMsg with
          | Some q' => Next (set_queue (Some q') s, Goto PAdvance, [EWrite (emptySlot s) pMsg])
          | None => Fault
          end
      | None => Fault
      end
  | PAdvance =>
      if bool_decide (queueSize s = 0) then Fault
      else
        let v := c_rem (c_add (emptySlot s) 1) (queueSize s) in
        Next (set_emptySlot v s, Goto PUnlock, [ESetEmptySlot v])
  | PUnlock =>
      match o with
      | OsOk => Next (set_queueMutex None s, Goto PPostFull, [EUnlock OsOk])
      | OsFail e =>
          Next (s, Goto PPostFull,
                [EUnlock o; uError "unlock %s queueMutex failed(%s)" [AStr (label s); AErrno e]])
      end
  | PPostFull =>
      match o with
      | OsOk => Next (set_fullSem (fullSem s + 1) s, Goto PReturn, [ESemPost FullSem OsOk])
      | OsFail e =>
          Next (s, Goto PReturn,
                [ESemPost FullSem o;
                 uError "post %s fullSem failed(%s)" [AStr (label s); AErrno e]])
      end
  | PReturn => Next (s, Return 0, [EReturn 0])
  end.

(** ** Life cycle: [taosCleanUpScheduler], [taosInitScheduler] and the timer

    The heap maps the address of every live [SSchedQueue] to its
    contents; a freed or never allocated address has no entry.  A
    life-cycle function returns [None] where the source dereferences an
    address that is not live. *)

Abbreviation heap := (gmap Z SSchedQueue).

(** [if (p)] on a pointer to a buffer. *)
Definition allocated {A : Type} (p : option A) : bool :=
  match p with Some _ => true | None => false end.

(** The entries [qthread[0] .. qthread[numOfThreads-1]] both loops of
    [taosCleanUpScheduler] visit. *)
Definition started_threads (s : SSchedQueue) : option (list Z) :=
  match qthread s with
  | Some tb => mapM (slot_read tb) (seqZ 0 (numOfThreads s))
  | None => if bool_decide (numOfThreads s ≤ 0) then Some [] else None
  end.

(** Lines 184-208. *)
Definition taosCleanUpScheduler (param : Z) (h : heap) : option (heap * list event) :=
  if bool_decide (param = NULL) then Some (h, [])
  else
    match h !! param with
    | None => None
    | Some s =>
        match started_threads s with
        | None => None
        | Some ths =>
            let live := filter (λ th, th ≠ 0) ths in
            Some (delete param h,
                  (EThreadCancel <$> live) ++ (EThreadJoin <$> live)
                  ++ [ESemDestroy EmptySem; ESemDestroy FullSem; EMutexDestroy]
                  ++ (if bool_decide (pTimer s ≠ NULL) then [ETmrStop (pTimer s)] else [])
                  ++ (if allocated (queue s) then [EFree BQueue] else [])
                  ++ (if allocated (qthread s) then [EFree BQthread] else [])
                  ++ [EFree BSched])
        end
    end.

(** What the calls of [taosInitScheduler] into libc and pthreads return. *)
Record init_env : Type := mkEnv {
  env_calloc_sched : Z;            (* address of the handle block, NULL on failure *)
  env_calloc_queue : bool;         (* did calloc of the slot buffer succeed *)
  env_calloc_qthread : bool;       (* did calloc of the thread table succeed *)
  env_mutex_init : Z;              (* return value of pthread_mutex_init *)
  env_sem_init_empty : Z;          (* return value of tsem_init(&emptySem, ..) *)
  env_sem_init_full : Z;           (* return value of tsem_init(&fullSem, ..) *)
  env_thread_create : Z → Z * Z    (* i |-> return value of pthread_create, thread id *)
}.

(** Lines 64-65: [strncpy] into [label[16]], then the terminator. *)
Definition copy_label (l : string) : string := String.substring 0 15 l.

(** Lines 88-100, over the indices still to visit; the flag tells
    whether every [pthread_create] succeeded. *)
Fixpoint create_workers (env : init_env) (lbl : string) (idx : list Z) (s : SSchedQueue)
    : SSchedQueue * list event * bool :=
  match idx with
  | [] => (s, [], true)
  | i :: rest =>
      let '(code, th) := env_thread_create env i in
      if bool_decide (code ≠ 0)
      then (s, [EThreadCreate i code 0;
                uError "%s: failed to create rpc thread(%s)" [AStr lbl]], false)
      else
        let s1 := set_numOfThreads (c_add (numOfThreads s) 1)
                    (set_qthread ((λ tb, <[Z.to_nat i := th]> tb) <$> qthread s) s) in
        let '(s2, ev, ok) := create_workers env lbl rest s1 in
        (s2, EThreadCreate i 0 th :: ev, ok)
  end.

(** The failure exits of [taosInitScheduler]: [taosCleanUpScheduler(pSched);
    return NULL]. *)
Definition init_abort (p : Z) (s : SSchedQueue) (h : heap) (ev : list event)
    : option (Z * heap * list event) :=
  match taosCleanUpScheduler p (<[p := s]> h) with
  | Some (h', ev') => Some (NULL, h', ev ++ ev')
  | None => None
  end.

(** Lines 42-105.  The result is the returned handle, the heap and the
    calls made, in order. *)
Definition taosInitScheduler (env : init_env) (queueSize0 numOfThreads0 : Z) (lbl : string)
    (h : heap) : option (Z * heap * list event) :=
  let p := env_calloc_sched env in
  if bool_decide (p = NULL)
  then Some (NULL, h, [ECalloc BSched false; uError "%s: no enough memory for pSched" [AStr lbl]])
  else
    let s0 := zero_sched in
    let ev0 := [ECalloc BSched true] in
    if negb (env_calloc_queue env)
    then init_abort p s0 h
           (ev0 ++ [ECalloc BQueue false; uError "%s: no enough memory for queue" [AStr lbl]])
    else
      let s1 := set_queue (Some (replicate (Z.to_nat queueSize0) zero_msg)) s0 in
      let ev1 := ev0 ++ [ECalloc BQueue true] in
      if negb (env_calloc_qthread env)
      then init_abort p s1 h
             (ev1 ++ [ECalloc BQthread false; uError "%s: no enough memory for qthread" [AStr lbl]])
      else
        let s2 := set_qthread (Some (replicate (Z.to_nat numOfThreads0) 0)) s1 in
        let ev2 := ev1 ++ [ECalloc BQthread true] in
        let s3 := set_emptySlot 0 (set_fullSlot 0
                    (set_label (copy_label lbl) (set_queueSize queueSize0 s2))) in
        let ev3 := ev2 ++ [EMutexInit (env_mutex_init env)] in
        if bool_decide (env_mutex_init env < 0)
        then init_abort p s3 h
               (ev3 ++ [uError "init %s:queueMutex failed(%s)" [AStr lbl]])
        else
          let s4 := set_queueMutex None s3 in
          let value := queueSize s4 `mod` 2 ^ 32 in
          let ev4 := ev3 ++ [ESemInit EmptySem value (env_sem_init_empty env)] in
          if bool_decide (env_sem_init_empty env ≠ 0)
          then init_abort p s4 h
                 (ev4 ++ [uError "init %s:empty semaphore failed(%s)" [AStr lbl]])
          else
            let s5 := set_emptySem value s4 in
            let ev5 := ev4 ++ [ESemInit FullSem 0 (env_sem_init_full env)] in
            if bool_decide (env_sem_init_full env ≠ 0)
            then init_abort p s5 h
                   (ev5 ++ [uError "init %s:full semaphore failed(%s)" [AStr lbl]])
            else
              let s6 := set_fullSem 0 s5 in
              let '(s7, evt, ok) := create_workers env lbl (seqZ 0 numOfThreads0) s6 in
              if ok
              then Some (p, <[p := s7]> h,
                         ev5 ++ evt
                         ++ [uTrace "%s scheduler is initialized, numOfThreads:%d"
                               [AStr lbl; AInt (numOfThreads s7)]])
              else init_abort p s7 h (ev5 ++ evt).

(** Modelled from the spec: [taosTmrReset] and [taosTmrStopA] are in
    [ttimer.c], which is not part of the sources at hand.  The timer
    service registers a one-shot callback due after a delay and hands
    back the registration, which it stores through its last argument;
    [tmr] is the registration it hands back. *)
Definition taosTmrReset (tmr : Z) (ms : Z) (param : Z) (s : SSchedQueue)
    : SSchedQueue * list event :=
  (set_pTimer tmr s, [ETmrReset ms param (pTmrCtrl s) (pTimer s)]).

(** Lines 107-116. *)
Definition taosInitSchedulerWithInfo (env : init_env) (tmr : Z) (queueSize0 numOfThreads0 : Z)
    (lbl : string) (tmrCtrl : Z) (h : heap) : option (Z * heap * list event) :=
  match taosInitScheduler env queueSize0 numOfThreads0 lbl h with
  | None => None
  | Some (p, h1, ev) =>
      if bool_decide (tmrCtrl ≠ NULL) && bool_decide (p ≠ NULL)
      then
        match h1 !! p with
        | None => None
        | Some s =>
            let '(s', ev') :=
              taosTmrReset tmr DUMP_SCHEDULER_TIME_WINDOW p (set_pTmrCtrl tmrCtrl s) in
            Some (p, <[p := s']> h1, ev ++ ev')
        end
      else Some (p, h1, ev)
  end.

(** Line 217: the number of tasks in the queue as the reporter computes it. *)
Definition dump_size (s : SSchedQueue) : Z :=
  c_rem (c_add (c_sub (emptySlot s) (fullSlot s)) (queueSize s)) (queueSize s).

(** Lines 211-223, one firing of the timer with registration [tmrId];
    [tmr] is the registration the rearming hands back. *)
Definition taosDumpSchedulerStatus (tmr : Z) (qhandle tmrId : Z) (h : heap)
    : option (heap * list event) :=
  if bool_decide (qhandle = NULL) then Some (h, [])
  else
    match h !! qhandle with
    | None => None
    | Some s =>
        if bool_decide (pTimer s = NULL) || bool_decide (pTimer s ≠ tmrId)
        then Some (h, [])
        else if bool_decide (queueSize s = 0) then None
        else
          let size := dump_size s in
          let ev := if bool_decide (size > 0)
                    then [uTrace "scheduler:%s, current tasks in queue:%d, task thread:%d"
                            [AStr (label s); AInt size; AInt (numOfThreads s)]]
                    else [] in
          let '(s', ev') := taosTmrReset tmr DUMP_SCHEDULER_TIME_WINDOW qhandle s in
          Some (<[qhandle := s']> h, ev ++ ev')
    end.

(** ** Threads and their interleaving

    A producer thread submits the records of [p_todo], one call of
    [taosScheduleTask] after the other, and keeps what the calls
    returned; a worker thread runs [taosProcessSchedQueue].  A system
    is one scheduler object, the threads that use it (a thread's
    identifier is its position) and the events so far, oldest first. *)

Record producer : Type := mkProducer {
  p_handle : Z;
  p_pc : ppc;
  p_todo : list SSchedMsg;
  p_rets : list Z
}.

Record worker : Type := mkWorker {
  w_pc : wpc;
  w_msg : SSchedMsg
}.

Inductive thread : Type :=
| Producer (p : producer)
| Worker (w : worker).

Record system : Type := mkSys {
  sched : SSchedQueue;
  threads : list thread;
  trace : list (nat * event)
}.

Definition thread_step (me : nat) (o : oscall) (th : thread) (s : SSchedQueue)
    : result (SSchedQueue * thread * list event) :=
  match th with
  | Worker w =>
      match taosProcessSchedQueue me o (w_pc w) (w_msg w) s with
      | Next (s', pc', m', ev) => Next (s', Worker (mkWorker pc' m'), ev)
      | Blocked => Blocked
      | Fault => Fault
      end
  | Producer p =>
      match p_todo p with
      | [] => Blocked
      | pMsg :: rest =>
          match taosScheduleTask me o (p_handle p) pMsg (p_pc p) s with
          | Next (s', Goto pc', ev) =>
              Next (s', Producer (mkProducer (p_handle p) pc' (p_todo p) (p_rets p)), ev)
          | Next (s', Return v, ev) =>
              Next (s', Producer (mkProducer (p_handle p) PCheck rest (p_rets p ++ [v])), ev)
          | Blocked => Blocked
          | Fault => Fault
          end
      end
  end.

Definition sys_step (tid : nat) (o : oscall) (st : system) : result system :=
  match threads st !! tid with
  | None => Blocked
  | Some th =>
      match thread_step tid o th (sched st) with
      | Next (s', th', ev) =>
          Next (mkSys s' (<[tid := th']> (threads st)) (trace st ++ ((λ e, (tid, e)) <$> ev)))
      | Blocked => Blocked
      | Fault => Fault
      end
  end.

(** A schedule names, step by step, the thread that runs and the result
    of its system call. *)
Fixpoint run (sch : list (nat * oscall)) (st : system) : result system :=
  match sch with
  | [] => Next st
  | (tid, o) :: rest =>
      match sys_step tid o st with
      | Next st' => run rest st'
      | Blocked => Blocked
      | Fault => Fault
      end
  end.

(** Normal operation of the system calls: every call succeeds, except
    that a semaphore wait may be interrupted ([EINTR]).  The other
    failures are the ones the source logs and walks past. *)
Definition at_wait (th : thread) : bool :=
  match th with
  | Producer p => bool_decide (p_pc p = PWaitEmpty)
  | Worker w => bool_decide (w_pc w = WWaitFull)
  end.

Definition os_normal (th : thread) (o : oscall) : bool :=
  match o with
  | OsOk => true
  | OsFail e => bool_decide (e = EINTR) && at_wait th
  end.

(** Does the schedule stay within normal operation along its run. *)
Fixpoint normal_schedule (sch : list (nat * oscall)) (st : system) : bool :=
  match sch with
  | [] => true
  | (tid, o) :: rest =>
      match threads st !! tid with
      | Some th =>
          os_normal th o
          && match sys_step tid o st with
             | Next st' => normal_schedule rest st'
             | _ => true
             end
      | None => true
      end
  end.

(** ** One call, one iteration: a thread running alone

    [exec_task] runs the statements of one call of [taosScheduleTask]
    with the given results of its system calls, until the call returns
    or the results are used up; [exec_worker] does the same for the
    statements of the worker loop. *)
Fixpoint exec_task (me : nat) (os : list oscall) (qhandle : Z) (pMsg : SSchedMsg)
    (pc : ppc) (s : SSchedQueue) : result (SSchedQueue * ctl * list event) :=
  match os with
  | [] => Next (s, Goto pc, [])
  | o :: rest =>
      match taosScheduleTask me o qhandle pMsg pc s with
      | Next (s', Goto pc', ev) =>
          match exec_task me rest qhandle pMsg pc' s' with
          | Next (s'', c, ev') => Next (s'', c, ev ++ ev')
          | Blocked => Blocked
          | Fault => Fault
          end
      | Next (s', Return v, ev) => Next (s', Return v, ev)
      | Blocked => Blocked
      | Fault => Fault
      end
  end.

Fixpoint exec_worker (me : nat) (os : list oscall) (pc : wpc) (m : SSchedMsg)
    (s : SSchedQueue) : result (SSchedQueue * wpc * SSchedMsg * list event) :=
  match os with
  | [] => Next (s, pc, m, [])
  | o :: rest =>
      match taosProcessSchedQueue me o pc m s with
      | Next (s', pc', m', ev) =>
          match exec_worker me rest pc' m' s' with
          | Next (s'', pc'', m'', ev') => Next (s'', pc'', m'', ev ++ ev')
          | Blocked => Blocked
          | Fault => Fault
          end
      | Blocked => Blocked
      | Fault => Fault
      end
  end.

(** The threads of a system that has not run yet. *)
Definition initial_thread (th : thread) : bool :=
  match th with
  | Producer p => bool_decide (p_pc p = PCheck) && bool_decide (p_rets p = [])
  | Worker w => bool_decide (w_pc w = WWaitFull)
  end.

(** The system made of a scheduler that [taosInitScheduler] has just
    returned and of threads about to use it. *)
Definition fresh_system (env : init_env) (Q W : Z) (lbl : string) (ths : list thread)
    : option system :=
  match taosInitScheduler env Q W lbl ∅ with
  | Some (p, h, _) =>
      if bool_decide (p = NULL) then None
      else
        match h !! p with
        | Some s => if forallb initial_thread ths then Some (mkSys s ths []) else None
        | None => None
        end
  | None => None
  end.

(** ** Quantities of a system state *)

(** Records written to and read from the slot buffer, in the order of
    the writes and of the reads. *)
Definition enqueued (tr : list (nat * event)) : list SSchedMsg :=
  omap (λ te, match te.2 with EWrite _ m => Some m | _ => None end) tr.

Definition dequeued (tr : list (nat * event)) : list SSchedMsg :=
  omap (λ te, match te.2 with ERead _ m => Some m | _ => None end) tr.

(** The occupancy of the design: [(emptySlot - fullSlot + Q) mod Q]. *)
Definition occupied (s : SSchedQueue) : Z :=
  (emptySlot s - fullSlot s + queueSize s) `mod` queueSize s.

(** No thread is inside an enqueue or a dequeue: every producer is
    between two calls and every worker is before its wait or past its
    post. *)
Definition idle (th : thread) : bool :=
  match th with
  | Producer p => bool_decide (p_pc p = PCheck) || bool_decide (p_pc p = PWaitEmpty)
                  || bool_decide (p_pc p = PReturn)
  | Worker w => bool_decide (w_pc w = WWaitFull) || bool_decide (w_pc w = WDispatch)
  end.

Definition quiescent (st : system) : bool := forallb idle (threads st).

(** ** The invariant of the queue

    Every slot is in one of six conditions, and the sums below count
    the threads that account for four of them: a free slot taken from
    [emptySem] and not written yet ([holds_empty]), a written slot not
    announced on [fullSem] yet ([wrote]), an announced slot taken from
    [fullSem] and not read yet ([holds_full]), and a read slot not
    given back to [emptySem] yet ([took]). *)

Definition total (f : thread → Z) (ths : list thread) : Z :=
  foldr (λ th acc, f th + acc) 0 ths.

Definition holds_empty (th : thread) : Z :=
  match th with
  | Producer p => match p_pc p with PLock | PWrite => 1 | _ => 0 end
  | Worker _ => 0
  end.

Definition wrote (th : thread) : Z :=
  match th with
  | Producer p => match p_pc p with PAdvance | PUnlock | PPostFull => 1 | _ => 0 end
  | Worker _ => 0
  end.

Definition holds_full (th : thread) : Z :=
  match th with
  | Producer _ => 0
  | Worker w => match w_pc w with WLock | WRead => 1 | _ => 0 end
  end.

Definition took (th : thread) : Z :=
  match th with
  | Producer _ => 0
  | Worker w => match w_pc w with WClear | WAdvance | WUnlock | WPostEmpty => 1 | _ => 0 end
  end.

(** A thread between its semaphore wait and its semaphore post. *)
Definition in_flight (th : thread) : Z :=
  holds_empty th + wrote th + holds_full th + took th.

(** A cursor lags behind the count of writes (reads) while the thread
    that wrote (read) has not advanced it yet. *)
Definition lag_empty (th : thread) : Z :=
  match th with
  | Producer p => match p_pc p with PAdvance => 1 | _ => 0 end
  | Worker _ => 0
  end.

Definition lag_full (th : thread) : Z :=
  match th with
  | Producer _ => 0
  | Worker w => match w_pc w with WClear | WAdvance => 1 | _ => 0 end
  end.

(** The statements between lock and unlock. *)
Definition in_cs (th : thread) : bool :=
  match th with
  | Producer p => match p_pc p with PWrite | PAdvance | PUnlock => true | _ => false end
  | Worker w => match w_pc w with WRead | WClear | WAdvance | WUnlock => true | _ => false end
  end.

Definition count_enq (st : system) : Z := Z.of_nat (length (enqueued (trace st))).
Definition count_deq (st : system) : Z := Z.of_nat (length (dequeued (trace st))).

Record queue_inv (st : system) : Prop := mkInv {
  inv_size : 1 ≤ queueSize (sched st) ≤ INT_MAX;
  inv_buf : ∃ q, queue (sched st) = Some q
                 ∧ Z.of_nat (length q) = queueSize (sched st)
                 ∧ ∀ i, count_deq st ≤ i < count_enq st →
                        q !! Z.to_nat (i `mod` queueSize (sched st))
                        = enqueued (trace st) !! Z.to_nat i;
  inv_mutex : ∀ t th, threads st !! t = Some th → in_cs th = true →
                      queueMutex (sched st) = Some t;
  inv_owner : ∀ t, queueMutex (sched st) = Some t →
                   ∃ th, threads st !! t = Some th ∧ in_cs th = true;
  inv_empty_cursor :
    emptySlot (sched st)
    = (count_enq st - total lag_empty (threads st)) `mod` queueSize (sched st);
  inv_full_cursor :
    fullSlot (sched st)
    = (count_deq st - total lag_full (threads st)) `mod` queueSize (sched st);
  inv_fifo : dequeued (trace st) = take (length (dequeued (trace st))) (enqueued (trace st));
  inv_sems : 0 ≤ emptySem (sched st) ∧ 0 ≤ fullSem (sched st);
  inv_free :
    emptySem (sched st) + total holds_empty (threads st)
    + (count_enq st - count_deq st) + total took (threads st) = queueSize (sched st);
  inv_used :
    fullSem (sched st) + total wrote (threads st) + total holds_full (threads st)
    = count_enq st - count_deq st
}.

(** The fields of the queue that the creation of the workers leaves alone. *)
Definition same_queue (s s' : SSchedQueue) : Prop :=
  label s' = label s ∧ emptySem s' = emptySem s ∧ fullSem s' = fullSem s
  ∧ queueMutex s' = queueMutex s ∧ fullSlot s' = fullSlot s ∧ emptySlot s' = emptySlot s
  ∧ queueSize s' = queueSize s ∧ queue s' = queue s
  ∧ pTmrCtrl s' = pTmrCtrl s ∧ pTimer s' = pTimer s.

(** ** A single producer

    The producer is thread 0 and every other thread is a worker;
    [unwritten] are the records of its current and later calls that are
    not in the slot buffer yet. *)

Definition is_worker (th : thread) : bool :=
  match th with Worker _ => true | Producer _ => false end.

Definition unwritten (p : producer) : list SSchedMsg :=
  match p_pc p with
  | PAdvance | PUnlock | PPostFull | PReturn => tail (p_todo p)
  | _ => p_todo p
  end.

Definition single_producer (ts : list SSchedMsg) (st : system) : Prop :=
  ∃ p ws, threads st = Producer p :: ws
          ∧ forallb is_worker ws = true
          ∧ p_handle p ≠ NULL
          ∧ enqueued (trace st) ++ unwritten p = ts.

(** ** What a caller sees *)

(** The value a run of one call of [taosScheduleTask] returned, if it
    returned. *)
Definition returned (r : result (SSchedQueue * ctl * list event)) : option Z :=
  match r with
  | Next (_, Return v, _) => Some v
  | _ => None
  end.

(** The report of a dropped record, line 157. *)
Definition drop_report : event := uError "sched is not ready, msg:%p is dropped" [].

(** Results of a semaphore wait under normal operation. *)
Definition wait_normal (o : oscall) : bool :=
  match o with OsOk => true | OsFail e => bool_decide (e = EINTR) end.

(** The invocations of a callback among the events. *)
Definition is_callback (e : event) : bool :=
  match e with
  | ECallFp _ _ | ECallTfp _ _ _ => true
  | _ => false
  end.

(** Two calls of [taosCleanUpScheduler] on the same handle: the result
    of the second, if the first is defined. *)
Definition shutdown_twice (p : Z) (h : heap) : option (option (heap * list event)) :=
  match taosCleanUpScheduler p h with
  | Some (h1, _) => Some (taosCleanUpScheduler p h1)
  | None => None
  end.

(** ** The threads of the process

    Lines 190 and 194 discard what [pthread_cancel] and [pthread_join]
    return, so what the two loops of [taosCleanUpScheduler] do to the
    workers is not in the events; it is what POSIX has the two calls do
    to the threads of the process.  [alive] are the threads that have not
    terminated, [cancelled] those of them with a cancellation request
    pending.  A worker acts on the request at its next wait on
    [fullSem] (line 123, a cancellation point), which it reaches once
    the callback it may be running has returned. *)
Record threads_state : Type := mkThreads {
  alive : gset Z;
  cancelled : gset Z
}.

(** One call, made by thread [self].
    [pthread_create] that succeeds: the new thread is alive.
    [pthread_cancel th]: a request; [th] terminates later.
    [pthread_join th]: returns when [th] has terminated, which a
    cancelled worker does; on a thread that is not cancelled it does
    not return, and on no thread at all it fails at once ([ESRCH]).
    A caller that cancels or joins itself does not get to the end of
    the loops: no state. *)
Definition thread_call (self : Z) (e : event) (t : threads_state) : option threads_state :=
  match e with
  | EThreadCreate _ code th =>
      if bool_decide (code = 0)
      then Some (mkThreads ({[th]} ∪ alive t) (cancelled t ∖ {[th]}))
      else Some t
  | EThreadCancel th =>
      if bool_decide (th = self) then None
      else if bool_decide (th ∈ alive t)
           then Some (mkThreads (alive t) ({[th]} ∪ cancelled t))
           else Some t
  | EThreadJoin th =>
      if bool_decide (th = self) then None
      else if bool_decide (th ∈ alive t)
           then if bool_decide (th ∈ cancelled t)
                then Some (mkThreads (alive t ∖ {[th]}) (cancelled t ∖ {[th]}))
                else None
           else Some t
  | _ => Some t
  end.

Fixpoint thread_calls (self : Z) (ev : list event) (t : threads_state)
    : option threads_state :=
  match ev with
  | [] => Some t
  | e :: rest =>
      match thread_call self e t with
      | Some t' => thread_calls self rest t'
      | None => None
      end
  end.

(** ** Schedules without interleaving *)

(** Thread [tid] runs alone for [n] steps, every system call succeeding. *)
Definition alone (tid : nat) (n : nat) : list (nat * oscall) := replicate n (tid, OsOk).

Definition all_ok (sch : list (nat * oscall)) : bool :=
  forallb (λ x, bool_decide (x.2 = OsOk)) sch.

(** ** Further quantities of a run and of the life cycle *)

(** A producer that is inside a call has the record of that call. *)
Definition in_call_has_task (th : thread) : bool :=
  match th with
  | Producer p =>
      bool_decide (p_pc p = PCheck) || match p_todo p with [] => false | _ :: _ => true end
  | Worker _ => true
  end.

(** The statements a thread has to run to get out of the enqueue or
    dequeue it is inside: from the lock to the post.  None of them
    waits on a semaphore. *)
Definition steps_left (th : thread) : Z :=
  match th with
  | Producer p =>
      match p_pc p with
      | PLock => 5 | PWrite => 4 | PAdvance => 3 | PUnlock => 2 | PPostFull => 1
      | PCheck | PWaitEmpty | PReturn => 0
      end
  | Worker w =>
      match w_pc w with
      | WLock => 6 | WRead => 5 | WClear => 4 | WAdvance => 3 | WUnlock => 2
      | WPostEmpty => 1
      | WWaitFull | WDispatch => 0
      end
  end.

(** Where these statements leave the thread: a producer at its
    [return], a worker at the callback; a thread that is inside no
    enqueue or dequeue stays where it is. *)
Definition settles (th th' : thread) : Prop :=
  match th with
  | Producer p =>
      match p_pc p with
      | PCheck | PWaitEmpty | PReturn => th' = th
      | _ => th' = Producer (mkProducer (p_handle p) PReturn (p_todo p) (p_rets p))
      end
  | Worker w =>
      match w_pc w with
      | WWaitFull | WDispatch => th' = th
      | _ => ∃ m, th' = Worker (mkWorker WDispatch m)
      end
  end.

(** Calls of [taosScheduleTask] on a non-null handle that have returned. *)
Definition completed (th : thread) : Z :=
  match th with
  | Producer p =>
      if bool_decide (p_handle p = NULL) then 0 else Z.of_nat (length (p_rets p))
  | Worker _ => 0
  end.

(** A call whose record is in the buffer and which has not returned yet. *)
Definition written_pending (th : thread) : Z :=
  match th with
  | Producer p =>
      match p_pc p with PAdvance | PUnlock | PPostFull | PReturn => 1 | _ => 0 end
  | Worker _ => 0
  end.

(** A call on the null handle never gets past line 156. *)
Definition null_at_check (th : thread) : bool :=
  match th with
  | Producer p => bool_decide (p_handle p ≠ NULL) || bool_decide (p_pc p = PCheck)
  | Worker _ => true
  end.

Definition calls_inv (st : system) : Prop :=
  forallb null_at_check (threads st) = true
  ∧ total completed (threads st) + total written_pending (threads st) = count_enq st.

(** The records thread [tid] wrote to the slot buffer, in order. *)
Definition written_by (tid : nat) (tr : list (nat * event)) : list SSchedMsg :=
  omap (λ te, if bool_decide (te.1 = tid)
              then match te.2 with EWrite _ m => Some m | _ => None end
              else None) tr.

(** The producer at position [tid] submits [ts] on handle [hd]: what it
    wrote so far, followed by what it has not written yet, is [ts]. *)
Definition producer_progress (tid : nat) (hd : Z) (ts : list SSchedMsg) (st : system) : Prop :=
  ∃ p, threads st !! tid = Some (Producer p)
       ∧ p_handle p = hd
       ∧ written_by tid (trace st) ++ unwritten p = ts.

(** What [n] interrupted waits on a semaphore leave in the log. *)
Definition interrupted (n : nat) (sm : sem) (fmt : string) (lbl : string) : list event :=
  concat (replicate n [ESemWait sm (OsFail EINTR); uTrace fmt [AStr lbl]]).

(** The thread identifiers [pthread_create] hands out for workers
    [0 .. n-1]. *)
Definition worker_ids (env : init_env) (n : Z) : list Z :=
  (λ i, (env_thread_create env i).2) <$> seqZ 0 n.

(** The calls that tear a scheduler with both buffers down, after the
    workers [ths] were started. *)
Definition teardown_calls (ths : list Z) : list event :=
  let live := filter (λ th, th ≠ 0) ths in
  (EThreadCancel <$> live) ++ (EThreadJoin <$> live)
  ++ [ESemDestroy EmptySem; ESemDestroy FullSem; EMutexDestroy;
      EFree BQueue; EFree BQthread; EFree BSched].

(** The failures [taosInitScheduler] detects. *)
Definition detected_failure (env : init_env) (W : Z) : Prop :=
  env_calloc_sched env = NULL
  ∨ env_calloc_queue env = false
  ∨ env_calloc_qthread env = false
  ∨ env_mutex_init env < 0
  ∨ env_sem_init_empty env ≠ 0
  ∨ env_sem_init_full env ≠ 0
  ∨ ∃ i, 0 ≤ i < W ∧ (env_thread_create env i).1 ≠ 0.

Definition is_tmr_stop (e : event) : bool :=
  match e with ETmrStop _ => true | _ => false end.

(** A worker that has read a record and has not cleared its slot yet
    (between lines 135 and 136). *)
Definition lag_clear (th : thread) : Z :=
  match th with
  | Producer _ => 0
  | Worker w => match w_pc w with WClear => 1 | _ => 0 end
  end.

(** The slots past the last record written, up to the first record not
    read yet, hold the zero record. *)
Definition slots_clean (st : system) : Prop :=
  ∀ q, queue (sched st) = Some q →
  ∀ i, count_enq st ≤ i
       < count_deq st - total lag_clear (threads st) + queueSize (sched st) →
       q !! Z.to_nat (i `mod` queueSize (sched st)) = Some zero_msg.

(** ** Concrete environments and objects *)

(** Calls that all succeed: the handle block at address 4096, worker
    [i] with thread identifier [100 + i]. *)
Definition env_ok : init_env := mkEnv 4096 true true 0 0 0 (λ i, (0, 100 + i)).

(** [pthread_mutex_init] fails with [ENOMEM], which is 12. *)
Definition env_mutex_fails : init_env := mkEnv 4096 true true 12 0 0 (λ i, (0, 100 + i)).

(** [calloc] of the slot buffer fails. *)
Definition env_queue_fails : init_env := mkEnv 4096 false true 0 0 0 (λ i, (0, 100 + i)).

(** The scheduler as [taosInitScheduler env_ok 2 1 "q"] leaves it. *)
Definition demo_sched : SSchedQueue :=
  mkSched "q" 2 0 None 0 0 2 1 (Some [100]) (Some [zero_msg; zero_msg]) NULL NULL.

(** Two tasks, one of each shape. *)
Definition demo_task1 : SSchedMsg := mkMsg 11 0 1 0 0.
Definition demo_task2 : SSchedMsg := mkMsg 0 22 2 5 6.

(** A scheduler with [demo_task1] in slot 0 and a timer registered. *)
Definition demo_loaded : SSchedQueue :=
  mkSched "q" 1 1 None 0 1 2 1 (Some [100]) (Some [demo_task1; zero_msg]) 55 77.

(** One producer with two tasks to submit and two workers. *)
Definition demo_threads : list thread :=
  [Producer (mkProducer 4096 PCheck [demo_task1; demo_task2] []);
   Worker (mkWorker WWaitFull zero_msg);
   Worker (mkWorker WWaitFull zero_msg)].

Definition demo_system : system := mkSys demo_sched demo_threads [].

(** Worker 1 is interrupted in its wait; the producer submits the first
    task; worker 1 takes the lock while the producer starts its second
    call; worker 1 finishes, the producer finishes, worker 2 dequeues. *)
Definition demo_schedule : list (nat * oscall) :=
  [(1%nat, OsFail EINTR)] ++ alone 0 8 ++ alone 1 2 ++ alone 0 2 ++ alone 1 6
  ++ alone 0 6 ++ alone 2 8.

Definition demo_final : system :=
  Eval vm_compute in
    match run demo_schedule demo_system with
    | Next st => st
    | _ => demo_system
    end.

(** [pthread_create] fails with [EAGAIN], which is 11, for the second
    worker. *)
Definition env_thread_fails : init_env :=
  mkEnv 4096 true true 0 0 0 (λ i, if bool_decide (i = 1) then (11, 0) else (0, 100 + i)).

(** What [taosInitScheduler env_ok 2 1 "q"] leaves in the log. *)
Definition demo_init_events : list event :=
  [ECalloc BSched true; ECalloc BQueue true; ECalloc BQthread true;
   EMutexInit 0; ESemInit EmptySem 2 0; ESemInit FullSem 0 0;
   EThreadCreate 0 0 100;
   uTrace "%s scheduler is initialized, numOfThreads:%d" [AStr "q"; AInt 1]].

(** [demo_system] after the producer's first call, and after its second. *)
Definition demo_half : system :=
  Eval vm_compute in
    match run (alone 0 8) demo_system with
    | Next st => st
    | _ => demo_system
    end.

Definition demo_full : system :=
  Eval vm_compute in
    match run (alone 0 16) demo_system with
    | Next st => st
    | _ => demo_system
    end.

(** Two producers with one task each and one worker.  The first
    producer is past its wait when the second makes its whole call, so
    the second task is written first; the worker then dequeues both. *)
Definition demo_pair_threads : list thread :=
  [Producer (mkProducer 4096 PCheck [demo_task1] []);
   Producer (mkProducer 4096 PCheck [demo_task2] []);
   Worker (mkWorker WWaitFull zero_msg)].

Definition demo_pair_system : system := mkSys demo_sched demo_pair_threads [].

Definition demo_pair_schedule : list (nat * oscall) :=
  alone 0 2 ++ alone 1 8 ++ alone 0 6 ++ alone 2 16.

Definition demo_pair_final : system :=
  Eval vm_compute in
    match run demo_pair_schedule demo_pair_system with
    | Next st => st
    | _ => demo_pair_system
    end.

(** A label longer than the 15 characters [label[16]] holds, and the
    scheduler [taosInitScheduler env_ok 2 1 demo_long_label] leaves. *)
Definition demo_long_label : string := "scheduler-of-the-demo".

Definition demo_long_sched : SSchedQueue := set_label "scheduler-of-th" demo_sched.

(** The results of the system calls of one call of [taosScheduleTask]
    whose wait is interrupted once: the test of the handle, the
    interrupted wait, then the wait, the lock, the write, the advance,
    the unlock, the post and the return. *)
Definition demo_results : list oscall :=
  OsOk :: replicate 1 (OsFail EINTR) ++ [OsOk; OsOk; OsOk; OsOk; OsOk; OsOk; OsOk].

(** A scheduler of capacity 1 with one worker and a producer with three
    tasks.  The producer submits the first, the worker dequeues it and
    is about to run its callback, the producer submits the second and
    starts on the third: the queue is full, the producer is at its wait
    and the worker has not come back to its own. *)
Definition demo_tight_threads : list thread :=
  [Producer (mkProducer 4096 PCheck [demo_task1; demo_task2; demo_task1] []);
   Worker (mkWorker WWaitFull zero_msg)].

Definition demo_tight_system : system :=
  mkSys (mkSched "q" 1 0 None 0 0 1 1 (Some [100]) (Some [zero_msg]) NULL NULL)
    demo_tight_threads [].

Definition demo_tight_schedule : list (nat * oscall) :=
  alone 0 8 ++ alone 1 7 ++ alone 0 9.

Definition demo_tight : system :=
  Eval vm_compute in
    match run demo_tight_schedule demo_tight_system with
    | Next st => st
    | _ => demo_tight_system
    end.

(** * Properties *)

(** ** Arithmetic *)

Lemma wrap32_id z : - 2 ^ 31 ≤ z < 2 ^ 31 → wrap32 z = z.
Proof.
  intros Hz. unfold wrap32.
  rewrite Z.mod_small by lia. lia.
Qed.

Lemma c_rem_nonneg a b : 0 ≤ a → 0 < b → c_rem a b = a `mod` b.
Proof. intros Ha Hb. unfold c_rem. apply Z.rem_mod_nonneg; lia. Qed.

Lemma cursor_advance k x Q :
  1 ≤ Q ≤ INT_MAX → x = k `mod` Q → c_rem (c_add x 1) Q = (k + 1) `mod` Q.
Proof.
  intros HQ ->. unfold INT_MAX in HQ.
  pose proof (Z.mod_pos_bound k Q ltac:(lia)) as Hb.
  unfold c_add. rewrite wrap32_id by lia.
  rewrite c_rem_nonneg by lia.
  rewrite Zplus_mod_idemp_l. reflexivity.
Qed.

Lemma mod_shift_neq a d Q : 0 < d < Q → (a + d) `mod` Q ≠ a `mod` Q.
Proof.
  intros Hd Heq.
  assert (Hz : ((a + d) - a) `mod` Q = 0).
  { rewrite Zminus_mod, Heq, Z.sub_diag. apply Z.mod_0_l. lia. }
  replace (a + d - a) with d in Hz by lia.
  rewrite Z.mod_small in Hz by lia. lia.
Qed.

Lemma mod_slots_distinct i j Q : 0 < Q → i < j < i + Q → i `mod` Q ≠ j `mod` Q.
Proof.
  intros HQ Hij Heq. apply (mod_shift_neq i (j - i) Q); [lia|].
  replace (i + (j - i)) with j by lia. congruence.
Qed.

(** ** Sums over the threads *)

Lemma total_insert f (ths : list thread) i x y :
  ths !! i = Some x → total f (<[i := y]> ths) = total f ths - f x + f y.
Proof.
  revert i. induction ths as [|a l IH]; intros [|i] Hi; simplify_eq/=; [lia|].
  rewrite (IH i) by done. lia.
Qed.

Lemma total_nonneg f (ths : list thread) : (∀ th, 0 ≤ f th) → 0 ≤ total f ths.
Proof. intros Hf. induction ths as [|a l IH]; simpl; [lia|]. specialize (Hf a). lia. Qed.

Lemma total_ge f (ths : list thread) i x :
  (∀ th, 0 ≤ f th) → ths !! i = Some x → f x ≤ total f ths.
Proof.
  intros Hf. revert i. induction ths as [|a l IH]; intros [|i] Hi; simplify_eq/=.
  - pose proof (total_nonneg f l Hf). lia.
  - specialize (IH i Hi). specialize (Hf a). lia.
Qed.

Lemma total_only f (ths : list thread) i x :
  ths !! i = Some x →
  (∀ j y, ths !! j = Some y → j ≠ i → f y = 0) →
  total f ths = f x.
Proof.
  revert i. induction ths as [|a l IH]; intros [|i] Hi Hz; simplify_eq/=.
  - assert (Hl : total f l = 0).
    { clear IH. assert (Hz' : ∀ j y, l !! j = Some y → f y = 0).
      { intros j y Hj. apply (Hz (S j) y); [done|lia]. }
      clear Hz. induction l as [|b l IH]; simpl; [done|].
      rewrite (Hz' 0%nat b) by done. rewrite IH; [done|].
      intros j y Hj. apply (Hz' (S j) y). done. }
    lia.
  - assert (Ha : f a = 0) by (apply (Hz 0%nat a); [done|lia]).
    rewrite (IH i Hi); [lia|].
    intros j y Hj Hne. apply (Hz (S j) y); [done|lia].
Qed.

Lemma total_zero f (ths : list thread) :
  (∀ th, th ∈ ths → f th = 0) → total f ths = 0.
Proof.
  induction ths as [|a l IH]; intros Hz; simpl; [done|].
  rewrite (Hz a) by left. rewrite IH; [done|]. intros th Hth. apply Hz. by right.
Qed.

Lemma total_in_flight (ths : list thread) :
  total in_flight ths
  = total holds_empty ths + total wrote ths + total holds_full ths + total took ths.
Proof. induction ths as [|a l IH]; simpl; [done|]. unfold in_flight at 1. lia. Qed.

(** ** Events, slots and weights of a step *)

Lemma enqueued_app tr1 tr2 : enqueued (tr1 ++ tr2) = enqueued tr1 ++ enqueued tr2.
Proof. apply omap_app. Qed.

Lemma dequeued_app tr1 tr2 : dequeued (tr1 ++ tr2) = dequeued tr1 ++ dequeued tr2.
Proof. apply omap_app. Qed.

Lemma dispatch_enqueued tid m : enqueued ((λ e, (tid, e)) <$> dispatch m) = [].
Proof. unfold dispatch. repeat case_bool_decide; reflexivity. Qed.

Lemma dispatch_dequeued tid m : dequeued ((λ e, (tid, e)) <$> dispatch m) = [].
Proof. unfold dispatch. repeat case_bool_decide; reflexivity. Qed.

Lemma slot_write_spec {A} (a : list A) i x a' :
  slot_write a i x = Some a' →
  0 ≤ i < Z.of_nat (length a) ∧ a' = <[Z.to_nat i := x]> a.
Proof. unfold slot_write. case_bool_decide; intros; simplify_eq. done. Qed.

Lemma slot_read_spec {A} (a : list A) i x :
  slot_read a i = Some x → 0 ≤ i ∧ a !! Z.to_nat i = Some x.
Proof. unfold slot_read. case_bool_decide; intros; simplify_eq. done. Qed.

Lemma holds_empty_nonneg th : 0 ≤ holds_empty th.
Proof. destruct th as [[? [] ? ?]|[[] ?]]; simpl; lia. Qed.

Lemma wrote_nonneg th : 0 ≤ wrote th.
Proof. destruct th as [[? [] ? ?]|[[] ?]]; simpl; lia. Qed.

Lemma holds_full_nonneg th : 0 ≤ holds_full th.
Proof. destruct th as [[? [] ? ?]|[[] ?]]; simpl; lia. Qed.

Lemma took_nonneg th : 0 ≤ took th.
Proof. destruct th as [[? [] ? ?]|[[] ?]]; simpl; lia. Qed.

Lemma lag_empty_cs y : in_cs y = false → lag_empty y = 0.
Proof. destruct y as [[? [] ? ?]|[[] ?]]; simpl; congruence. Qed.

Lemma lag_full_cs y : in_cs y = false → lag_full y = 0.
Proof. destruct y as [[? [] ? ?]|[[] ?]]; simpl; congruence. Qed.

(** ** Mutual exclusion *)

Lemma mutex_excl st tid th :
  queue_inv st → threads st !! tid = Some th → queueMutex (sched st) = Some tid →
  ∀ j y, threads st !! j = Some y → j ≠ tid → in_cs y = false.
Proof.
  intros Hinv Hth Hm j y Hj Hne.
  destruct (in_cs y) eqn:Hcs; [|done].
  pose proof (inv_mutex st Hinv j y Hj Hcs). congruence.
Qed.

Lemma total_cs f (ths : list thread) tid th :
  (∀ y, in_cs y = false → f y = 0) →
  ths !! tid = Some th →
  (∀ j y, ths !! j = Some y → j ≠ tid → in_cs y = false) →
  total f ths = f th.
Proof.
  intros Hf Hth Hex. apply (total_only f ths tid th Hth).
  intros j y Hj Hne. apply Hf. eauto.
Qed.

Lemma mutex_step (ths : list thread) tid th th' (M M' : option nat) :
  ths !! tid = Some th →
  (∀ t x, ths !! t = Some x → in_cs x = true → M = Some t) →
  (in_cs th' = true → M' = Some tid) →
  (M' = M ∨ (∀ t, t ≠ tid → M ≠ Some t)) →
  ∀ t x, <[tid := th']> ths !! t = Some x → in_cs x = true → M' = Some t.
Proof.
  intros Hth Hmx Hme Hoth t x Hx Hcs.
  destruct (decide (t = tid)) as [->|Hne].
  - rewrite list_lookup_insert_eq in Hx by (eapply lookup_lt_Some; eauto).
    simplify_eq. auto.
  - rewrite list_lookup_insert_ne in Hx by done.
    pose proof (Hmx t x Hx Hcs) as HM.
    destruct Hoth as [->|Hoth]; [done|]. by destruct (Hoth t Hne).
Qed.

Lemma owner_step (ths : list thread) tid th th' (M M' : option nat) :
  ths !! tid = Some th →
  (∀ t, M = Some t → ∃ x, ths !! t = Some x ∧ in_cs x = true) →
  (M' = M ∧ in_cs th' = in_cs th) ∨ (M' = Some tid ∧ in_cs th' = true) ∨ M' = None →
  ∀ t, M' = Some t → ∃ x, <[tid := th']> ths !! t = Some x ∧ in_cs x = true.
Proof.
  intros Hth Hown Hcase t Ht.
  assert (Hlt : (tid < length ths)%nat) by (eapply lookup_lt_Some; eauto).
  destruct Hcase as [[-> Hcs]|[[-> Hcs]| ->]]; [| |done].
  - destruct (Hown t Ht) as (x & Hx & Hx').
    destruct (decide (t = tid)) as [->|Hne].
    + exists th'. rewrite list_lookup_insert_eq by done. split; [done|]. congruence.
    + exists x. by rewrite list_lookup_insert_ne.
  - simplify_eq. exists th'. by rewrite list_lookup_insert_eq.
Qed.

(** ** The invariant is kept by every step *)

(** The sums after thread [tid] has moved. *)
Ltac totals Hth :=
  repeat rewrite (total_insert _ _ _ _ _ Hth);
  cbn [holds_empty wrote holds_full took lag_empty lag_full p_pc w_pc].

(** The counts of writes and reads after the events of the step. *)
Ltac norm_counts :=
  rewrite ?enqueued_app, ?dequeued_app, ?dispatch_enqueued, ?dispatch_dequeued,
    ?length_app, ?app_nil_r;
  cbn [enqueued dequeued omap length snd fst fmap list_fmap];
  rewrite ?Nat.add_0_r, ?Nat2Z.inj_add.

(** Guards of the step function, as propositions. *)
Ltac guards :=
  repeat match goal with
  | H : bool_decide _ = true |- _ => apply bool_decide_eq_true in H
  | H : bool_decide _ = false |- _ => apply bool_decide_eq_false in H
  end.

(** The clauses of the invariant that need no more than the clause
    before the step. *)
Ltac finish Hth Hme Hec Hfc :=
  constructor; unfold count_enq, count_deq in *; cbn [sched threads trace] in *;
  norm_counts; simpl; totals Hth; try lia; try done;
  try (eapply mutex_step; eauto; simpl; try done; auto; fail);
  try (eapply mutex_step; eauto; simpl; [done|]; right; intros ? ?; rewrite Hme; congruence);
  try (eapply owner_step;
       [eassumption|eassumption|
        simpl; first [by left | by (right; left) | by (right; right)]]);
  try (eexists; split; [eassumption|]; split; [done|]; done);
  try (rewrite Hec; f_equal; lia);
  try (rewrite Hfc; f_equal; lia);
  try (erewrite cursor_advance; [|done|eassumption]; f_equal; lia).

Lemma step_inv st tid o th st' :
  queue_inv st →
  threads st !! tid = Some th →
  os_normal th o = true →
  sys_step tid o st = Next st' →
  queue_inv st'.
Proof.
  intros Hinv Hth Hn Hstep.
  unfold sys_step in Hstep. rewrite Hth in Hstep.
  pose proof (mutex_excl st tid th Hinv Hth) as Hex.
  destruct Hinv as [Hsz (q & Hq & Hlen & Hring) Hmx Hown Hec Hfc Hfifo [Hes Hfs] Hfree Hused].
  pose proof (Hmx tid th Hth) as Hme.
  pose proof (total_nonneg holds_empty (threads st) holds_empty_nonneg) as Hhe.
  pose proof (total_nonneg wrote (threads st) wrote_nonneg) as Hwr.
  pose proof (total_nonneg holds_full (threads st) holds_full_nonneg) as Hhf.
  pose proof (total_nonneg took (threads st) took_nonneg) as Htk.
  pose proof (total_ge holds_empty (threads st) tid th holds_empty_nonneg Hth) as Hhe1.
  pose proof (total_ge holds_full (threads st) tid th holds_full_nonneg Hth) as Hhf1.
  pose proof (total_ge took (threads st) tid th took_nonneg Hth) as Htk1.
  unfold count_enq, count_deq in *.
  destruct th as [[hd pc todo rets]|[pc m]]; simpl in Hstep.
  - destruct todo as [|pMsg rest]; [done|].
    destruct pc; simpl in Hstep.
    all: repeat case_match; simplify_eq/=.
    all: try (unfold os_normal in Hn; simpl in Hn; repeat case_bool_decide; simplify_eq/=; try done).
    all: guards.
    all: try specialize (Hme eq_refl); try specialize (Hex Hme).
    all: finish Hth Hme Hec Hfc.
    + (* PWrite: the ring *)
      match goal with H : slot_write _ _ _ = Some _ |- _ =>
        apply slot_write_spec in H as [Hi ->] end.
      rewrite (total_cs lag_empty _ _ _ lag_empty_cs Hth Hex) in Hec. simpl in Hec.
      rewrite Z.sub_0_r in Hec.
      eexists; split; [done|]. split; [by rewrite length_insert|].
      intros i Hi'.
      destruct (decide (i = Z.of_nat (length (enqueued (trace st))))) as [->|Hne].
      * rewrite <- Hec. rewrite list_lookup_insert_eq by lia.
        rewrite Nat2Z.id. by rewrite list_lookup_middle.
      * rewrite list_lookup_insert_ne.
        2:{ rewrite Hec. intros Heq. apply Z2Nat.inj in Heq.
            - revert Heq. apply not_eq_sym, mod_slots_distinct; lia.
            - apply Z.mod_pos_bound; lia.
            - apply Z.mod_pos_bound; lia. }
        rewrite Hring by lia. rewrite lookup_app_l; [done|]. lia.
    + (* PWrite: the reads so far *)
      rewrite take_app_le by lia. done.
  - destruct pc; simpl in Hstep.
    all: repeat case_match; simplify_eq/=.
    all: try (unfold os_normal in Hn; simpl in Hn; repeat case_bool_decide; simplify_eq/=; try done).
    all: guards.
    all: try specialize (Hme eq_refl); try specialize (Hex Hme).
    all: finish Hth Hme Hec Hfc.
    + (* WRead: the ring *)
      eexists; split; [done|]. split; [done|]. intros i Hi. apply Hring. lia.
    + (* WRead: the value read is the oldest one not read yet *)
      match goal with H : slot_read _ _ = Some _ |- _ =>
        apply slot_read_spec in H as [Hi Hrd] end.
      rewrite (total_cs lag_full _ _ _ lag_full_cs Hth Hex) in Hfc. simpl in Hfc.
      rewrite Z.sub_0_r in Hfc. rewrite Hfc in Hrd.
      rewrite Hring in Hrd by lia. rewrite Nat2Z.id in Hrd.
      rewrite Nat.add_1_r. rewrite (take_S_r _ _ _ Hrd). by rewrite <- Hfifo.
    + (* WClear: the ring *)
      match goal with H : slot_write _ _ _ = Some _ |- _ =>
        apply slot_write_spec in H as [Hi ->] end.
      rewrite (total_cs lag_full _ _ _ lag_full_cs Hth Hex) in Hfc. simpl in Hfc.
      eexists; split; [done|]. split; [by rewrite length_insert|].
      intros i Hi'.
      rewrite list_lookup_insert_ne; [by apply Hring|].
      rewrite Hfc. intros Heq. apply Z2Nat.inj in Heq.
      * revert Heq. apply mod_slots_distinct; lia.
      * apply Z.mod_pos_bound; lia.
      * apply Z.mod_pos_bound; lia.
Qed.

(** ** A freshly constructed scheduler *)

Lemma create_workers_same env lbl idx s s' ev ok :
  create_workers env lbl idx s = (s', ev, ok) → same_queue s s'.
Proof.
  revert s s' ev ok. induction idx as [|i idx IH]; intros s s' ev ok H; simpl in H.
  - simplify_eq. by repeat split.
  - destruct (env_thread_create env i) as [code th].
    case_bool_decide; [simplify_eq; by repeat split|].
    destruct (create_workers _ _ _ _) as [[s2 ev2] ok2] eqn:Hrec.
    simplify_eq. apply IH in Hrec. unfold same_queue in *. simpl in Hrec. done.
Qed.

Lemma init_abort_null p s h ev r : init_abort p s h ev = Some r → r.1.1 = NULL.
Proof.
  unfold init_abort. destruct (taosCleanUpScheduler _ _) as [[h' ev']|]; intros; by simplify_eq.
Qed.

Lemma init_success env Q W lbl h p h' ev :
  taosInitScheduler env Q W lbl h = Some (p, h', ev) →
  p ≠ NULL →
  ∃ s, h' !! p = Some s
       ∧ queueSize s = Q
       ∧ queue s = Some (replicate (Z.to_nat Q) zero_msg)
       ∧ emptySem s = Q `mod` 2 ^ 32
       ∧ fullSem s = 0
       ∧ fullSlot s = 0 ∧ emptySlot s = 0
       ∧ queueMutex s = None
       ∧ pTimer s = NULL.
Proof.
  intros H Hp. unfold taosInitScheduler in H.
  repeat (case_bool_decide || case_match);
    try (apply init_abort_null in H; simpl in H; congruence);
    simplify_eq.
  match goal with
  | Hcw : create_workers _ _ _ _ = _ |- _ =>
      apply create_workers_same in Hcw; unfold same_queue in Hcw; simpl in Hcw;
      destruct Hcw as (_ & ? & ? & ? & ? & ? & ? & ? & _ & ?)
  end.
  exists s. rewrite lookup_insert_eq. done.
Qed.

Lemma fresh_system_inv env Q W lbl ths st0 :
  1 ≤ Q ≤ INT_MAX →
  fresh_system env Q W lbl ths = Some st0 →
  queue_inv st0 ∧ queueSize (sched st0) = Q ∧ emptySem (sched st0) = Q
  ∧ fullSem (sched st0) = 0 ∧ threads st0 = ths ∧ trace st0 = []
  ∧ forallb initial_thread ths = true.
Proof.
  intros HQ H. unfold fresh_system in H.
  destruct (taosInitScheduler _ _ _ _ _) as [[[p h] ev]|] eqn:Hinit; [|done].
  case_bool_decide as Hp; [done|].
  destruct (init_success _ _ _ _ _ _ _ _ Hinit Hp)
    as (s & Hs & HsQ & Hq & Hes & Hfs & Hf & He & Hm & _).
  rewrite Hs in H. destruct (forallb initial_thread ths) eqn:Hths; [|done].
  simplify_eq. unfold INT_MAX in HQ.
  rewrite Z.mod_small in Hes by lia.
  assert (Hz : ∀ f, (∀ y, initial_thread y = true → f y = 0) → total f ths = 0).
  { intros f Hf0. apply total_zero. intros th Hth. apply Hf0.
    rewrite forallb_forall in Hths. apply Hths. by apply list_elem_of_In. }
  assert (Hhe : total holds_empty ths = 0).
  { apply Hz. intros [[? [] ? ?]|[[] ?]]; simpl; by (try done). }
  assert (Hwr : total wrote ths = 0).
  { apply Hz. intros [[? [] ? ?]|[[] ?]]; simpl; by (try done). }
  assert (Hhf : total holds_full ths = 0).
  { apply Hz. intros [[? [] ? ?]|[[] ?]]; simpl; by (try done). }
  assert (Htk : total took ths = 0).
  { apply Hz. intros [[? [] ? ?]|[[] ?]]; simpl; by (try done). }
  assert (Hle : total lag_empty ths = 0).
  { apply Hz. intros [[? [] ? ?]|[[] ?]]; simpl; by (try done). }
  assert (Hlf : total lag_full ths = 0).
  { apply Hz. intros [[? [] ? ?]|[[] ?]]; simpl; by (try done). }
  split; [|done].
  constructor; unfold count_enq, count_deq; simpl; rewrite ?HsQ, ?Hhe, ?Hwr, ?Hhf, ?Htk, ?Hle, ?Hlf;
    try (unfold INT_MAX; lia); try done.
  - eexists; split; [done|]. split; [rewrite length_replicate; lia|]. intros i Hi. lia.
  - intros t th Hth Hcs. exfalso.
    rewrite forallb_forall in Hths.
    assert (Hit : initial_thread th = true).
    { apply Hths. apply list_elem_of_In. eapply list_elem_of_lookup_2. eauto. }
    destruct th as [[? [] ? ?]|[[] ?]]; simpl in *; done.
  - intros t Ht. congruence.
Qed.

Lemma run_inv sch st st' :
  queue_inv st → normal_schedule sch st = true → run sch st = Next st' → queue_inv st'.
Proof.
  revert st. induction sch as [|[tid o] sch IH]; intros st Hinv Hn Hrun; simpl in *.
  - by simplify_eq.
  - destruct (threads st !! tid) as [th|] eqn:Hth.
    2:{ unfold sys_step in Hrun. by rewrite Hth in Hrun. }
    apply andb_true_iff in Hn as [Hos Hn].
    destruct (sys_step tid o st) as [st1| |] eqn:Hstep; [|done..].
    apply (IH st1); [|done..]. by eapply step_inv.
Qed.

Lemma quiescent_totals st f :
  quiescent st = true → (∀ y, idle y = true → f y = 0) → total f (threads st) = 0.
Proof.
  intros Hq Hf. apply total_zero. intros th Hth. apply Hf.
  unfold quiescent in Hq. rewrite forallb_forall in Hq. apply Hq. by apply list_elem_of_In.
Qed.

Lemma quiescent_sems st :
  queue_inv st → quiescent st = true →
  emptySem (sched st) + fullSem (sched st) = queueSize (sched st)
  ∧ fullSem (sched st) = count_enq st - count_deq st
  ∧ occupied (sched st) = fullSem (sched st) `mod` queueSize (sched st).
Proof.
  intros Hinv Hq.
  destruct Hinv as [Hsz _ _ _ Hec Hfc _ _ Hfree Hused].
  rewrite (quiescent_totals st holds_empty Hq) in Hfree
    by (intros [[? [] ? ?]|[[] ?]]; simpl; by (try done)).
  rewrite (quiescent_totals st took Hq) in Hfree
    by (intros [[? [] ? ?]|[[] ?]]; simpl; by (try done)).
  rewrite (quiescent_totals st wrote Hq) in Hused
    by (intros [[? [] ? ?]|[[] ?]]; simpl; by (try done)).
  rewrite (quiescent_totals st holds_full Hq) in Hused
    by (intros [[? [] ? ?]|[[] ?]]; simpl; by (try done)).
  rewrite (quiescent_totals st lag_empty Hq) in Hec
    by (intros [[? [] ? ?]|[[] ?]]; simpl; by (try done)).
  rewrite (quiescent_totals st lag_full Hq) in Hfc
    by (intros [[? [] ? ?]|[[] ?]]; simpl; by (try done)).
  split; [lia|]. split; [lia|].
  unfold occupied. rewrite Hec, Hfc, !Z.sub_0_r.
  rewrite <- (Z.add_mod_idemp_r _ (queueSize (sched st))) by lia.
  rewrite Z.mod_same, Z.add_0_r by lia.
  rewrite <- Zminus_mod. f_equal. lia.
Qed.

Lemma run_queueSize sch st st' :
  run sch st = Next st' → queueSize (sched st') = queueSize (sched st).
Proof.
  revert st. induction sch as [|[tid o] sch IH]; intros st Hrun; simpl in *.
  - by simplify_eq.
  - destruct (sys_step tid o st) as [st1| |] eqn:Hstep; [|done..].
    rewrite (IH st1 Hrun). clear IH Hrun.
    unfold sys_step in Hstep. destruct (threads st !! tid) as [th|]; [|done].
    destruct th as [[hd pc [|pMsg rest] rets]|[pc m]]; simpl in Hstep; [done| |].
    + destruct pc; simpl in Hstep; repeat case_match; by simplify_eq/=.
    + destruct pc; simpl in Hstep; repeat case_match; by simplify_eq/=.
Qed.

Lemma worker_writes_nothing me o pc m s s' pc' m' ev tid :
  taosProcessSchedQueue me o pc m s = Next (s', pc', m', ev) →
  enqueued ((λ e, (tid, e)) <$> ev) = [].
Proof.
  intros H. destruct pc; simpl in H; repeat case_match; simplify_eq/=; try done.
  apply dispatch_enqueued.
Qed.

Lemma single_producer_step ts st tid o st' :
  single_producer ts st → sys_step tid o st = Next st' → single_producer ts st'.
Proof.
  intros (p & ws & Hths & Hws & Hhd & Henq) Hstep.
  unfold sys_step in Hstep. rewrite Hths in Hstep.
  destruct tid as [|tid]; simpl in Hstep.
  - destruct p as [hd pc todo rets]. simpl in *.
    destruct todo as [|pMsg rest]; [done|].
    destruct pc; simpl in Hstep; repeat (case_bool_decide || case_match); simplify_eq/=;
      (eexists _, ws; simpl; split; [done|]; split; [done|];
       split; [done|]; rewrite enqueued_app; simpl; rewrite ?app_nil_r; try done).
    unfold unwritten; simpl. by rewrite <- app_assoc.
  - destruct (ws !! tid) as [th|] eqn:Hth; [|done].
    assert (Hw : is_worker th = true).
    { rewrite forallb_forall in Hws. apply Hws. apply list_elem_of_In.
      eapply list_elem_of_lookup_2; eauto. }
    destruct th as [?|[pc m]]; [done|]. simpl in Hstep.
    destruct (taosProcessSchedQueue _ _ _ _ _) as [[[[s' pc'] m'] ev]| |] eqn:Hw'; [|done..].
    simplify_eq. exists p, (<[tid := Worker (mkWorker pc' m')]> ws).
    simpl. split; [done|]. split.
    + rewrite forallb_forall in Hws |- *. intros x Hx.
      apply list_elem_of_In, list_elem_of_lookup in Hx as [j Hj].
      destruct (decide (j = tid)) as [->|Hne].
      * rewrite list_lookup_insert_eq in Hj by (eapply lookup_lt_Some; eauto). by simplify_eq.
      * rewrite list_lookup_insert_ne in Hj by done.
        apply Hws, list_elem_of_In. eapply list_elem_of_lookup_2; eauto.
    + split; [done|]. rewrite enqueued_app.
      rewrite (worker_writes_nothing _ _ _ _ _ _ _ _ _ (S tid) Hw'). by rewrite app_nil_r.
Qed.

Lemma single_producer_run ts sch st st' :
  single_producer ts st → run sch st = Next st' → single_producer ts st'.
Proof.
  revert st. induction sch as [|[tid o] sch IH]; intros st Hsp Hrun; simpl in *.
  - by simplify_eq.
  - destruct (sys_step tid o st) as [st1| |] eqn:Hstep; [|done..].
    apply (IH st1); [|done]. by eapply single_producer_step.
Qed.

Lemma single_producer_prefix ts st :
  queue_inv st → single_producer ts st →
  dequeued (trace st) = take (length (dequeued (trace st))) ts.
Proof.
  intros Hinv (p & ws & _ & _ & _ & Henq).
  pose proof (inv_fifo st Hinv) as Hfifo.
  assert (Hle : (length (dequeued (trace st)) ≤ length (enqueued (trace st)))%nat).
  { rewrite Hfifo at 1. rewrite length_take. lia. }
  rewrite Hfifo at 1. rewrite <- Henq. by rewrite take_app_le.
Qed.

(** ** One call and one iteration, step by step *)

#[local] Arguments c_rem : simpl never.
#[local] Arguments c_add : simpl never.
#[local] Arguments c_sub : simpl never.
#[local] Arguments slot_read : simpl never.
#[local] Arguments slot_write : simpl never.

Lemma slot_write_in {A} (a : list A) i x :
  0 ≤ i < Z.of_nat (length a) → slot_write a i x = Some (<[Z.to_nat i := x]> a).
Proof. intros Hi. unfold slot_write. by rewrite bool_decide_eq_true_2. Qed.

Lemma slot_read_in {A} (a : list A) i x :
  0 ≤ i → a !! Z.to_nat i = Some x → slot_read a i = Some x.
Proof. intros Hi Hx. unfold slot_read. by rewrite bool_decide_eq_true_2. Qed.

Lemma advance_in_range x Q :
  1 ≤ Q ≤ INT_MAX → 0 ≤ x < Q → c_rem (c_add x 1) Q = (x + 1) `mod` Q.
Proof.
  intros HQ Hx. apply cursor_advance; [done|]. by rewrite Z.mod_small.
Qed.

(** One iteration of the worker loop, run alone with every call succeeding. *)
Lemma exec_worker_iteration me m0 s q x :
  0 < fullSem s →
  queueMutex s = None →
  queue s = Some q →
  Z.of_nat (length q) = queueSize s →
  1 ≤ queueSize s ≤ INT_MAX →
  0 ≤ fullSlot s < queueSize s →
  q !! Z.to_nat (fullSlot s) = Some x →
  let f' := (fullSlot s + 1) `mod` queueSize s in
  let s' := mkSched (label s) (emptySem s + 1) (fullSem s - 1) None f' (emptySlot s)
              (queueSize s) (numOfThreads s) (qthread s)
              (Some (<[Z.to_nat (fullSlot s) := zero_msg]> q)) (pTmrCtrl s) (pTimer s) in
  let before := [ESemWait FullSem OsOk; ELock OsOk; ERead (fullSlot s) x;
                 EClear (fullSlot s); ESetFullSlot f'; EUnlock OsOk;
                 ESemPost EmptySem OsOk] in
  exec_worker me (replicate 7 OsOk) WWaitFull m0 s = Next (s', WDispatch, x, before)
  ∧ exec_worker me (replicate 8 OsOk) WWaitFull m0 s
    = Next (s', WWaitFull, x, before ++ dispatch x).
Proof.
  intros Hfs Hmx Hq Hlen HQ Hf Hx f' s' before.
  assert (Hrd : slot_read q (fullSlot s) = Some x) by (apply slot_read_in; [lia|done]).
  assert (Hwr : slot_write q (fullSlot s) zero_msg
                = Some (<[Z.to_nat (fullSlot s) := zero_msg]> q))
    by (apply slot_write_in; lia).
  assert (Hadv : c_rem (c_add (fullSlot s) 1) (queueSize s) = f')
    by (by apply advance_in_range).
  assert (HQ0 : bool_decide (queueSize s = 0) = false) by (apply bool_decide_eq_false; lia).
  unfold before, s'. clear before s'.
  split;
    repeat (progress (simpl;
      rewrite ?(bool_decide_eq_true_2 _ Hfs), ?Hmx, ?Hq, ?Hrd, ?Hwr, ?HQ0, ?Hadv));
    rewrite ?app_nil_r; reflexivity.
Qed.

(** One call of [taosScheduleTask], run alone. *)
Lemma exec_task_call me qhandle pMsg s q :
  qhandle ≠ NULL →
  0 < emptySem s →
  queueMutex s = None →
  queue s = Some q →
  Z.of_nat (length q) = queueSize s →
  1 ≤ queueSize s ≤ INT_MAX →
  0 ≤ emptySlot s < queueSize s →
  let e' := (emptySlot s + 1) `mod` queueSize s in
  let s' := mkSched (label s) (emptySem s - 1) (fullSem s + 1) None (fullSlot s) e'
              (queueSize s) (numOfThreads s) (qthread s)
              (Some (<[Z.to_nat (emptySlot s) := pMsg]> q)) (pTmrCtrl s) (pTimer s) in
  exec_task me (replicate 8 OsOk) qhandle pMsg PCheck s
  = Next (s', Return 0,
          [ESemWait EmptySem OsOk; ELock OsOk; EWrite (emptySlot s) pMsg;
           ESetEmptySlot e'; EUnlock OsOk; ESemPost FullSem OsOk; EReturn 0])
  ∧ exec_task me (replicate 7 OsOk) qhandle pMsg PCheck s
    = Next (s', Goto PReturn,
            [ESemWait EmptySem OsOk; ELock OsOk; EWrite (emptySlot s) pMsg;
             ESetEmptySlot e'; EUnlock OsOk; ESemPost FullSem OsOk])
  ∧ ∀ os, length os = 6%nat →
      ∃ s2 ev, exec_task me os qhandle pMsg PLock (set_emptySem (emptySem s - 1) s)
               = Next (s2, Return 0, ev).
Proof.
  intros Hh Hes Hmx Hq Hlen HQ He e' s'.
  assert (Hwr : slot_write q (emptySlot s) pMsg
                = Some (<[Z.to_nat (emptySlot s) := pMsg]> q))
    by (apply slot_write_in; lia).
  assert (Hadv : c_rem (c_add (emptySlot s) 1) (queueSize s) = e')
    by (by apply advance_in_range).
  assert (HQ0 : bool_decide (queueSize s = 0) = false) by (apply bool_decide_eq_false; lia).
  assert (Hnn : bool_decide (qhandle = NULL) = false) by (by apply bool_decide_eq_false).
  unfold s'. clear s'. split; [|split].
  - repeat (progress (simpl;
      rewrite ?Hnn, ?(bool_decide_eq_true_2 _ Hes), ?Hmx, ?Hq, ?Hwr, ?HQ0, ?Hadv));
    reflexivity.
  - repeat (progress (simpl;
      rewrite ?Hnn, ?(bool_decide_eq_true_2 _ Hes), ?Hmx, ?Hq, ?Hwr, ?HQ0, ?Hadv));
    reflexivity.
  - intros os Hos.
    destruct os as [|o1 [|o2 [|o3 [|o4 [|o5 [|o6 [|? ?]]]]]]]; simpl in Hos; try lia.
    destruct o1, o4, o5;
      repeat (progress (simpl; rewrite ?Hmx, ?Hq, ?Hwr, ?HQ0, ?Hadv)); eauto.
Qed.

(** The statement that runs the callback is entered from the post of
    [emptySem] only, and it is the only statement that invokes a
    callback; this holds in every state, hence in every interleaving. *)
Lemma callback_after_post me o pc m s0 s1 pc' m' ev :
  taosProcessSchedQueue me o pc m s0 = Next (s1, pc', m', ev) →
  (pc' = WDispatch → pc = WPostEmpty ∧ ESemPost EmptySem o ∈ ev)
  ∧ (existsb is_callback ev = true → pc = WDispatch).
Proof.
  intros H.
  destruct pc; simpl in H; repeat (case_bool_decide || case_match); simplify_eq;
    (split;
       [intros ?; first [done | split; [done|apply elem_of_cons; by left]]
       |simpl; intros ?; done]).
Qed.

(** C3. Dequeue step.  One iteration of the worker loop that acquires
    [fullSem] and the lock reads the record at [fullSlot], clears that
    slot, advances [fullSlot] to [(fullSlot + 1) mod Q], releases the
    lock and posts [emptySem]; all of that has happened when the worker
    reaches the callback, which runs last.  In any state, the callback
    statement is entered from the post of [emptySem] only, and no other
    statement invokes a callback. *)
Theorem dequeue_step_contract me m0 s q x :
  0 < fullSem s →
  queueMutex s = None →
  queue s = Some q →
  Z.of_nat (length q) = queueSize s →
  1 ≤ queueSize s ≤ INT_MAX →
  0 ≤ fullSlot s < queueSize s →
  q !! Z.to_nat (fullSlot s) = Some x →
  let f' := (fullSlot s + 1) `mod` queueSize s in
  let s' := mkSched (label s) (emptySem s + 1) (fullSem s - 1) None f' (emptySlot s)
              (queueSize s) (numOfThreads s) (qthread s)
              (Some (<[Z.to_nat (fullSlot s) := zero_msg]> q)) (pTmrCtrl s) (pTimer s) in
  let before := [ESemWait FullSem OsOk; ELock OsOk; ERead (fullSlot s) x;
                 EClear (fullSlot s); ESetFullSlot f'; EUnlock OsOk;
                 ESemPost EmptySem OsOk] in
  exec_worker me (replicate 7 OsOk) WWaitFull m0 s = Next (s', WDispatch, x, before)
  ∧ exec_worker me (replicate 8 OsOk) WWaitFull m0 s
    = Next (s', WWaitFull, x, before ++ dispatch x)
  ∧ (∀ o pc m s0 s1 pc' m' ev,
       taosProcessSchedQueue me o pc m s0 = Next (s1, pc', m', ev) →
       (pc' = WDispatch → pc = WPostEmpty ∧ ESemPost EmptySem o ∈ ev)
       ∧ (existsb is_callback ev = true → pc = WDispatch)).
Proof.
  intros Hfs Hmx Hq Hlen HQ Hf Hx f' s' before.
  destruct (exec_worker_iteration me m0 s q x Hfs Hmx Hq Hlen HQ Hf Hx) as [H7 H8].
  split; [exact H7|]. split; [exact H8|].
  intros o pc m s0 s1 pc' m' ev. apply callback_after_post.
Qed.

Lemma dequeue_step_contract_witness :
  exec_worker 1 (replicate 7 OsOk) WWaitFull zero_msg demo_loaded
  = Next (mkSched "q" 2 0 None 1 1 2 1 (Some [100]) (Some [zero_msg; zero_msg]) 55 77,
          WDispatch, demo_task1,
          [ESemWait FullSem OsOk; ELock OsOk; ERead 0 demo_task1; EClear 0;
           ESetFullSlot 1; EUnlock OsOk; ESemPost EmptySem OsOk])
  ∧ exec_worker 1 (replicate 8 OsOk) WWaitFull zero_msg demo_loaded
    = Next (mkSched "q" 2 0 None 1 1 2 1 (Some [100]) (Some [zero_msg; zero_msg]) 55 77,
            WWaitFull, demo_task1,
            [ESemWait FullSem OsOk; ELock OsOk; ERead 0 demo_task1; EClear 0;
             ESetFullSlot 1; EUnlock OsOk; ESemPost EmptySem OsOk;
             ECallFp 11 demo_task1]).
Proof.
  destruct (dequeue_step_contract 1 zero_msg demo_loaded [demo_task1; zero_msg] demo_task1)
    as (H7 & H8 & _); [done || (unfold INT_MAX; simpl; lia)..|].
  split; [exact H7|exact H8].
Defined.

(** C4. Enqueue step.  A call on a non-null handle that acquires
    [emptySem] takes the lock, copies the record into slot [emptySlot],
    advances [emptySlot] to [(emptySlot + 1) mod Q], releases the lock,
    posts [fullSem] and returns 0; past the wait it returns 0 whatever
    the later system calls report. *)
Theorem enqueue_step_contract me qhandle pMsg s q :
  qhandle ≠ NULL →
  0 < emptySem s →
  queueMutex s = None →
  queue s = Some q →
  Z.of_nat (length q) = queueSize s →
  1 ≤ queueSize s ≤ INT_MAX →
  0 ≤ emptySlot s < queueSize s →
  let e' := (emptySlot s + 1) `mod` queueSize s in
  let s' := mkSched (label s) (emptySem s - 1) (fullSem s + 1) None (fullSlot s) e'
              (queueSize s) (numOfThreads s) (qthread s)
              (Some (<[Z.to_nat (emptySlot s) := pMsg]> q)) (pTmrCtrl s) (pTimer s) in
  exec_task me (replicate 8 OsOk) qhandle pMsg PCheck s
  = Next (s', Return 0,
          [ESemWait EmptySem OsOk; ELock OsOk; EWrite (emptySlot s) pMsg;
           ESetEmptySlot e'; EUnlock OsOk; ESemPost FullSem OsOk; EReturn 0])
  ∧ exec_task me (replicate 7 OsOk) qhandle pMsg PCheck s
    = Next (s', Goto PReturn,
            [ESemWait EmptySem OsOk; ELock OsOk; EWrite (emptySlot s) pMsg;
             ESetEmptySlot e'; EUnlock OsOk; ESemPost FullSem OsOk])
  ∧ ∀ os, length os = 6%nat →
      ∃ s2 ev, exec_task me os qhandle pMsg PLock (set_emptySem (emptySem s - 1) s)
               = Next (s2, Return 0, ev).
Proof. apply exec_task_call. Qed.

Lemma enqueue_step_contract_witness :
  exec_task 0 (replicate 8 OsOk) 4096 demo_task1 PCheck demo_sched
  = Next (mkSched "q" 1 1 None 0 1 2 1 (Some [100]) (Some [demo_task1; zero_msg]) 0 0,
          Return 0,
          [ESemWait EmptySem OsOk; ELock OsOk; EWrite 0 demo_task1;
           ESetEmptySlot 1; EUnlock OsOk; ESemPost FullSem OsOk; EReturn 0]).
Proof.
  apply (enqueue_step_contract 0 4096 demo_task1 demo_sched [zero_msg; zero_msg]);
    (done || (unfold INT_MAX; simpl; lia)).
Defined.

(** ** The return value of [taosScheduleTask] *)

Lemma exec_task_zero me os qhandle pMsg pc s s' v ev :
  exec_task me os qhandle pMsg pc s = Next (s', Return v, ev) → v = 0.
Proof.
  revert pc s ev. induction os as [|o os IH]; intros pc s ev H; simpl in H; [done|].
  destruct (taosScheduleTask me o qhandle pMsg pc s) as [[[s1 [pc1|v1]] ev1]| |] eqn:Hs;
    [| |done..].
  - destruct (exec_task me os qhandle pMsg pc1 s1) as [[[s2 c2] ev2]| |] eqn:Hrec; [|done..].
    simplify_eq. eauto.
  - simplify_eq. destruct pc; simpl in Hs; repeat case_match; by simplify_eq.
Qed.

Lemma exec_task_null me o os pMsg s :
  exec_task me (o :: os) NULL pMsg PCheck s = Next (s, Return 0, [drop_report; EReturn 0]).
Proof. reflexivity. Qed.

Lemma step_no_drop me o qhandle pMsg pc s s' c ev :
  qhandle ≠ NULL →
  taosScheduleTask me o qhandle pMsg pc s = Next (s', c, ev) → drop_report ∉ ev.
Proof.
  intros Hh H.
  destruct pc; simpl in H; repeat (case_bool_decide || case_match); simplify_eq;
    unfold drop_report, uError, uTrace; intros Hin;
    repeat (apply elem_of_cons in Hin as [Hin|Hin]; [discriminate|]);
    by apply elem_of_nil in Hin.
Qed.

Lemma exec_task_no_drop me os qhandle pMsg pc s s' c ev :
  qhandle ≠ NULL →
  exec_task me os qhandle pMsg pc s = Next (s', c, ev) → drop_report ∉ ev.
Proof.
  intros Hh. revert pc s ev. induction os as [|o os IH]; intros pc s ev H; simpl in H.
  - simplify_eq. apply not_elem_of_nil.
  - destruct (taosScheduleTask me o qhandle pMsg pc s) as [[[s1 [pc1|v1]] ev1]| |] eqn:Hs;
      [| |done..].
    + destruct (exec_task me os qhandle pMsg pc1 s1) as [[[s2 c2] ev2]| |] eqn:Hrec; [|done..].
      simplify_eq. apply not_elem_of_app. split; [by eapply step_no_drop|by eapply IH].
    + simplify_eq. by eapply step_no_drop.
Qed.

Lemma exec_task_full_waits me os qhandle pMsg s :
  emptySem s ≤ 0 →
  forallb wait_normal os = true →
  returned (exec_task me os qhandle pMsg PWaitEmpty s) = None.
Proof.
  intros Hfull. induction os as [|o os IH]; intros Hos; simpl in *; [done|].
  apply andb_true_iff in Hos as [Ho Hos].
  destruct o as [|e]; simpl in *.
  - rewrite bool_decide_eq_false_2 by lia. done.
  - apply bool_decide_eq_true in Ho as ->. simpl.
    specialize (IH Hos).
    destruct (exec_task me os qhandle pMsg PWaitEmpty s) as [[[s2 [pc2|v2]] ev2]| |]; done.
Qed.

(** C5. Submission on an absent handle.  The call returns at its first
    statement, whatever the state of the queue: it touches nothing,
    leaves the report of the drop in the log and returns 0, the value a
    successful call returns as well.  A call on a non-null handle never
    reports a drop, and while the queue is full it does not return
    under normal operation; every call that returns, returns 0. *)
Theorem drop_only_on_absent_handle me pMsg s :
  (∀ o os, exec_task me (o :: os) NULL pMsg PCheck s
           = Next (s, Return 0, [drop_report; EReturn 0]))
  ∧ (∀ os qhandle pc s' c ev,
       qhandle ≠ NULL →
       exec_task me os qhandle pMsg pc s = Next (s', c, ev) → drop_report ∉ ev)
  ∧ (∀ o os qhandle,
       qhandle ≠ NULL → emptySem s ≤ 0 → forallb wait_normal os = true →
       returned (exec_task me (o :: os) qhandle pMsg PCheck s) = None)
  ∧ (∀ os qhandle pc s' v ev,
       exec_task me os qhandle pMsg pc s = Next (s', Return v, ev) → v = 0).
Proof.
  split; [intros; apply exec_task_null|].
  split; [intros; by eapply exec_task_no_drop|].
  split; [|intros; by eapply exec_task_zero].
  intros o os qhandle Hh Hfull Hos. simpl.
  rewrite (bool_decide_eq_false_2 _ Hh).
  pose proof (exec_task_full_waits me os qhandle pMsg s Hfull Hos) as Hw.
  destruct (exec_task me os qhandle pMsg PWaitEmpty s) as [[[s2 [pc2|v2]] ev2]| |]; done.
Qed.

Lemma drop_only_on_absent_handle_witness :
  (drop_report ∉ [ESemWait EmptySem OsOk; ELock OsOk; EWrite 0 demo_task1;
                  ESetEmptySlot 1; EUnlock OsOk; ESemPost FullSem OsOk; EReturn 0])
  ∧ returned (exec_task 0 [OsOk; OsFail EINTR; OsOk] 4096 demo_task1 PCheck
                (set_emptySem 0 demo_sched)) = None.
Proof.
  destruct (drop_only_on_absent_handle 0%nat demo_task1 demo_sched) as (_ & H2 & _).
  destruct (drop_only_on_absent_handle 0%nat demo_task1 (set_emptySem 0 demo_sched))
    as (_ & _ & H3 & _).
  split.
  - apply (H2 (replicate 8 OsOk) 4096 PCheck
             (mkSched "q" 1 1 None 0 1 2 1 (Some [100]) (Some [demo_task1; zero_msg]) 0 0)
             (Return 0)); [done|by vm_compute].
  - apply H3; [done|simpl; lia|by vm_compute].
Defined.

(** The value returned for a dropped record is the value returned for an
    enqueued one. *)
Lemma drop_indicator_counterexample :
  exec_task 0 (replicate 8 OsOk) NULL demo_task1 PCheck demo_sched
  = Next (demo_sched, Return 0, [drop_report; EReturn 0])
  ∧ exec_task 0 (replicate 8 OsOk) 4096 demo_task1 PCheck demo_sched
    = Next (mkSched "q" 1 1 None 0 1 2 1 (Some [100]) (Some [demo_task1; zero_msg]) 0 0,
            Return 0,
            [ESemWait EmptySem OsOk; ELock OsOk; EWrite 0 demo_task1;
             ESetEmptySlot 1; EUnlock OsOk; ESemPost FullSem OsOk; EReturn 0])
  ∧ returned (exec_task 0 (replicate 8 OsOk) NULL demo_task1 PCheck demo_sched)
    = returned (exec_task 0 (replicate 8 OsOk) 4096 demo_task1 PCheck demo_sched).
Proof. split; [by vm_compute|]. split; by vm_compute. Qed.

(** Interrupted waits on [emptySem] do not change what the call does next. *)
Lemma exec_task_interrupted me n os qhandle pMsg s :
  exec_task me (replicate n (OsFail EINTR) ++ os) qhandle pMsg PWaitEmpty s
  = match exec_task me os qhandle pMsg PWaitEmpty s with
    | Next (s', c, ev) =>
        Next (s', c,
              concat (replicate n [ESemWait EmptySem (OsFail EINTR);
                                   uTrace "wait %s emptySem was interrupted" [AStr (label s)]])
              ++ ev)
    | Blocked => Blocked
    | Fault => Fault
    end.
Proof.
  induction n as [|n IH]; simpl.
  - by destruct (exec_task _ _ _ _ _ _) as [[[? ?] ?]| |].
  - rewrite IH. by destruct (exec_task me os _ _ _ _) as [[[? ?] ?]| |].
Qed.

(** Past the wait, with the lock free if it is to be taken, the call
    writes its record and returns 0, whatever the system calls report. *)
Lemma exec_task_returns me qhandle pMsg s q ow ol o3 o4 ou op orr :
  queue s = Some q →
  Z.of_nat (length q) = queueSize s →
  1 ≤ queueSize s ≤ INT_MAX →
  0 ≤ emptySlot s < queueSize s →
  (ow = OsOk → 0 < emptySem s) →
  ow ≠ OsFail EINTR →
  (ol = OsOk → queueMutex s = None) →
  ∃ s' ev,
    exec_task me [ow; ol; o3; o4; ou; op; orr] qhandle pMsg PWaitEmpty s
    = Next (s', Return 0, ev)
    ∧ queue s' = Some (<[Z.to_nat (emptySlot s) := pMsg]> q)
    ∧ emptySlot s' = (emptySlot s + 1) `mod` queueSize s
    ∧ EWrite (emptySlot s) pMsg ∈ ev.
Proof.
  intros Hq Hlen HQ He Hroom Hnot Hfree.
  assert (Hww : slot_write q (emptySlot s) pMsg
                = Some (<[Z.to_nat (emptySlot s) := pMsg]> q))
    by (apply slot_write_in; lia).
  assert (Hae : c_rem (c_add (emptySlot s) 1) (queueSize s)
                = (emptySlot s + 1) `mod` queueSize s) by (by apply advance_in_range).
  assert (HQ0 : bool_decide (queueSize s = 0) = false) by (apply bool_decide_eq_false; lia).
  assert (Hwait : ∃ s1 ev1,
            taosScheduleTask me ow qhandle pMsg PWaitEmpty s = Next (s1, Goto PLock, ev1)
            ∧ queue s1 = queue s ∧ emptySlot s1 = emptySlot s ∧ queueSize s1 = queueSize s
            ∧ queueMutex s1 = queueMutex s).
  { destruct ow as [|e]; simpl.
    - rewrite bool_decide_eq_true_2 by auto. by eexists _, _.
    - rewrite bool_decide_eq_true_2 by congruence. by eexists _, _. }
  destruct Hwait as (s1 & ev1 & Hw & Hq1 & He1 & HQ1 & Hm1).
  rewrite <- Hq1 in Hq. rewrite <- He1 in *. rewrite <- HQ1 in *.
  rewrite <- Hm1 in Hfree. clear Hq1 He1 HQ1 Hm1 Hroom Hnot.
  cbn [exec_task]. rewrite Hw. clear Hw.
  destruct ol as [|el]; [pose proof (Hfree eq_refl) as Hm|];
    destruct ou as [|eu]; destruct op as [|ep];
    repeat (progress (simpl; rewrite ?Hm, ?Hq, ?Hww, ?HQ0, ?Hae));
    eexists _, _; (split; [reflexivity|]); simpl;
    (split; [done|]); (split; [done|]);
    apply elem_of_app; right;
    repeat (apply elem_of_cons; first [left; reflexivity|right]).
Qed.

(** C10. [taosScheduleTask] returns 0 on every path.  On a non-null
    handle, with a free slot for the wait to take (or a wait that fails)
    and the lock free if it is to be taken, the call gets through its
    wait after any number of interruptions, writes the record at
    [emptySlot] and returns 0, whatever the later system calls report.
    On the null handle it drops the record and returns 0.  The two
    results are the same value, and no run of the call, from whatever
    statement, returns anything else. *)
Theorem schedule_task_always_zero me qhandle pMsg s q n o0 ow ol o3 o4 ou op orr :
  qhandle ≠ NULL →
  queue s = Some q →
  Z.of_nat (length q) = queueSize s →
  1 ≤ queueSize s ≤ INT_MAX →
  0 ≤ emptySlot s < queueSize s →
  (ow = OsOk → 0 < emptySem s) →
  ow ≠ OsFail EINTR →
  (ol = OsOk → queueMutex s = None) →
  let os := o0 :: replicate n (OsFail EINTR) ++ [ow; ol; o3; o4; ou; op; orr] in
  (∃ s' ev, exec_task me os qhandle pMsg PCheck s = Next (s', Return 0, ev)
            ∧ queue s' = Some (<[Z.to_nat (emptySlot s) := pMsg]> q)
            ∧ EWrite (emptySlot s) pMsg ∈ ev
            ∧ drop_report ∉ ev)
  ∧ exec_task me os NULL pMsg PCheck s = Next (s, Return 0, [drop_report; EReturn 0])
  ∧ returned (exec_task me os qhandle pMsg PCheck s)
    = returned (exec_task me os NULL pMsg PCheck s)
  ∧ (∀ os' h pc s0 s' v ev,
       exec_task me os' h pMsg pc s0 = Next (s', Return v, ev) → v = 0).
Proof.
  intros Hh Hq Hlen HQ He Hroom Hnot Hfree os.
  destruct (exec_task_returns me qhandle pMsg s q ow ol o3 o4 ou op orr)
    as (s' & ev & Hrun & Hq' & _ & Hw); try done.
  assert (Hcall : exec_task me os qhandle pMsg PCheck s
                  = Next (s', Return 0,
                          concat (replicate n [ESemWait EmptySem (OsFail EINTR);
                                               uTrace "wait %s emptySem was interrupted"
                                                 [AStr (label s)]]) ++ ev)).
  { unfold os. cbn [exec_task taosScheduleTask].
    rewrite (bool_decide_eq_false_2 _ Hh), exec_task_interrupted, Hrun. done. }
  split; [|split; [done|split]].
  - eexists _, _. split; [exact Hcall|]. split; [done|]. split.
    + apply elem_of_app. by right.
    + by eapply exec_task_no_drop.
  - by rewrite Hcall.
  - intros os' h pc s0 s1 v ev1. apply exec_task_zero.
Qed.

Lemma schedule_task_always_zero_witness :
  (∃ s' ev, exec_task 0 demo_results 4096 demo_task1 PCheck demo_sched = Next (s', Return 0, ev)
            ∧ queue s' = Some (<[Z.to_nat (emptySlot demo_sched) := demo_task1]>
                                 [zero_msg; zero_msg])
            ∧ EWrite (emptySlot demo_sched) demo_task1 ∈ ev
            ∧ drop_report ∉ ev)
  ∧ exec_task 0 demo_results NULL demo_task1 PCheck demo_sched
    = Next (demo_sched, Return 0, [drop_report; EReturn 0])
  ∧ returned (exec_task 0 demo_results 4096 demo_task1 PCheck demo_sched)
    = returned (exec_task 0 demo_results NULL demo_task1 PCheck demo_sched)
  ∧ (∀ os' h pc s0 s' v ev,
       exec_task 0 os' h demo_task1 pc s0 = Next (s', Return v, ev) → v = 0).
Proof.
  apply (schedule_task_always_zero 0 4096 demo_task1 demo_sched [zero_msg; zero_msg] 1
           OsOk OsOk OsOk OsOk OsOk OsOk OsOk OsOk);
    (done || (unfold INT_MAX; simpl; lia)).
Defined.

(** ** The callback *)

(** C8. Two-shape dispatch.  The statement after the dequeue leaves the
    scheduler alone and does one of three things with the record: calls
    [fp] with the record if [fp] is set; otherwise calls [tfp] with the
    two handles if [tfp] is set; otherwise nothing.  At most one call
    is made. *)
Theorem two_shape_dispatch me o m s :
  taosProcessSchedQueue me o WDispatch m s = Next (s, WWaitFull, m, dispatch m)
  ∧ (fp m ≠ NULL → dispatch m = [ECallFp (fp m) m])
  ∧ (fp m = NULL → tfp m ≠ NULL →
     dispatch m = [ECallTfp (tfp m) (ahandle m) (thandle m)])
  ∧ (fp m = NULL → tfp m = NULL → dispatch m = [])
  ∧ (length (dispatch m) ≤ 1)%nat.
Proof.
  split; [done|]. unfold dispatch.
  repeat split; intros; repeat case_bool_decide; simpl; (done || lia).
Qed.

Lemma two_shape_dispatch_witness :
  dispatch demo_task1 = [ECallFp 11 demo_task1]
  ∧ dispatch demo_task2 = [ECallTfp 22 5 6]
  ∧ dispatch zero_msg = [].
Proof.
  destruct (two_shape_dispatch 1 OsOk demo_task1 demo_sched) as (_ & H1 & _).
  destruct (two_shape_dispatch 1 OsOk demo_task2 demo_sched) as (_ & _ & H2 & _).
  destruct (two_shape_dispatch 1 OsOk zero_msg demo_sched) as (_ & _ & _ & H3 & _).
  split; [by apply H1|]. split; [by apply H2|by apply H3].
Defined.

(** ** The reporter *)

(** Where the cursors are in range and the sum line 217 forms fits in
    an [int], the reporter computes the occupancy. *)
Lemma dump_size_occupied s :
  1 ≤ queueSize s ≤ INT_MAX →
  0 ≤ emptySlot s < queueSize s →
  0 ≤ fullSlot s < queueSize s →
  emptySlot s - fullSlot s + queueSize s ≤ INT_MAX →
  dump_size s = occupied s.
Proof.
  intros HQ He Hf Hfit. unfold INT_MAX in HQ, Hfit.
  unfold dump_size, occupied, c_add, c_sub.
  rewrite (wrap32_id (emptySlot s - fullSlot s)) by lia.
  rewrite wrap32_id by lia.
  apply c_rem_nonneg; lia.
Qed.

(** In every state a fresh scheduler of capacity at most [2^30] reaches
    under normal operation the cursors are in range, so the reporter
    computes the occupancy. *)
Lemma dump_size_in_runs env Q W lbl ths st0 sch st :
  1 ≤ Q ≤ 2 ^ 30 →
  fresh_system env Q W lbl ths = Some st0 →
  normal_schedule sch st0 = true →
  run sch st0 = Next st →
  dump_size (sched st) = occupied (sched st) ∧ 0 ≤ dump_size (sched st) < Q.
Proof.
  intros HQ Hfresh Hn Hrun.
  assert (HQ' : 1 ≤ Q ≤ INT_MAX) by (unfold INT_MAX; lia).
  destruct (fresh_system_inv _ _ _ _ _ _ HQ' Hfresh) as (Hinv0 & HQ0 & _).
  pose proof (run_inv _ _ _ Hinv0 Hn Hrun) as Hinv.
  pose proof (run_queueSize _ _ _ Hrun) as HQs. rewrite HQ0 in HQs.
  destruct Hinv as [_ _ _ _ Hec Hfc _ _ _ _]. rewrite HQs in Hec, Hfc.
  pose proof (Z.mod_pos_bound (count_enq st - total lag_empty (threads st)) Q ltac:(lia)).
  pose proof (Z.mod_pos_bound (count_deq st - total lag_full (threads st)) Q ltac:(lia)).
  rewrite dump_size_occupied by (rewrite ?HQs; unfold INT_MAX; lia).
  split; [done|]. unfold occupied. rewrite HQs. apply Z.mod_pos_bound. lia.
Qed.

(** C9. One firing of the reporter on a live handle whose cursors are
    in range (and whose sum on line 217 fits in an [int]).  A null or
    different stored registration: nothing happens.
    The same registration: the occupancy [(emptySlot - fullSlot + Q) mod
    Q] is computed, reported with label and worker count if it is not
    zero, and the timer is set again with the same interval; only
    [pTimer] changes. *)
Theorem dump_status_contract tmr qhandle tmrId h s :
  qhandle ≠ NULL →
  h !! qhandle = Some s →
  1 ≤ queueSize s ≤ INT_MAX →
  0 ≤ emptySlot s < queueSize s →
  0 ≤ fullSlot s < queueSize s →
  emptySlot s - fullSlot s + queueSize s ≤ INT_MAX →
  (pTimer s = NULL ∨ pTimer s ≠ tmrId →
   taosDumpSchedulerStatus tmr qhandle tmrId h = Some (h, []))
  ∧ (pTimer s ≠ NULL → pTimer s = tmrId →
     taosDumpSchedulerStatus tmr qhandle tmrId h
     = Some (<[qhandle := set_pTimer tmr s]> h,
             (if bool_decide (occupied s ≠ 0)
              then [uTrace "scheduler:%s, current tasks in queue:%d, task thread:%d"
                      [AStr (label s); AInt (occupied s); AInt (numOfThreads s)]]
              else [])
             ++ [ETmrReset DUMP_SCHEDULER_TIME_WINDOW qhandle (pTmrCtrl s) tmrId])
     ∧ emptySlot (set_pTimer tmr s) = emptySlot s
     ∧ fullSlot (set_pTimer tmr s) = fullSlot s
     ∧ queue (set_pTimer tmr s) = queue s
     ∧ emptySem (set_pTimer tmr s) = emptySem s
     ∧ fullSem (set_pTimer tmr s) = fullSem s).
Proof.
  intros Hh Hs HQ He Hf Hfit.
  pose proof (dump_size_occupied s HQ He Hf Hfit) as Hsz.
  assert (Hocc : 0 ≤ occupied s).
  { unfold occupied. apply Z.mod_pos_bound. lia. }
  unfold taosDumpSchedulerStatus. rewrite (bool_decide_eq_false_2 _ Hh), Hs.
  split.
  - intros [Hn|Hne].
    + by rewrite (bool_decide_eq_true_2 _ Hn).
    + rewrite (bool_decide_eq_true_2 (pTimer s ≠ tmrId)) by done. by rewrite orb_true_r.
  - intros Hn Heq. split; [|done].
    rewrite (bool_decide_eq_false_2 _ Hn).
    rewrite (bool_decide_eq_false_2 (pTimer s ≠ tmrId)) by (intros ?; done).
    rewrite (bool_decide_eq_false_2 (queueSize s = 0)) by lia.
    simpl. rewrite Hsz, Heq.
    do 2 f_equal. f_equal.
    repeat case_bool_decide; (done || lia).
Qed.

Lemma dump_status_contract_witness :
  taosDumpSchedulerStatus 78 4096 77 {[4096 := demo_loaded]}
  = Some ({[4096 := set_pTimer 78 demo_loaded]},
          [uTrace "scheduler:%s, current tasks in queue:%d, task thread:%d"
             [AStr "q"; AInt 1; AInt 1];
           ETmrReset 30000 4096 55 77])
  ∧ taosDumpSchedulerStatus 78 4096 76 {[4096 := demo_loaded]}
    = Some ({[4096 := demo_loaded]}, []).
Proof.
  destruct (dump_status_contract 78 4096 77 {[4096 := demo_loaded]} demo_loaded)
    as [_ H]; [done|done|unfold INT_MAX; simpl; lia..|].
  destruct (dump_status_contract 78 4096 76 {[4096 := demo_loaded]} demo_loaded)
    as [H' _]; [done|done|unfold INT_MAX; simpl; lia..|].
  split.
  - destruct H as [H _]; [done..|]. rewrite H. by rewrite insert_singleton_eq.
  - apply H'. by right.
Defined.

(** ** Construction and shutdown *)

Lemma create_workers_all env lbl idx s :
  (∀ i, (env_thread_create env i).1 = 0) →
  ∃ s' ev, create_workers env lbl idx s = (s', ev, true)
           ∧ EMutexDestroy ∉ ev.
Proof.
  intros Hall. revert s. induction idx as [|i idx IH]; intros s; simpl.
  - eexists _, _. split; [done|]. apply not_elem_of_nil.
  - specialize (Hall i) as Hi. destruct (env_thread_create env i) as [code th].
    simpl in Hi. subst code. rewrite bool_decide_eq_false_2 by (intros ?; done).
    edestruct IH as (s' & ev & -> & Hev). eexists _, _. split; [done|].
    apply not_elem_of_cons. split; [discriminate|done].
Qed.

(** C6. Construction is not all-or-nothing.  When [pthread_mutex_init]
    fails (it then returns a positive error number) and every other
    call succeeds, [taosInitScheduler] returns the non-null handle of a
    live scheduler and never destroys the mutex: line 70 tests [< 0].
    And when [calloc] of the slot buffer fails, the teardown destroys
    both semaphores and the mutex, none of which was initialised. *)
Theorem init_misses_mutex_failure env Q W lbl h :
  env_calloc_sched env ≠ NULL →
  env_calloc_queue env = true →
  env_calloc_qthread env = true →
  0 < env_mutex_init env →
  env_sem_init_empty env = 0 →
  env_sem_init_full env = 0 →
  (∀ i, (env_thread_create env i).1 = 0) →
  (∃ h' ev, taosInitScheduler env Q W lbl h = Some (env_calloc_sched env, h', ev)
            ∧ is_Some (h' !! env_calloc_sched env)
            ∧ EMutexInit (env_mutex_init env) ∈ ev
            ∧ EMutexDestroy ∉ ev)
  ∧ taosInitScheduler env_queue_fails 2 1 "q" ∅
    = Some (NULL, ∅,
            [ECalloc BSched true; ECalloc BQueue false;
             uError "%s: no enough memory for queue" [AStr "q"];
             ESemDestroy EmptySem; ESemDestroy FullSem; EMutexDestroy; EFree BSched]).
Proof.
  intros Hp Hq Hqt Hm He Hf Hth. split; [|by vm_compute].
  unfold taosInitScheduler.
  rewrite (bool_decide_eq_false_2 _ Hp), Hq, Hqt. simpl negb. cbv iota.
  rewrite (bool_decide_eq_false_2 (env_mutex_init env < 0)) by lia.
  rewrite He, Hf. rewrite !(bool_decide_eq_false_2 (0 ≠ 0)) by (intros ?; done).
  edestruct (create_workers_all env lbl (seqZ 0 W)) as (s' & ev & -> & Hev); [done|].
  eexists _, _. split; [done|]. split; [by rewrite lookup_insert_eq|]. split.
  - rewrite !elem_of_app, !elem_of_cons. naive_solver.
  - rewrite !not_elem_of_app, !not_elem_of_cons.
    repeat split; try discriminate; try apply not_elem_of_nil; done.
Qed.

Lemma init_misses_mutex_failure_witness :
  ∃ h' ev, taosInitScheduler env_mutex_fails 2 1 "q" ∅ = Some (4096, h', ev)
           ∧ is_Some (h' !! 4096)
           ∧ EMutexInit 12 ∈ ev
           ∧ EMutexDestroy ∉ ev.
Proof.
  apply (init_misses_mutex_failure env_mutex_fails 2 1 "q" ∅); simpl; (done || lia).
Defined.

Lemma init_failure_restores_heap env Q W lbl h h' ev :
  h !! env_calloc_sched env = None →
  taosInitScheduler env Q W lbl h = Some (NULL, h', ev) →
  h' = h.
Proof.
  intros Hfresh H. unfold taosInitScheduler in H.
  assert (Hab : ∀ s ev0, init_abort (env_calloc_sched env) s h ev0 = Some (NULL, h', ev) → h' = h).
  { intros s ev0 Hab. unfold init_abort, taosCleanUpScheduler in Hab.
    repeat (case_bool_decide || case_match); simplify_eq; try done.
    all: rewrite lookup_insert_eq in *; simplify_eq.
    all: rewrite delete_insert_eq; by apply delete_id. }
  repeat (case_bool_decide || case_match); simplify_eq; eauto; done.
Qed.

Lemma thread_calls_app self ev1 ev2 t :
  thread_calls self (ev1 ++ ev2) t
  = match thread_calls self ev1 t with
    | Some t' => thread_calls self ev2 t'
    | None => None
    end.
Proof.
  revert t. induction ev1 as [|e ev1 IH]; intros t; simpl; [done|].
  destruct (thread_call self e t); [apply IH|done].
Qed.

(** The first loop, lines 188-191. *)
Lemma cancel_loop self (l : list Z) : ∀ t,
  self ∉ l →
  ∃ t', thread_calls self (EThreadCancel <$> l) t = Some t'
        ∧ alive t' = alive t
        ∧ (∀ x, x ∈ cancelled t → x ∈ cancelled t')
        ∧ (∀ x, x ∈ l → x ∈ alive t → x ∈ cancelled t').
Proof.
  induction l as [|a l IH]; intros t Hself; simpl.
  - exists t. repeat split; [done|]. intros x Hx. by apply elem_of_nil in Hx.
  - apply not_elem_of_cons in Hself as [Ha Hself].
    rewrite bool_decide_eq_false_2 by done.
    case_bool_decide as Hal.
    + destruct (IH (mkThreads (alive t) ({[a]} ∪ cancelled t)) Hself)
        as (t' & Hrun & Hal' & Hmono & Hc).
      exists t'. split; [done|]. split; [done|]. split.
      * intros x Hx. apply Hmono. simpl. apply elem_of_union. by right.
      * intros x Hx Hxa. apply elem_of_cons in Hx as [->|Hx]; [|by apply Hc].
        apply Hmono. simpl. apply elem_of_union. left. by apply elem_of_singleton.
    + destruct (IH t Hself) as (t' & Hrun & Hal' & Hmono & Hc).
      exists t'. split; [done|]. split; [done|]. split; [done|].
      intros x Hx Hxa. apply elem_of_cons in Hx as [->|Hx]; [done|by apply Hc].
Qed.

(** The second loop, lines 192-195. *)
Lemma join_loop self (l : list Z) : ∀ t,
  self ∉ l →
  (∀ x, x ∈ l → x ∈ alive t → x ∈ cancelled t) →
  ∃ t', thread_calls self (EThreadJoin <$> l) t = Some t'
        ∧ (∀ x, x ∈ alive t' ↔ x ∈ alive t ∧ x ∉ l).
Proof.
  induction l as [|a l IH]; intros t Hself Hc; simpl.
  - exists t. split; [done|]. intros x. split; [|by intros [? _]].
    intros Hx. split; [done|]. apply not_elem_of_nil.
  - apply not_elem_of_cons in Hself as [Ha Hself].
    rewrite bool_decide_eq_false_2 by done.
    case_bool_decide as Hal.
    + rewrite bool_decide_eq_true_2 by (apply Hc; [by left|done]).
      destruct (IH (mkThreads (alive t ∖ {[a]}) (cancelled t ∖ {[a]})) Hself)
        as (t' & Hrun & Hiff).
      { simpl. intros x Hx Hxa. apply elem_of_difference in Hxa as [Hxa Hne].
        apply elem_of_difference. split; [|done]. apply Hc; [by right|done]. }
      exists t'. split; [done|]. intros x. rewrite Hiff. simpl.
      rewrite elem_of_difference, elem_of_singleton, not_elem_of_cons. tauto.
    + destruct (IH t Hself) as (t' & Hrun & Hiff).
      { intros x Hx Hxa. apply Hc; [by right|done]. }
      exists t'. split; [done|]. intros x. rewrite Hiff, not_elem_of_cons.
      split; [|tauto]. intros [Hx Hxl]. split; [done|]. split; [|done].
      intros ->. done.
Qed.

(** C7. Shutdown.  On the null handle [taosCleanUpScheduler] does
    nothing.  On a live, fully constructed scheduler, called by a
    thread that is not one of its workers, it requests the cancellation
    of every started worker and then waits for each of them: when the
    second loop is through, all started worker threads have terminated
    and no other thread has.  Only then it destroys both semaphores and
    the mutex, stops the timer registration if there is one, and frees
    the slot buffer, the thread table and the handle block.  The handle
    is then no longer live, and a further call on it is not defined. *)
Theorem shutdown_contract h :
  taosCleanUpScheduler NULL h = Some (h, [])
  ∧ ∀ p s q tb ths self t,
      p ≠ NULL →
      h !! p = Some s →
      queue s = Some q →
      qthread s = Some tb →
      started_threads s = Some ths →
      self ∉ ths →
      0 ∉ alive t →
      let calls := (EThreadCancel <$> filter (λ th, th ≠ 0) ths)
                   ++ (EThreadJoin <$> filter (λ th, th ≠ 0) ths) in
      taosCleanUpScheduler p h
      = Some (delete p h,
              calls
              ++ [ESemDestroy EmptySem; ESemDestroy FullSem; EMutexDestroy]
              ++ (if bool_decide (pTimer s ≠ NULL) then [ETmrStop (pTimer s)] else [])
              ++ [EFree BQueue; EFree BQthread; EFree BSched])
      ∧ (∃ t', thread_calls self calls t = Some t'
               ∧ Forall (λ th, th ∉ alive t') ths
               ∧ ∀ x, x ∈ alive t' ↔ x ∈ alive t ∧ x ∉ ths)
      ∧ delete p h !! p = None
      ∧ taosCleanUpScheduler p (delete p h) = None.
Proof.
  split; [done|]. intros p s q tb ths self t Hp Hs Hq Htb Hths Hself H0 calls.
  split; [|split].
  - unfold taosCleanUpScheduler.
    rewrite (bool_decide_eq_false_2 _ Hp), Hs, Hths, Hq, Htb. simpl.
    unfold calls. by rewrite <- !app_assoc.
  - set (live := filter (λ th, th ≠ 0) ths) in *.
    assert (Hlive : ∀ x, x ∈ live ↔ x ≠ 0 ∧ x ∈ ths).
    { intros x. unfold live. by rewrite list_elem_of_filter. }
    assert (Hsl : self ∉ live) by (rewrite Hlive; tauto).
    destruct (cancel_loop self live t Hsl) as (t1 & Hrun1 & Hal1 & _ & Hc1).
    destruct (join_loop self live t1 Hsl) as (t2 & Hrun2 & Hiff).
    { intros x Hx Hxa. apply Hc1; [done|]. by rewrite <- Hal1. }
    assert (Hres : ∀ x, x ∈ alive t2 ↔ x ∈ alive t ∧ x ∉ ths).
    { intros x. rewrite Hiff, Hal1, Hlive. split.
      - intros [Hx Hn]. split; [done|]. intros Hin. apply Hn. split; [|done].
        intros ->. done.
      - intros [Hx Hn]. split; [done|]. tauto. }
    exists t2. split; [|split; [|done]].
    + unfold calls. by rewrite thread_calls_app, Hrun1.
    + apply Forall_forall. intros th Hth Hal. apply Hres in Hal. tauto.
  - split; [apply lookup_delete_eq|].
    unfold taosCleanUpScheduler.
    by rewrite (bool_decide_eq_false_2 _ Hp), lookup_delete_eq.
Qed.

Lemma shutdown_contract_witness :
  taosCleanUpScheduler 4096 {[4096 := demo_sched]}
  = Some (∅, [EThreadCancel 100; EThreadJoin 100;
              ESemDestroy EmptySem; ESemDestroy FullSem; EMutexDestroy;
              EFree BQueue; EFree BQthread; EFree BSched])
  ∧ (∃ t', thread_calls 1 [EThreadCancel 100; EThreadJoin 100] (mkThreads {[1; 100]} ∅)
           = Some t'
           ∧ Forall (λ th, th ∉ alive t') [100]
           ∧ ∀ x, x ∈ alive t' ↔ x ∈ alive (mkThreads {[1; 100]} ∅) ∧ x ∉ [100])
  ∧ taosCleanUpScheduler 4096 ∅ = None.
Proof.
  destruct (shutdown_contract {[4096 := demo_sched]}) as [_ H].
  destruct (H 4096 demo_sched [zero_msg; zero_msg] [100] [100] 1 (mkThreads {[1; 100]} ∅))
    as (H1 & H2 & _ & H3);
    [done|by vm_compute|done|done|by vm_compute
    |apply (bool_decide_unpack _); by vm_compute
    |apply (bool_decide_unpack _); by vm_compute|].
  rewrite delete_singleton_eq in H1, H3. split; [exact H1|]. split; [exact H2|exact H3].
Defined.

Lemma shutdown_twice_counterexample :
  taosInitScheduler env_ok 2 1 "q" ∅
  = Some (4096, {[4096 := demo_sched]},
          [ECalloc BSched true; ECalloc BQueue true; ECalloc BQthread true;
           EMutexInit 0; ESemInit EmptySem 2 0; ESemInit FullSem 0 0;
           EThreadCreate 0 0 100;
           uTrace "%s scheduler is initialized, numOfThreads:%d" [AStr "q"; AInt 1]])
  ∧ shutdown_twice 4096 {[4096 := demo_sched]} = Some None
  ∧ shutdown_twice 4096 {[4096 := demo_sched]} ≠ Some (Some (∅, [])).
Proof. split; [by vm_compute|]. split; [by vm_compute|]. by vm_compute. Qed.

(** ** Runs in which one thread at a time completes an operation *)

Lemma run_app sch1 sch2 st :
  run (sch1 ++ sch2) st
  = match run sch1 st with
    | Next st1 => run sch2 st1
    | Blocked => Blocked
    | Fault => Fault
    end.
Proof.
  revert st. induction sch1 as [|[tid o] sch1 IH]; intros st; simpl; [done|].
  destruct (sys_step tid o st); [apply IH|done..].
Qed.

Lemma normal_all_ok sch st : all_ok sch = true → normal_schedule sch st = true.
Proof.
  revert st. induction sch as [|[tid o] sch IH]; intros st Hok; simpl in *; [done|].
  apply andb_true_iff in Hok as [Ho Hok]. apply bool_decide_eq_true in Ho. simpl in Ho. subst o.
  destruct (threads st !! tid); [|done]. simpl.
  destruct (sys_step tid OsOk st); auto.
Qed.

Lemma all_ok_app sch1 sch2 : all_ok sch1 = true → all_ok sch2 = true → all_ok (sch1 ++ sch2) = true.
Proof. unfold all_ok. rewrite forallb_app. intros -> ->. done. Qed.

Lemma all_ok_alone tid n : all_ok (alone tid n) = true.
Proof. induction n; [done|]. simpl. done. Qed.

Lemma system_eta st : mkSys (sched st) (threads st) (trace st) = st.
Proof. by destruct st. Qed.

Lemma run_worker_alone tid os st pc m s' pc' m' ev :
  threads st !! tid = Some (Worker (mkWorker pc m)) →
  exec_worker tid os pc m (sched st) = Next (s', pc', m', ev) →
  run ((λ o, (tid, o)) <$> os) st
  = Next (mkSys s' (<[tid := Worker (mkWorker pc' m')]> (threads st))
            (trace st ++ ((λ e, (tid, e)) <$> ev))).
Proof.
  revert st pc m ev. induction os as [|o os IH]; intros st pc m ev Hth Hex; simpl in *.
  - simplify_eq. rewrite list_insert_id by done. rewrite app_nil_r. by rewrite system_eta.
  - unfold sys_step. rewrite Hth. simpl.
    destruct (taosProcessSchedQueue tid o pc m (sched st)) as [[[[s1 pc1] m1] ev1]| |]; [|done..].
    destruct (exec_worker tid os pc1 m1 s1) as [[[[s2 pc2] m2] ev2]| |] eqn:Hrec; [|done..].
    simplify_eq.
    assert (Hlt : (tid < length (threads st))%nat) by (eapply lookup_lt_Some; eauto).
    erewrite IH; [|simpl; by apply list_lookup_insert_eq|simpl; done].
    simpl. rewrite list_insert_insert_eq, fmap_app, app_assoc. done.
Qed.

Lemma run_task_alone tid os st h pc m rest rets s' pc' ev :
  threads st !! tid = Some (Producer (mkProducer h pc (m :: rest) rets)) →
  exec_task tid os h m pc (sched st) = Next (s', Goto pc', ev) →
  run ((λ o, (tid, o)) <$> os) st
  = Next (mkSys s' (<[tid := Producer (mkProducer h pc' (m :: rest) rets)]> (threads st))
            (trace st ++ ((λ e, (tid, e)) <$> ev))).
Proof.
  revert st pc ev. induction os as [|o os IH]; intros st pc ev Hth Hex; simpl in *.
  - simplify_eq. rewrite list_insert_id by done. rewrite app_nil_r. by rewrite system_eta.
  - unfold sys_step. rewrite Hth. simpl.
    destruct (taosScheduleTask tid o h m pc (sched st)) as [[[s1 [pc1|v1]] ev1]| |]; [| done..].
    destruct (exec_task tid os h m pc1 s1) as [[[s2 c2] ev2]| |] eqn:Hrec; [|done..].
    simplify_eq.
    assert (Hlt : (tid < length (threads st))%nat) by (eapply lookup_lt_Some; eauto).
    erewrite IH; [|simpl; by apply list_lookup_insert_eq|simpl; done].
    simpl. rewrite list_insert_insert_eq, fmap_app, app_assoc. done.
Qed.

Lemma quiescent_unlocked st :
  queue_inv st → quiescent st = true → queueMutex (sched st) = None.
Proof.
  intros Hinv Hq. destruct (queueMutex (sched st)) as [t|] eqn:Hm; [|done].
  destruct (inv_owner st Hinv t Hm) as (th & Hth & Hcs).
  unfold quiescent in Hq. rewrite forallb_forall in Hq.
  assert (Hidle : idle th = true).
  { apply Hq, list_elem_of_In. eapply list_elem_of_lookup_2; eauto. }
  destruct th as [[? [] ? ?]|[[] ?]]; simpl in *; done.
Qed.

Lemma quiescent_insert st st' tid th th' :
  quiescent st = true → threads st !! tid = Some th → idle th' = true →
  threads st' = <[tid := th']> (threads st) →
  quiescent st' = true.
Proof.
  intros Hq Hth Hidle Hths. unfold quiescent in *. rewrite Hths.
  rewrite forallb_forall in Hq |- *. intros x Hx.
  apply list_elem_of_In, list_elem_of_lookup in Hx as [j Hj].
  destruct (decide (j = tid)) as [->|Hne].
  - rewrite list_lookup_insert_eq in Hj by (eapply lookup_lt_Some; eauto). by simplify_eq.
  - rewrite list_lookup_insert_ne in Hj by done.
    apply Hq, list_elem_of_In. eapply list_elem_of_lookup_2; eauto.
Qed.

Lemma producer_call st tid h m rest rets :
  queue_inv st → quiescent st = true →
  threads st !! tid = Some (Producer (mkProducer h PCheck (m :: rest) rets)) →
  h ≠ NULL →
  count_enq st - count_deq st < queueSize (sched st) →
  ∃ st', run (alone tid 8) st = Next st'
         ∧ threads st' = <[tid := Producer (mkProducer h PCheck rest (rets ++ [0]))]> (threads st)
         ∧ enqueued (trace st') = enqueued (trace st) ++ [m]
         ∧ dequeued (trace st') = dequeued (trace st).
Proof.
  intros Hinv Hq Hth Hh Hroom.
  pose proof (quiescent_unlocked st Hinv Hq) as Hmx.
  destruct (quiescent_sems st Hinv Hq) as (Hsum & Hfull & _).
  destruct Hinv as [Hsz (q & Hqq & Hlen & _) _ _ Hec _ _ [Hes Hfs] _ _].
  assert (He : 0 ≤ emptySlot (sched st) < queueSize (sched st)).
  { rewrite Hec. apply Z.mod_pos_bound. lia. }
  destruct (exec_task_call tid h m (sched st) q Hh ltac:(lia) Hmx Hqq Hlen Hsz He)
    as (_ & H7 & _).
  change (alone tid 8) with (((λ o, (tid, o)) <$> replicate 7 OsOk) ++ [(tid, OsOk)]).
  rewrite run_app. erewrite run_task_alone by eauto.
  assert (Hlt : (tid < length (threads st))%nat) by (eapply lookup_lt_Some; eauto).
  simpl. unfold sys_step. simpl. rewrite list_lookup_insert_eq by done. simpl.
  eexists. split; [done|]. simpl.
  rewrite list_insert_insert_eq. split; [done|].
  rewrite !enqueued_app, !dequeued_app. simpl. rewrite !app_nil_r. done.
Qed.

Lemma worker_iteration st tid m0 :
  queue_inv st → quiescent st = true →
  threads st !! tid = Some (Worker (mkWorker WWaitFull m0)) →
  count_deq st < count_enq st →
  ∃ st' x, run (alone tid 8) st = Next st'
           ∧ threads st' = <[tid := Worker (mkWorker WWaitFull x)]> (threads st)
           ∧ enqueued (trace st') = enqueued (trace st)
           ∧ dequeued (trace st') = dequeued (trace st) ++ [x].
Proof.
  intros Hinv Hq Hth Hsome.
  pose proof (quiescent_unlocked st Hinv Hq) as Hmx.
  destruct (quiescent_sems st Hinv Hq) as (Hsum & Hfull & _).
  destruct Hinv as [Hsz (q & Hqq & Hlen & _) _ _ _ Hfc _ [Hes Hfs] _ _].
  assert (Hf : 0 ≤ fullSlot (sched st) < queueSize (sched st)).
  { rewrite Hfc. apply Z.mod_pos_bound. lia. }
  destruct (lookup_lt_is_Some_2 q (Z.to_nat (fullSlot (sched st)))) as [x Hx]; [lia|].
  destruct (exec_worker_iteration tid m0 (sched st) q x ltac:(lia) Hmx Hqq Hlen Hsz Hf Hx)
    as (_ & H8).
  change (alone tid 8) with ((λ o, (tid, o)) <$> replicate 8 OsOk).
  erewrite run_worker_alone by eauto.
  eexists _, x. split; [done|]. simpl. split; [done|].
  rewrite !enqueued_app, !dequeued_app.
  unfold dispatch. repeat case_bool_decide; simpl; rewrite ?app_nil_r; done.
Qed.

Lemma enqueue_all tid h todo : ∀ st rets,
  queue_inv st → quiescent st = true →
  threads st !! tid = Some (Producer (mkProducer h PCheck todo rets)) →
  h ≠ NULL →
  count_enq st - count_deq st + Z.of_nat (length todo) ≤ queueSize (sched st) →
  ∃ sch st', all_ok sch = true ∧ run sch st = Next st'
    ∧ queue_inv st' ∧ quiescent st' = true
    ∧ threads st'
      = <[tid := Producer (mkProducer h PCheck [] (rets ++ replicate (length todo) 0))]>
          (threads st)
    ∧ enqueued (trace st') = enqueued (trace st) ++ todo
    ∧ dequeued (trace st') = dequeued (trace st).
Proof.
  induction todo as [|m rest IH]; intros st rets Hinv Hq Hth Hh Hroom.
  - exists [], st. simpl. rewrite !app_nil_r. rewrite list_insert_id by done. done.
  - simpl in Hroom.
    destruct (producer_call st tid h m rest rets Hinv Hq Hth Hh ltac:(lia))
      as (st1 & Hrun1 & Hths1 & Henq1 & Hdeq1).
    assert (Hlt : (tid < length (threads st))%nat) by (eapply lookup_lt_Some; eauto).
    assert (Hinv1 : queue_inv st1).
    { eapply run_inv; [exact Hinv| |exact Hrun1]. apply normal_all_ok, all_ok_alone. }
    assert (Hq1 : quiescent st1 = true)
      by (eapply (quiescent_insert st st1); [exact Hq|exact Hth| |exact Hths1]; done).
    assert (Hth1 : threads st1 !! tid = Some (Producer (mkProducer h PCheck rest (rets ++ [0])))).
    { rewrite Hths1. by apply list_lookup_insert_eq. }
    pose proof (run_queueSize _ _ _ Hrun1) as HQ1.
    destruct (IH st1 (rets ++ [0]) Hinv1 Hq1 Hth1 Hh)
      as (sch & st' & Hok & Hrun & Hinv' & Hq' & Hths' & Henq' & Hdeq').
    { unfold count_enq, count_deq in *. rewrite Henq1, Hdeq1, HQ1, length_app. simpl. lia. }
    exists (alone tid 8 ++ sch), st'.
    split; [apply all_ok_app; [apply all_ok_alone|done]|].
    split; [by rewrite run_app, Hrun1|].
    split; [done|]. split; [done|].
    split.
    + rewrite Hths', Hths1, list_insert_insert_eq. simpl. by rewrite <- app_assoc.
    + rewrite Henq', Henq1, Hdeq', Hdeq1, <- app_assoc. done.
Qed.

Lemma dequeue_all tid n : ∀ st m0,
  queue_inv st → quiescent st = true →
  threads st !! tid = Some (Worker (mkWorker WWaitFull m0)) →
  count_enq st - count_deq st = Z.of_nat n →
  ∃ sch st', all_ok sch = true ∧ run sch st = Next st'
    ∧ queue_inv st'
    ∧ enqueued (trace st') = enqueued (trace st)
    ∧ count_deq st' = count_enq st'.
Proof.
  induction n as [|n IH]; intros st m0 Hinv Hq Hth Hn.
  - exists [], st. simpl. split; [done|]. split; [done|]. split; [done|]. split; [done|]. lia.
  - destruct (worker_iteration st tid m0 Hinv Hq Hth ltac:(lia))
      as (st1 & x & Hrun1 & Hths1 & Henq1 & Hdeq1).
    assert (Hlt : (tid < length (threads st))%nat) by (eapply lookup_lt_Some; eauto).
    assert (Hinv1 : queue_inv st1).
    { eapply run_inv; [exact Hinv| |exact Hrun1]. apply normal_all_ok, all_ok_alone. }
    assert (Hq1 : quiescent st1 = true)
      by (eapply (quiescent_insert st st1); [exact Hq|exact Hth| |exact Hths1]; done).
    assert (Hth1 : threads st1 !! tid = Some (Worker (mkWorker WWaitFull x))).
    { rewrite Hths1. by apply list_lookup_insert_eq. }
    destruct (IH st1 x Hinv1 Hq1 Hth1)
      as (sch & st' & Hok & Hrun & Hinv' & Henq' & Hdeq').
    { unfold count_enq, count_deq in *. rewrite Henq1, Hdeq1, length_app. simpl. lia. }
    exists (alone tid 8 ++ sch), st'.
    split; [apply all_ok_app; [apply all_ok_alone|done]|].
    split; [by rewrite run_app, Hrun1|].
    split; [done|]. split; [by rewrite Henq', Henq1|done].
Qed.

Lemma initial_quiescent ths s tr :
  forallb initial_thread ths = true → quiescent (mkSys s ths tr) = true.
Proof.
  unfold quiescent. simpl. rewrite !forallb_forall. intros H x Hx.
  specialize (H x Hx). destruct x as [[? [] ? ?]|[[] ?]]; simpl in *; done.
Qed.

Lemma fifo_drain env Q W lbl hd ts w ws st0 :
  1 ≤ Q ≤ INT_MAX →
  hd ≠ NULL →
  Z.of_nat (length ts) ≤ Q →
  is_worker w = true →
  fresh_system env Q W lbl (Producer (mkProducer hd PCheck ts []) :: w :: ws) = Some st0 →
  ∃ sch st, normal_schedule sch st0 = true ∧ run sch st0 = Next st
            ∧ enqueued (trace st) = ts ∧ dequeued (trace st) = ts.
Proof.
  intros HQ Hhd Hlen Hw Hfresh.
  destruct (fresh_system_inv _ _ _ _ _ _ HQ Hfresh)
    as (Hinv0 & HQ0 & _ & _ & Hths & Htr & Hinit).
  assert (Hq0 : quiescent st0 = true).
  { rewrite <- (system_eta st0), Hths. by apply initial_quiescent. }
  destruct w as [?|[pc m0]]; [done|].
  assert (pc = WWaitFull) as ->.
  { simpl in Hinit. repeat (apply andb_true_iff in Hinit as [? Hinit]).
    by match goal with H : bool_decide (pc = _) = true |- _ => apply bool_decide_eq_true in H end. }
  destruct (enqueue_all 0 hd ts st0 [] Hinv0 Hq0) as
    (sch1 & st1 & Hok1 & Hrun1 & Hinv1 & Hq1 & Hths1 & Henq1 & Hdeq1).
  { by rewrite Hths. }
  { done. }
  { unfold count_enq, count_deq. rewrite Htr, HQ0. simpl. lia. }
  rewrite Htr in Henq1, Hdeq1. simpl in Henq1, Hdeq1.
  destruct (dequeue_all 1 (length ts) st1 m0 Hinv1 Hq1) as
    (sch2 & st2 & Hok2 & Hrun2 & Hinv2 & Henq2 & Hdeq2).
  { rewrite Hths1, Hths. done. }
  { unfold count_enq, count_deq. rewrite Henq1, Hdeq1. simpl. lia. }
  exists (sch1 ++ sch2), st2.
  split; [apply normal_all_ok, all_ok_app; done|].
  split; [by rewrite run_app, Hrun1|].
  split; [by rewrite Henq2|].
  pose proof (inv_fifo st2 Hinv2) as Hfifo.
  unfold count_enq, count_deq in Hdeq2. apply Nat2Z.inj in Hdeq2.
  rewrite Hfifo, Hdeq2, firstn_all. by rewrite Henq2.
Qed.

(** ** Claims on the queue *)

(** C1. Capacity invariant.  From a freshly constructed scheduler of
    capacity [Q >= 1], with [emptySem = Q] and [fullSem = 0], after any
    interleaving of enqueue and dequeue steps under normal operation:
    the occupancy [(emptySlot - fullSlot + Q) mod Q] and the number of
    records written and not read yet are both between [0] and [Q], and
    [emptySem + fullSem] plus the number of threads between their wait
    and their post is [Q]; so whenever no thread is inside an enqueue
    or a dequeue, [emptySem + fullSem = Q] (and the occupancy is
    [fullSem mod Q]). *)
Theorem capacity_invariant env Q W lbl ths st0 sch st :
  1 ≤ Q ≤ INT_MAX →
  fresh_system env Q W lbl ths = Some st0 →
  normal_schedule sch st0 = true →
  run sch st0 = Next st →
  (emptySem (sched st0) = Q ∧ fullSem (sched st0) = 0)
  ∧ queueSize (sched st) = Q
  ∧ 0 ≤ occupied (sched st) ≤ Q
  ∧ 0 ≤ count_enq st - count_deq st ≤ Q
  ∧ emptySem (sched st) + fullSem (sched st) + total in_flight (threads st) = Q
  ∧ (quiescent st = true →
     emptySem (sched st) + fullSem (sched st) = Q
     ∧ occupied (sched st) = fullSem (sched st) `mod` Q).
Proof.
  intros HQ Hfresh Hn Hrun.
  destruct (fresh_system_inv _ _ _ _ _ _ HQ Hfresh) as (Hinv0 & HQ0 & He0 & Hf0 & _).
  pose proof (run_inv _ _ _ Hinv0 Hn Hrun) as Hinv.
  pose proof (run_queueSize _ _ _ Hrun) as HQs. rewrite HQ0 in HQs.
  split; [done|]. split; [done|]. split; [|split; [|split]].
  - unfold occupied. rewrite HQs.
    pose proof (Z.mod_pos_bound (emptySlot (sched st) - fullSlot (sched st) + Q) Q). lia.
  - destruct Hinv as [_ _ _ _ _ _ _ [Hes Hfs] Hfree Hused].
    pose proof (total_nonneg holds_empty (threads st) holds_empty_nonneg).
    pose proof (total_nonneg wrote (threads st) wrote_nonneg).
    pose proof (total_nonneg holds_full (threads st) holds_full_nonneg).
    pose proof (total_nonneg took (threads st) took_nonneg).
    lia.
  - destruct Hinv as [_ _ _ _ _ _ _ _ Hfree Hused].
    rewrite total_in_flight. lia.
  - intros Hq. destruct (quiescent_sems st Hinv Hq) as (H1 & _ & H3).
    rewrite HQs in *. done.
Qed.

Lemma capacity_invariant_witness :
  (emptySem (sched demo_system) = 2 ∧ fullSem (sched demo_system) = 0)
  ∧ queueSize (sched demo_final) = 2
  ∧ 0 ≤ occupied (sched demo_final) ≤ 2
  ∧ 0 ≤ count_enq demo_final - count_deq demo_final ≤ 2
  ∧ emptySem (sched demo_final) + fullSem (sched demo_final)
    + total in_flight (threads demo_final) = 2
  ∧ (quiescent demo_final = true →
     emptySem (sched demo_final) + fullSem (sched demo_final) = 2
     ∧ occupied (sched demo_final) = fullSem (sched demo_final) `mod` 2).
Proof.
  apply (capacity_invariant env_ok 2 1 "q" demo_threads demo_system demo_schedule demo_final);
    [unfold INT_MAX; lia|by vm_compute..].
Defined.

(** C2. Global FIFO.  With a single producer submitting [ts] in order
    and any number of workers, the records read out of the slot buffer,
    in the order of the reads, are at every moment the first so many of
    [ts]; once as many have been read as were submitted they are exactly
    [ts]; and when [ts] has at most [Q] records and there is a worker,
    the run in which the producer submits all of [ts] and a worker then
    dequeues until the queue is empty exists, never blocks, and reads
    exactly [ts]. *)
Theorem global_fifo env Q W lbl hd ts ws st0 sch st :
  1 ≤ Q ≤ INT_MAX →
  hd ≠ NULL →
  forallb is_worker ws = true →
  fresh_system env Q W lbl (Producer (mkProducer hd PCheck ts []) :: ws) = Some st0 →
  normal_schedule sch st0 = true →
  run sch st0 = Next st →
  dequeued (trace st) = take (length (dequeued (trace st))) ts
  ∧ (length (dequeued (trace st)) = length ts → dequeued (trace st) = ts)
  ∧ (Z.of_nat (length ts) ≤ Q → ws ≠ [] →
     ∃ sch' st', normal_schedule sch' st0 = true ∧ run sch' st0 = Next st'
                 ∧ enqueued (trace st') = ts ∧ dequeued (trace st') = ts).
Proof.
  intros HQ Hhd Hws Hfresh Hn Hrun.
  destruct (fresh_system_inv _ _ _ _ _ _ HQ Hfresh) as (Hinv0 & _ & _ & _ & Hths & Htr & _).
  assert (Hsp0 : single_producer ts st0).
  { eexists _, ws. rewrite Hths, Htr. simpl. done. }
  pose proof (run_inv _ _ _ Hinv0 Hn Hrun) as Hinv.
  pose proof (single_producer_run _ _ _ _ Hsp0 Hrun) as Hsp.
  pose proof (single_producer_prefix ts st Hinv Hsp) as Hpre.
  split; [done|]. split.
  - intros Hlen. rewrite Hpre, Hlen. by rewrite firstn_all.
  - intros Hlen Hne. destruct ws as [|w ws']; [done|].
    simpl in Hws. apply andb_true_iff in Hws as [Hw _].
    by eapply fifo_drain.
Qed.

Lemma global_fifo_witness :
  dequeued (trace demo_final)
  = take (length (dequeued (trace demo_final))) [demo_task1; demo_task2]
  ∧ (length (dequeued (trace demo_final)) = length [demo_task1; demo_task2] →
     dequeued (trace demo_final) = [demo_task1; demo_task2])
  ∧ (Z.of_nat (length [demo_task1; demo_task2]) ≤ 2 →
     [Worker (mkWorker WWaitFull zero_msg); Worker (mkWorker WWaitFull zero_msg)] ≠ [] →
     ∃ sch' st', normal_schedule sch' demo_system = true ∧ run sch' demo_system = Next st'
                 ∧ enqueued (trace st') = [demo_task1; demo_task2]
                 ∧ dequeued (trace st') = [demo_task1; demo_task2]).
Proof.
  apply (global_fifo env_ok 2 1 "q" 4096 [demo_task1; demo_task2]
           [Worker (mkWorker WWaitFull zero_msg); Worker (mkWorker WWaitFull zero_msg)]
           demo_system demo_schedule demo_final);
    [unfold INT_MAX; lia|done|by vm_compute..].
Defined.

Example demo_final_dequeued : dequeued (trace demo_final) = [demo_task1; demo_task2].
Proof. by vm_compute. Qed.

(** * Further properties of the code *)

(** ** No step is undefined *)

Lemma cursors_in_range st :
  queue_inv st →
  0 ≤ emptySlot (sched st) < queueSize (sched st)
  ∧ 0 ≤ fullSlot (sched st) < queueSize (sched st).
Proof.
  intros [Hsz _ _ _ Hec Hfc _ _ _ _]. rewrite Hec at 1 2. rewrite Hfc at 1 2.
  split; apply Z.mod_pos_bound; lia.
Qed.

Lemma step_not_fault st tid o : queue_inv st → sys_step tid o st ≠ Fault.
Proof.
  intros Hinv.
  destruct (cursors_in_range st Hinv) as [He Hf].
  destruct Hinv as [Hsz (q & Hq & Hlen & _) _ _ _ _ _ _ _ _].
  unfold sys_step. destruct (threads st !! tid) as [th|]; [|done].
  assert (HQ0 : bool_decide (queueSize (sched st) = 0) = false)
    by (apply bool_decide_eq_false; lia).
  destruct th as [[hd pc [|pMsg rest] rets]|[pc m]]; simpl; [done| |].
  - destruct pc; simpl; rewrite ?Hq, ?HQ0;
      rewrite ?(slot_write_in q (emptySlot (sched st)) pMsg) by lia;
      repeat (case_bool_decide || case_match); simplify_eq; done.
  - destruct (lookup_lt_is_Some_2 q (Z.to_nat (fullSlot (sched st)))) as [x Hx]; [lia|].
    destruct pc; simpl; rewrite ?Hq, ?HQ0;
      rewrite ?(slot_write_in q (fullSlot (sched st)) zero_msg) by lia;
      rewrite ?(slot_read_in q (fullSlot (sched st)) x) by (lia || done);
      repeat (case_bool_decide || case_match); simplify_eq; done.
Qed.

(** X1. No step is undefined.  From the state [taosInitScheduler]
    returns, for a capacity between 1 and [INT_MAX] and system calls that
    succeed or are interrupted, no interleaving of producers and workers
    reaches a statement whose behaviour is undefined: every access to
    [queue] on lines 135, 136 and 172 is inside the buffer, and the
    divisions on lines 137 and 173 are by a non-zero [queueSize]. *)
Theorem runs_never_fault env Q W lbl ths st0 sch :
  1 ≤ Q ≤ INT_MAX →
  fresh_system env Q W lbl ths = Some st0 →
  normal_schedule sch st0 = true →
  run sch st0 ≠ Fault.
Proof.
  intros HQ Hfresh Hn.
  destruct (fresh_system_inv _ _ _ _ _ _ HQ Hfresh) as (Hinv0 & _).
  clear Hfresh. revert st0 Hinv0 Hn.
  induction sch as [|[tid o] sch IH]; intros st Hinv Hn; simpl in *; [done|].
  pose proof (step_not_fault st tid o Hinv) as Hnf.
  destruct (threads st !! tid) as [th|] eqn:Hth.
  2:{ unfold sys_step in *. by rewrite Hth. }
  apply andb_true_iff in Hn as [Hos Hn].
  destruct (sys_step tid o st) as [st1| |] eqn:Hstep; [|done..].
  apply IH; [|done]. by eapply step_inv.
Qed.

Lemma runs_never_fault_witness : run demo_schedule demo_system ≠ Fault.
Proof.
  apply (runs_never_fault env_ok 2 1 "q" demo_threads demo_system demo_schedule);
    [unfold INT_MAX; lia|by vm_compute..].
Defined.

(** ** No deadlock *)

Lemma forallb_insert {A} (P : A → bool) (l : list A) i y :
  forallb P l = true → P y = true → forallb P (<[i := y]> l) = true.
Proof.
  revert i. induction l as [|a l IH]; intros i Hl Hy; simpl in *; [done|].
  apply andb_true_iff in Hl as [Ha Hl].
  destruct i as [|i]; simpl; rewrite ?Ha, ?Hy; simpl; auto.
Qed.

Lemma forallb_lookup {A} (P : A → bool) (l : list A) i x :
  forallb P l = true → l !! i = Some x → P x = true.
Proof.
  intros Hl Hx. rewrite forallb_forall in Hl. apply Hl, list_elem_of_In.
  eapply list_elem_of_lookup_2; eauto.
Qed.

Lemma step_in_call tid o st st' :
  forallb in_call_has_task (threads st) = true →
  sys_step tid o st = Next st' →
  forallb in_call_has_task (threads st') = true.
Proof.
  intros Hwf Hstep. unfold sys_step in Hstep.
  destruct (threads st !! tid) as [th|]; [|done].
  destruct (thread_step tid o th (sched st)) as [[[s' th'] ev]| |] eqn:Hts; [|done..].
  simplify_eq. simpl. apply forallb_insert; [done|].
  destruct th as [[hd pc [|pMsg rest] rets]|[pc m]]; simpl in Hts; [done| |].
  - destruct (taosScheduleTask _ _ _ _ _ _) as [[[s1 [pc1|v1]] ev1]| |]; simplify_eq;
      simpl; rewrite ?orb_true_r; done.
  - destruct (taosProcessSchedQueue _ _ _ _ _) as [[[[s1 pc1] m1] ev1]| |]; by simplify_eq.
Qed.

Lemma run_in_call sch st st' :
  forallb in_call_has_task (threads st) = true →
  run sch st = Next st' →
  forallb in_call_has_task (threads st') = true.
Proof.
  revert st. induction sch as [|[tid o] sch IH]; intros st Hwf Hrun; simpl in *.
  - by simplify_eq.
  - destruct (sys_step tid o st) as [st1| |] eqn:Hstep; [|done..].
    apply (IH st1); [|done]. by eapply step_in_call.
Qed.

Lemma initial_in_call ths :
  forallb initial_thread ths = true → forallb in_call_has_task ths = true.
Proof.
  rewrite !forallb_forall. intros H x Hx. specialize (H x Hx).
  destruct x as [[? [] ? ?]|?]; simpl in *; done.
Qed.

Lemma total_pos_witness f (ths : list thread) :
  (∀ th, 0 ≤ f th) → 0 < total f ths → ∃ i th, ths !! i = Some th ∧ 0 < f th.
Proof.
  intros Hf. induction ths as [|a l IH]; simpl; [lia|]. intros Hpos.
  destruct (decide (0 < f a)) as [Ha|Ha].
  - by exists 0%nat, a.
  - destruct IH as (i & th & Hi & Hth); [specialize (Hf a); lia|].
    by exists (S i), th.
Qed.

Lemma steps_left_nonneg th : 0 ≤ steps_left th.
Proof. destruct th as [[? [] ? ?]|[[] ?]]; simpl; lia. Qed.

Lemma total_zero_each f (l : list thread) :
  (∀ th, 0 ≤ f th) → total f l = 0 → ∀ th, th ∈ l → f th = 0.
Proof.
  intros Hf. induction l as [|a l IH]; simpl; intros Hz th Hth.
  - by apply elem_of_nil in Hth.
  - pose proof (Hf a). pose proof (total_nonneg f l Hf).
    apply elem_of_cons in Hth as [->|Hth]; [lia|]. apply IH; [lia|done].
Qed.

Ltac fin_settle Hy :=
  first [exact Hy | subst; eexists; reflexivity].

(** Some thread inside an enqueue or a dequeue can run its next
    statement: the owner of the mutex if there is one, any of them
    otherwise. *)
Lemma settle_step st :
  queue_inv st → forallb in_call_has_task (threads st) = true →
  0 < total steps_left (threads st) →
  ∃ tid th th' s' ev,
    threads st !! tid = Some th
    ∧ thread_step tid OsOk th (sched st) = Next (s', th', ev)
    ∧ steps_left th' = steps_left th - 1
    ∧ (∀ x, settles th' x → settles th x)
    ∧ emptySem s' + holds_full th' + took th'
      = emptySem (sched st) + holds_full th + took th
    ∧ fullSem s' + holds_empty th' + wrote th'
      = fullSem (sched st) + holds_empty th + wrote th.
Proof.
  intros Hinv Hwf Hpos.
  destruct (cursors_in_range st Hinv) as [He Hf].
  pose proof Hinv as [Hsz (q & Hq & Hlen & _) Hmx Hown _ _ _ _ _ _].
  assert (HQ0 : bool_decide (queueSize (sched st) = 0) = false)
    by (apply bool_decide_eq_false; lia).
  destruct (lookup_lt_is_Some_2 q (Z.to_nat (fullSlot (sched st)))) as [x Hx]; [lia|].
  assert (Hrd : slot_read q (fullSlot (sched st)) = Some x)
    by (apply slot_read_in; [lia|done]).
  assert (Hwz : slot_write q (fullSlot (sched st)) zero_msg
                = Some (<[Z.to_nat (fullSlot (sched st)) := zero_msg]> q))
    by (apply slot_write_in; lia).
  destruct (queueMutex (sched st)) as [t|] eqn:Hm.
  - destruct (Hown t eq_refl) as (th & Hth & Hcs).
    pose proof (forallb_lookup _ _ _ _ Hwf Hth) as Htask.
    exists t, th.
    destruct th as [[hd pc [|pMsg rest] rets]|[pc m]]; simpl in *.
    + by destruct pc.
    + assert (Hww : slot_write q (emptySlot (sched st)) pMsg
                    = Some (<[Z.to_nat (emptySlot (sched st)) := pMsg]> q))
        by (apply slot_write_in; lia).
      destruct pc; try done; simpl; rewrite ?Hq, ?Hww, ?HQ0;
        eexists _, _, _; (split; [done|]); (split; [reflexivity|]); simpl;
        (split; [lia|]); (split; [intros y Hy; simpl in *; fin_settle Hy|]); split; lia.
    + destruct pc; try done; simpl; rewrite ?Hq, ?Hrd, ?Hwz, ?HQ0;
        eexists _, _, _; (split; [done|]); (split; [reflexivity|]); simpl;
        (split; [lia|]); (split; [intros y Hy; simpl in *; fin_settle Hy|]); split; lia.
  - destruct (total_pos_witness steps_left (threads st) steps_left_nonneg Hpos)
      as (i & th & Hth & Hsl).
    pose proof (forallb_lookup _ _ _ _ Hwf Hth) as Htask.
    assert (Hcs : in_cs th = false).
    { destruct (in_cs th) eqn:Hcs; [|done].
      pose proof (Hmx i th Hth Hcs). congruence. }
    exists i, th.
    destruct th as [[hd pc [|pMsg rest] rets]|[pc m]]; simpl in *.
    + destruct pc; simpl in *; (done || lia).
    + destruct pc; simpl in *; try done; try lia; rewrite ?Hm;
        eexists _, _, _; (split; [done|]); (split; [reflexivity|]); simpl;
        (split; [lia|]); (split; [intros y Hy; simpl in *; fin_settle Hy|]); split; lia.
    + destruct pc; simpl in *; try done; try lia; rewrite ?Hm;
        eexists _, _, _; (split; [done|]); (split; [reflexivity|]); simpl;
        (split; [lia|]); (split; [intros y Hy; simpl in *; fin_settle Hy|]); split; lia.
Qed.

Lemma steps_left_idle th : steps_left th = 0 → idle th = true.
Proof. destruct th as [[? [] ? ?]|[[] ?]]; simpl; (done || lia). Qed.

Lemma steps_left_weights th :
  steps_left th = 0 →
  holds_empty th = 0 ∧ wrote th = 0 ∧ holds_full th = 0 ∧ took th = 0.
Proof. destruct th as [[? [] ? ?]|[[] ?]]; simpl; (done || lia). Qed.

Lemma settles_idle th : steps_left th = 0 → settles th th.
Proof. destruct th as [[? [] ? ?]|[[] ?]]; simpl; (done || lia). Qed.

Lemma sys_step_thread tid o st th s' th' ev :
  threads st !! tid = Some th →
  thread_step tid o th (sched st) = Next (s', th', ev) →
  sys_step tid o st
  = Next (mkSys s' (<[tid := th']> (threads st)) (trace st ++ ((λ e, (tid, e)) <$> ev))).
Proof. intros Hth Hts. unfold sys_step. by rewrite Hth, Hts. Qed.

(** Every thread that is inside an enqueue or a dequeue can be run out
    of it, by statements whose system calls succeed: the threads get
    the mutex one after the other, and none of them waits on a
    semaphore on its way.  The workers that were inside give their
    slots back to [emptySem], the producers theirs to [fullSem]. *)
Lemma settle (n : nat) : ∀ st,
  queue_inv st → forallb in_call_has_task (threads st) = true →
  total steps_left (threads st) = Z.of_nat n →
  ∃ sch st',
    all_ok sch = true ∧ run sch st = Next st'
    ∧ queue_inv st' ∧ forallb in_call_has_task (threads st') = true
    ∧ quiescent st' = true
    ∧ Forall2 settles (threads st) (threads st')
    ∧ emptySem (sched st')
      = emptySem (sched st) + total holds_full (threads st) + total took (threads st)
    ∧ fullSem (sched st')
      = fullSem (sched st) + total holds_empty (threads st) + total wrote (threads st).
Proof.
  induction n as [|n IH]; intros st Hinv Hwf Hn.
  - pose proof (total_zero_each steps_left (threads st) steps_left_nonneg Hn) as Hz.
    exists [], st. split; [done|]. split; [done|]. split; [done|]. split; [done|].
    assert (Hw : ∀ f, (∀ th, steps_left th = 0 → f th = 0) → total f (threads st) = 0).
    { intros f Hf. apply total_zero. intros th Hth. apply Hf, Hz, Hth. }
    split; [|split; [|split]].
    + unfold quiescent. apply forallb_forall. intros th Hth.
      apply steps_left_idle, Hz. by apply list_elem_of_In.
    + apply Forall2_same_length_lookup_2; [done|].
      intros i x y Hx Hy. simplify_eq. apply settles_idle, Hz.
      eapply list_elem_of_lookup_2; eauto.
    + rewrite (Hw holds_full), (Hw took); [lia|..];
        intros th Hth; by destruct (steps_left_weights th Hth) as (? & ? & ? & ?).
    + rewrite (Hw holds_empty), (Hw wrote); [lia|..];
        intros th Hth; by destruct (steps_left_weights th Hth) as (? & ? & ? & ?).
  - destruct (settle_step st Hinv Hwf) as (tid & th & th' & s' & ev & Hth & Hts & Hsl & Hset & He & Hf);
      [lia|].
    pose proof (sys_step_thread tid OsOk st th s' th' ev Hth Hts) as Hstep.
    set (st1 := mkSys s' (<[tid := th']> (threads st)) (trace st ++ ((λ e, (tid, e)) <$> ev)))
      in *.
    assert (Hinv1 : queue_inv st1) by (by eapply (step_inv st tid OsOk th)).
    assert (Hwf1 : forallb in_call_has_task (threads st1) = true)
      by (by eapply step_in_call).
    destruct (IH st1 Hinv1 Hwf1) as (sch & st' & Hok & Hrun & Hinv' & Hwf' & Hq & Hall & He' & Hf').
    { simpl. rewrite (total_insert steps_left _ _ th) by done. lia. }
    exists ((tid, OsOk) :: sch), st'.
    split; [simpl; by rewrite Hok|].
    split; [simpl; by rewrite Hstep|].
    split; [done|]. split; [done|]. split; [done|].
    simpl in He', Hf', Hall.
    rewrite (total_insert holds_full _ _ th), (total_insert took _ _ th) in He' by done.
    rewrite (total_insert holds_empty _ _ th), (total_insert wrote _ _ th) in Hf' by done.
    split; [|split; lia].
    apply Forall2_same_length_lookup in Hall as [Hlen Hall].
    rewrite length_insert in Hlen.
    apply Forall2_same_length_lookup_2; [done|].
    intros i x y Hx Hy.
    destruct (decide (i = tid)) as [->|Hne].
    + simplify_eq. apply Hset. apply (Hall tid); [|done].
      apply list_lookup_insert_eq. eapply lookup_lt_Some; eauto.
    + apply (Hall i); [|done]. by rewrite list_lookup_insert_ne.
Qed.

(** A producer at its [return] returns 0. *)
Lemma return_step st tp h m rest rets :
  threads st !! tp = Some (Producer (mkProducer h PReturn (m :: rest) rets)) →
  ∃ st', sys_step tp OsOk st = Next st'
         ∧ threads st' !! tp = Some (Producer (mkProducer h PCheck rest (rets ++ [0]))).
Proof.
  intros Hth. eexists. split.
  - eapply sys_step_thread; [done|]. simpl. reflexivity.
  - simpl. apply list_lookup_insert_eq. eapply lookup_lt_Some; eauto.
Qed.

(** A producer at its wait, with a unit on [emptySem], completes its
    call. *)
Lemma wait_with_room st tp h m rest rets :
  queue_inv st → forallb in_call_has_task (threads st) = true →
  threads st !! tp = Some (Producer (mkProducer h PWaitEmpty (m :: rest) rets)) →
  0 < emptySem (sched st) →
  ∃ sch st', all_ok sch = true ∧ run sch st = Next st'
             ∧ threads st' !! tp = Some (Producer (mkProducer h PCheck rest (rets ++ [0]))).
Proof.
  intros Hinv Hwf Hth Hroom.
  assert (Hts : thread_step tp OsOk (Producer (mkProducer h PWaitEmpty (m :: rest) rets))
                  (sched st)
                = Next (set_emptySem (emptySem (sched st) - 1) (sched st),
                        Producer (mkProducer h PLock (m :: rest) rets),
                        [ESemWait EmptySem OsOk])).
  { simpl. by rewrite bool_decide_eq_true_2. }
  pose proof (sys_step_thread _ _ _ _ _ _ _ Hth Hts) as Hstep.
  set (st1 := mkSys _ _ _) in Hstep.
  assert (Hinv1 : queue_inv st1) by (by eapply (step_inv st tp OsOk)).
  assert (Hwf1 : forallb in_call_has_task (threads st1) = true) by (by eapply step_in_call).
  assert (Hth1 : threads st1 !! tp = Some (Producer (mkProducer h PLock (m :: rest) rets))).
  { simpl. apply list_lookup_insert_eq. eapply lookup_lt_Some; eauto. }
  pose proof (steps_left_nonneg) as Hnn.
  destruct (settle (Z.to_nat (total steps_left (threads st1))) st1 Hinv1 Hwf1)
    as (sch2 & st2 & Hok2 & Hrun2 & _ & _ & _ & Hall & _).
  { pose proof (total_nonneg steps_left (threads st1) steps_left_nonneg). lia. }
  destruct (Forall2_lookup_l _ _ _ _ _ Hall Hth1) as (y & Hy & Hset). simpl in Hset. subst y.
  destruct (return_step st2 tp h m rest rets Hy) as (st3 & Hstep3 & Hth3).
  exists ((tp, OsOk) :: sch2 ++ [(tp, OsOk)]), st3.
  split; [simpl; apply all_ok_app; done|].
  split; [|done].
  simpl. rewrite Hstep, run_app, Hrun2. simpl. by rewrite Hstep3.
Qed.

Lemma quiescent_insert_idle st tid th s' tr :
  quiescent st = true → idle th = true →
  quiescent (mkSys s' (<[tid := th]> (threads st)) tr) = true.
Proof. intros Hq Hi. unfold quiescent in *. simpl. by apply forallb_insert. Qed.

(** With the queue full and nobody inside an enqueue or a dequeue, a
    worker at its wait dequeues a record, which frees a slot. *)
Lemma worker_frees_a_slot st tw m0 :
  queue_inv st → forallb in_call_has_task (threads st) = true →
  quiescent st = true →
  emptySem (sched st) = 0 →
  threads st !! tw = Some (Worker (mkWorker WWaitFull m0)) →
  ∃ sch st', all_ok sch = true ∧ run sch st = Next st'
             ∧ queue_inv st' ∧ forallb in_call_has_task (threads st') = true
             ∧ 0 < emptySem (sched st')
             ∧ ∀ i th, i ≠ tw → threads st !! i = Some th → idle th = true →
                       threads st' !! i = Some th.
Proof.
  intros Hinv Hwf Hq He Hth.
  destruct (quiescent_sems st Hinv Hq) as (Hsum & _).
  pose proof (inv_size st Hinv) as HQ.
  assert (Hts : thread_step tw OsOk (Worker (mkWorker WWaitFull m0)) (sched st)
                = Next (set_fullSem (fullSem (sched st) - 1) (sched st),
                        Worker (mkWorker WLock m0), [ESemWait FullSem OsOk])).
  { simpl. rewrite bool_decide_eq_true_2 by lia. done. }
  pose proof (sys_step_thread _ _ _ _ _ _ _ Hth Hts) as Hstep.
  set (st1 := mkSys _ _ _) in Hstep.
  assert (Hinv1 : queue_inv st1) by (by eapply (step_inv st tw OsOk)).
  assert (Hwf1 : forallb in_call_has_task (threads st1) = true) by (by eapply step_in_call).
  assert (Hth1 : threads st1 !! tw = Some (Worker (mkWorker WLock m0))).
  { simpl. apply list_lookup_insert_eq. eapply lookup_lt_Some; eauto. }
  destruct (settle (Z.to_nat (total steps_left (threads st1))) st1 Hinv1 Hwf1)
    as (sch2 & st2 & Hok2 & Hrun2 & Hinv2 & Hwf2 & _ & Hall & He2 & _).
  { pose proof (total_nonneg steps_left (threads st1) steps_left_nonneg). lia. }
  exists ((tw, OsOk) :: sch2), st2.
  split; [simpl; done|].
  split; [simpl; by rewrite Hstep|].
  split; [done|]. split; [done|]. split.
  - pose proof (total_ge holds_full (threads st1) tw _ holds_full_nonneg Hth1) as Hge.
    pose proof (total_nonneg took (threads st1) took_nonneg).
    assert (Hes1 : emptySem (sched st1) = 0) by done.
    change (holds_full (Worker (mkWorker WLock m0))) with 1 in Hge. lia.
  - intros i th Hne Hi Hidle.
    assert (Hi1 : threads st1 !! i = Some th) by (simpl; by rewrite list_lookup_insert_ne).
    destruct (Forall2_lookup_l _ _ _ _ _ Hall Hi1) as (y & Hy & Hset).
    rewrite Hy. f_equal.
    destruct th as [[? [] ? ?]|[[] ?]]; simpl in *; done.
Qed.

(** A producer at its wait completes its call, after a worker has made
    room if the queue is full. *)
Lemma wait_completes st tp h m rest rets tw w :
  queue_inv st → forallb in_call_has_task (threads st) = true →
  quiescent st = true →
  threads st !! tp = Some (Producer (mkProducer h PWaitEmpty (m :: rest) rets)) →
  threads st !! tw = Some (Worker w) →
  ∃ sch st', all_ok sch = true ∧ run sch st = Next st'
             ∧ threads st' !! tp = Some (Producer (mkProducer h PCheck rest (rets ++ [0]))).
Proof.
  intros Hinv Hwf Hq Hth Hw.
  destruct (decide (0 < emptySem (sched st))) as [Hroom|Hfull].
  { by eapply wait_with_room. }
  assert (He : emptySem (sched st) = 0) by (destruct (inv_sems st Hinv); lia).
  assert (Hne : tp ≠ tw) by (intros ->; congruence).
  assert (Hidle : idle (Worker w) = true).
  { unfold quiescent in Hq. eapply forallb_lookup; eauto. }
  (* the worker is before its wait, or has a callback to finish first *)
  assert (Hready : ∃ sch0 st0 m0,
            all_ok sch0 = true ∧ run sch0 st = Next st0
            ∧ queue_inv st0 ∧ forallb in_call_has_task (threads st0) = true
            ∧ quiescent st0 = true ∧ emptySem (sched st0) = 0
            ∧ threads st0 !! tw = Some (Worker (mkWorker WWaitFull m0))
            ∧ threads st0 !! tp = Some (Producer (mkProducer h PWaitEmpty (m :: rest) rets))).
  { destruct w as [pc m0]. destruct pc; simpl in Hidle; try done.
    - exists [], st, m0. split_and!; done.
    - assert (Hts : thread_step tw OsOk (Worker (mkWorker WDispatch m0)) (sched st)
                    = Next (sched st, Worker (mkWorker WWaitFull m0), dispatch m0)) by done.
      pose proof (sys_step_thread _ _ _ _ _ _ _ Hw Hts) as Hstep.
      eexists [(tw, OsOk)], _, m0.
      split; [done|]. split; [simpl; by rewrite Hstep|].
      split; [by eapply (step_inv st tw OsOk)|].
      split; [by eapply step_in_call|].
      split; [by apply quiescent_insert_idle|].
      split; [done|]. simpl. split.
      + apply list_lookup_insert_eq. eapply lookup_lt_Some; eauto.
      + by rewrite list_lookup_insert_ne. }
  destruct Hready as (sch0 & st0 & m0 & Hok0 & Hrun0 & Hinv0 & Hwf0 & Hq0 & He0 & Hw0 & Hth0).
  destruct (worker_frees_a_slot st0 tw m0 Hinv0 Hwf0 Hq0 He0 Hw0)
    as (sch1 & st1 & Hok1 & Hrun1 & Hinv1 & Hwf1 & Hroom1 & Hsame).
  pose proof (Hsame tp _ Hne Hth0 eq_refl) as Hth1.
  destruct (wait_with_room st1 tp h m rest rets Hinv1 Hwf1 Hth1 Hroom1)
    as (sch2 & st2 & Hok2 & Hrun2 & Hth2).
  exists (sch0 ++ sch1 ++ sch2), st2.
  split; [by repeat apply all_ok_app|].
  split; [|done].
  by rewrite run_app, Hrun0, run_app, Hrun1.
Qed.

(** Whatever the threads are doing, a call of [taosScheduleTask] that a
    producer is in, or is about to make, can complete. *)
Lemma pending_call_completes st tp p m rest tw w :
  queue_inv st → forallb in_call_has_task (threads st) = true →
  threads st !! tp = Some (Producer p) → p_todo p = m :: rest →
  threads st !! tw = Some (Worker w) →
  ∃ sch st', all_ok sch = true ∧ run sch st = Next st'
             ∧ threads st' !! tp
               = Some (Producer (mkProducer (p_handle p) PCheck rest (p_rets p ++ [0]))).
Proof.
  intros Hinv Hwf Hth Htodo Hw.
  destruct (settle (Z.to_nat (total steps_left (threads st))) st Hinv Hwf)
    as (sch1 & st1 & Hok1 & Hrun1 & Hinv1 & Hwf1 & Hq1 & Hall & _).
  { pose proof (total_nonneg steps_left (threads st) steps_left_nonneg). lia. }
  destruct (Forall2_lookup_l _ _ _ _ _ Hall Hth) as (y & Hy & Hset).
  destruct (Forall2_lookup_l _ _ _ _ _ Hall Hw) as (yw & Hyw & Hsetw).
  assert (Hw1 : ∃ w1, threads st1 !! tw = Some (Worker w1)).
  { destruct w as [[] m0]; simpl in Hsetw;
      first [subst yw; by eexists | destruct Hsetw as [? ->]; by eexists]. }
  destruct Hw1 as (w1 & Hw1). clear Hyw Hsetw yw.
  destruct p as [h pc todo rets]. simpl in Htodo. subst todo. simpl.
  assert (Hcases :
    (∃ sch2 st2, all_ok sch2 = true ∧ run sch2 st1 = Next st2
                 ∧ threads st2 !! tp
                   = Some (Producer (mkProducer h PCheck rest (rets ++ [0]))))).
  { destruct pc; simpl in Hset; subst y.
    - (* line 156 *)
      destruct (decide (h = NULL)) as [->|Hh].
      + assert (Hts : thread_step tp OsOk
                        (Producer (mkProducer NULL PCheck (m :: rest) rets)) (sched st1)
                      = Next (sched st1, Producer (mkProducer NULL PCheck rest (rets ++ [0])),
                              [uError "sched is not ready, msg:%p is dropped" []; EReturn 0]))
          by done.
        pose proof (sys_step_thread _ _ _ _ _ _ _ Hy Hts) as Hstep.
        eexists [(tp, OsOk)], _. split; [done|]. split; [simpl; by rewrite Hstep|].
        simpl. apply list_lookup_insert_eq. eapply lookup_lt_Some; eauto.
      + assert (Hts : thread_step tp OsOk
                        (Producer (mkProducer h PCheck (m :: rest) rets)) (sched st1)
                      = Next (sched st1, Producer (mkProducer h PWaitEmpty (m :: rest) rets), [])).
        { simpl. by rewrite bool_decide_eq_false_2. }
        pose proof (sys_step_thread _ _ _ _ _ _ _ Hy Hts) as Hstep.
        set (st2 := mkSys _ _ _) in Hstep.
        assert (Hne : tp ≠ tw) by (intros ->; congruence).
        destruct (wait_completes st2 tp h m rest rets tw w1)
          as (sch3 & st3 & Hok3 & Hrun3 & Hth3).
        * by eapply (step_inv st1 tp OsOk).
        * by eapply step_in_call.
        * by apply quiescent_insert_idle.
        * simpl. apply list_lookup_insert_eq. eapply lookup_lt_Some; eauto.
        * simpl. by rewrite list_lookup_insert_ne.
        * exists ((tp, OsOk) :: sch3), st3. split; [done|]. split; [|done].
          simpl. by rewrite Hstep.
    - by eapply wait_completes.
    - destruct (return_step st1 tp h m rest rets Hy) as (st2 & Hstep & Hth2).
      exists [(tp, OsOk)], st2. split; [done|]. split; [simpl; by rewrite Hstep|done].
    - destruct (return_step st1 tp h m rest rets Hy) as (st2 & Hstep & Hth2).
      exists [(tp, OsOk)], st2. split; [done|]. split; [simpl; by rewrite Hstep|done].
    - destruct (return_step st1 tp h m rest rets Hy) as (st2 & Hstep & Hth2).
      exists [(tp, OsOk)], st2. split; [done|]. split; [simpl; by rewrite Hstep|done].
    - destruct (return_step st1 tp h m rest rets Hy) as (st2 & Hstep & Hth2).
      exists [(tp, OsOk)], st2. split; [done|]. split; [simpl; by rewrite Hstep|done].
    - destruct (return_step st1 tp h m rest rets Hy) as (st2 & Hstep & Hth2).
      exists [(tp, OsOk)], st2. split; [done|]. split; [simpl; by rewrite Hstep|done].
    - destruct (return_step st1 tp h m rest rets Hy) as (st2 & Hstep & Hth2).
      exists [(tp, OsOk)], st2. split; [done|]. split; [simpl; by rewrite Hstep|done]. }
  destruct Hcases as (sch2 & st2 & Hok2 & Hrun2 & Hth2).
  exists (sch1 ++ sch2), st2.
  split; [by apply all_ok_app|]. split; [|done].
  by rewrite run_app, Hrun1.
Qed.

(** X2. No deadlock.  Callbacks are taken to return without using the
    queue themselves, as the worker's dispatch step has it.  Then in
    every state a fresh scheduler reaches under normal operation,
    whatever the threads are in the middle of, a call of
    [taosScheduleTask] that a producer is in or is about to make can
    complete, provided there is a worker: there is a continuation, of
    statements whose system calls all succeed, at the end of which the
    call has returned 0.  The threads inside an enqueue or a dequeue
    get the mutex one after the other and leave; if the queue is then
    full a worker dequeues a record, and the producer takes the slot.
    So the producers and the workers are never all stuck on the
    semaphores and the mutex. *)
Theorem no_deadlock env Q W lbl ths st0 sch st tp p m rest tw w :
  1 ≤ Q ≤ INT_MAX →
  fresh_system env Q W lbl ths = Some st0 →
  normal_schedule sch st0 = true →
  run sch st0 = Next st →
  threads st !! tp = Some (Producer p) → p_todo p = m :: rest →
  threads st !! tw = Some (Worker w) →
  ∃ sch' st',
    all_ok sch' = true ∧ run sch' st = Next st'
    ∧ threads st' !! tp
      = Some (Producer (mkProducer (p_handle p) PCheck rest (p_rets p ++ [0]))).
Proof.
  intros HQ Hfresh Hn Hrun Hp Htodo Hw.
  destruct (fresh_system_inv _ _ _ _ _ _ HQ Hfresh) as (Hinv0 & _ & _ & _ & Hths & _ & Hinit).
  pose proof (run_inv _ _ _ Hinv0 Hn Hrun) as Hinv.
  assert (Hwf : forallb in_call_has_task (threads st) = true).
  { eapply run_in_call; [|exact Hrun]. rewrite Hths. by apply initial_in_call. }
  by eapply pending_call_completes.
Qed.

Lemma no_deadlock_witness :
  ∃ sch' st',
    all_ok sch' = true ∧ run sch' demo_tight = Next st'
    ∧ threads st' !! 0%nat
      = Some (Producer (mkProducer 4096 PCheck [] ([0; 0] ++ [0]))).
Proof.
  apply (no_deadlock env_ok 1 1 "q" demo_tight_threads demo_tight_system demo_tight_schedule
           demo_tight 0%nat (mkProducer 4096 PWaitEmpty [demo_task1] [0; 0]) demo_task1 []
           1%nat (mkWorker WDispatch demo_task1));
    [unfold INT_MAX; lia|by vm_compute..].
Defined.

(** ** Backpressure *)

Lemma step_calls tid o st st' :
  calls_inv st → sys_step tid o st = Next st' → calls_inv st'.
Proof.
  intros [Hnull Hsum] Hstep. unfold sys_step in Hstep.
  destruct (threads st !! tid) as [th|] eqn:Hth; [|done].
  pose proof (forallb_lookup _ _ _ _ Hnull Hth) as Hnc.
  unfold calls_inv, count_enq in *.
  destruct th as [[hd pc [|pMsg rest] rets]|[pc m]]; simpl in Hstep; [done| |].
  - destruct pc; simpl in Hstep, Hnc;
      repeat (case_bool_decide || case_match); simplify_eq/=;
      (split; [apply forallb_insert; [done|simpl; repeat case_bool_decide; done]|]);
      rewrite !(total_insert _ _ _ _ _ Hth), enqueued_app, length_app; simpl;
      repeat case_bool_decide; simplify_eq; rewrite ?length_app; simpl; try lia.
  - destruct (taosProcessSchedQueue _ _ _ _ _) as [[[[s1 pc1] m1] ev1]| |] eqn:Hw; [|done..].
    simplify_eq/=. split; [by apply forallb_insert|].
    rewrite !(total_insert _ _ _ _ _ Hth), enqueued_app.
    rewrite (worker_writes_nothing _ _ _ _ _ _ _ _ _ tid Hw). simpl. rewrite app_nil_r. lia.
Qed.

Lemma run_calls sch st st' : calls_inv st → run sch st = Next st' → calls_inv st'.
Proof.
  revert st. induction sch as [|[tid o] sch IH]; intros st Hc Hrun; simpl in *.
  - by simplify_eq.
  - destruct (sys_step tid o st) as [st1| |] eqn:Hstep; [|done..].
    apply (IH st1); [|done]. by eapply step_calls.
Qed.

Lemma initial_calls s ths :
  forallb initial_thread ths = true → calls_inv (mkSys s ths []).
Proof.
  intros Hinit. unfold calls_inv, count_enq. simpl. split.
  - rewrite forallb_forall in Hinit |- *. intros x Hx. specialize (Hinit x Hx).
    destruct x as [[? [] ? ?]|?]; simpl in *; rewrite ?orb_true_r; done.
  - rewrite !total_zero; [done|..]; intros th Hth;
      rewrite forallb_forall in Hinit; apply list_elem_of_In in Hth;
      specialize (Hinit th Hth);
      destruct th as [[? [] ? []]|?]; simpl in *; repeat case_bool_decide; done.
Qed.

Lemma completed_nonneg th : 0 ≤ completed th.
Proof. destruct th as [[? ? ? ?]|?]; simpl; repeat case_bool_decide; lia. Qed.

Lemma written_pending_nonneg th : 0 ≤ written_pending th.
Proof. destruct th as [[? [] ? ?]|?]; simpl; lia. Qed.

(** X3. Backpressure.  In every state a fresh scheduler reaches under
    normal operation, every call of [taosScheduleTask] on a non-null
    handle that has returned has written its record; the records
    written are at most [Q] ahead of the records read; so as long as no
    worker has read a record at most [Q] calls have returned. *)
Theorem backpressure env Q W lbl ths st0 sch st :
  1 ≤ Q ≤ INT_MAX →
  fresh_system env Q W lbl ths = Some st0 →
  normal_schedule sch st0 = true →
  run sch st0 = Next st →
  total completed (threads st) ≤ count_enq st
  ∧ count_enq st ≤ count_deq st + Q
  ∧ (dequeued (trace st) = [] → total completed (threads st) ≤ Q).
Proof.
  intros HQ Hfresh Hn Hrun.
  destruct (fresh_system_inv _ _ _ _ _ _ HQ Hfresh) as (Hinv0 & HQ0 & _ & _ & Hths & Htr & Hinit).
  pose proof (run_inv _ _ _ Hinv0 Hn Hrun) as Hinv.
  pose proof (run_queueSize _ _ _ Hrun) as HQs. rewrite HQ0 in HQs.
  assert (Hc0 : calls_inv st0).
  { rewrite <- (system_eta st0), Hths, Htr. by apply initial_calls. }
  destruct (run_calls _ _ _ Hc0 Hrun) as [_ Hsum].
  pose proof (total_nonneg written_pending (threads st) written_pending_nonneg).
  destruct Hinv as [_ _ _ _ _ _ _ [Hes Hfs] Hfree Hused].
  pose proof (total_nonneg holds_empty (threads st) holds_empty_nonneg).
  pose proof (total_nonneg took (threads st) took_nonneg).
  rewrite HQs in Hfree.
  split; [lia|]. split; [lia|].
  intros Hnone. unfold count_deq in *. rewrite Hnone in *. simpl in *. lia.
Qed.

Lemma backpressure_witness :
  total completed (threads demo_full) ≤ count_enq demo_full
  ∧ count_enq demo_full ≤ count_deq demo_full + 2
  ∧ (dequeued (trace demo_full) = [] → total completed (threads demo_full) ≤ 2).
Proof.
  apply (backpressure env_ok 2 1 "q" demo_threads demo_system (alone 0 16) demo_full);
    [unfold INT_MAX; lia|by vm_compute..].
Defined.

(** ** A call meets a queue with room, or a full one *)

(** X4. A call meets a queue with room, or a full one.  In a reachable
    state with no thread inside an enqueue or a dequeue, a call of
    [taosScheduleTask] on a non-null handle, run alone: with fewer than
    [Q] records pending it completes in its eight statements, returns 0
    and appends its record to the records written; with [Q] records
    pending it blocks in the wait on [emptySem] (line 161), however
    often that wait is interrupted first. *)
Theorem submit_completes_or_blocks env Q W lbl ths st0 sch st tid h m rest rets :
  1 ≤ Q ≤ INT_MAX →
  fresh_system env Q W lbl ths = Some st0 →
  normal_schedule sch st0 = true →
  run sch st0 = Next st →
  quiescent st = true →
  threads st !! tid = Some (Producer (mkProducer h PCheck (m :: rest) rets)) →
  h ≠ NULL →
  (count_enq st - count_deq st < Q →
   ∃ st', run (alone tid 8) st = Next st'
          ∧ threads st' = <[tid := Producer (mkProducer h PCheck rest (rets ++ [0]))]> (threads st)
          ∧ enqueued (trace st') = enqueued (trace st) ++ [m]
          ∧ dequeued (trace st') = dequeued (trace st))
  ∧ (count_enq st - count_deq st = Q →
     ∀ n, run ((tid, OsOk) :: replicate n (tid, OsFail EINTR) ++ [(tid, OsOk)]) st = Blocked).
Proof.
  intros HQ Hfresh Hn Hrun Hq Hth Hh.
  destruct (fresh_system_inv _ _ _ _ _ _ HQ Hfresh) as (Hinv0 & HQ0 & _).
  pose proof (run_inv _ _ _ Hinv0 Hn Hrun) as Hinv.
  pose proof (run_queueSize _ _ _ Hrun) as HQs. rewrite HQ0 in HQs.
  split.
  - intros Hroom. apply producer_call; try done. by rewrite HQs.
  - intros Hfull n.
    destruct (quiescent_sems st Hinv Hq) as (Hsum & Hfs & _). rewrite HQs in Hsum.
    assert (He : emptySem (sched st) = 0) by lia.
    assert (Hlt : (tid < length (threads st))%nat) by (eapply lookup_lt_Some; eauto).
    simpl. unfold sys_step at 1. rewrite Hth. simpl.
    rewrite (bool_decide_eq_false_2 _ Hh). simpl.
    set (st1 := mkSys _ _ _).
    assert (Hth1 : threads st1 !! tid
                   = Some (Producer (mkProducer h PWaitEmpty (m :: rest) rets)))
      by (by apply list_lookup_insert_eq).
    assert (He1 : emptySem (sched st1) = 0) by done.
    clearbody st1. clear -Hth1 He1.
    revert st1 Hth1 He1. induction n as [|n IH]; intros st1 Hth1 He1; simpl.
    + unfold sys_step. rewrite Hth1. simpl. rewrite He1. done.
    + unfold sys_step at 1. rewrite Hth1. simpl.
      apply IH; simpl; [|done].
      apply list_lookup_insert_eq. eapply lookup_lt_Some; eauto.
Qed.

Lemma submit_completes_or_blocks_witness :
  (count_enq demo_half - count_deq demo_half < 2 →
   ∃ st', run (alone 0 8) demo_half = Next st'
          ∧ threads st'
            = <[0%nat := Producer (mkProducer 4096 PCheck [] ([0] ++ [0]))]> (threads demo_half)
          ∧ enqueued (trace st') = enqueued (trace demo_half) ++ [demo_task2]
          ∧ dequeued (trace st') = dequeued (trace demo_half))
  ∧ (count_enq demo_half - count_deq demo_half = 2 →
     ∀ n, run ((0%nat, OsOk) :: replicate n (0%nat, OsFail EINTR) ++ [(0%nat, OsOk)]) demo_half
          = Blocked).
Proof.
  apply (submit_completes_or_blocks env_ok 2 1 "q" demo_threads demo_system (alone 0 8)
           demo_half 0%nat 4096 demo_task2 [] [0]);
    [unfold INT_MAX; lia|by vm_compute..].
Defined.

(** ** Whatever is in the queue can be delivered *)

(** X5. Whatever is in the queue can be delivered.  From a reachable
    state with no thread inside an enqueue or a dequeue, a worker that
    is at its wait, run alone with system calls that succeed, reads
    every record written so far and nothing else: no record is lost or
    duplicated, whatever the earlier interleaving was. *)
Theorem worker_drains env Q W lbl ths st0 sch st tid m0 :
  1 ≤ Q ≤ INT_MAX →
  fresh_system env Q W lbl ths = Some st0 →
  normal_schedule sch st0 = true →
  run sch st0 = Next st →
  quiescent st = true →
  threads st !! tid = Some (Worker (mkWorker WWaitFull m0)) →
  ∃ sch' st', all_ok sch' = true ∧ run sch' st = Next st'
              ∧ enqueued (trace st') = enqueued (trace st)
              ∧ dequeued (trace st') = enqueued (trace st).
Proof.
  intros HQ Hfresh Hn Hrun Hq Hth.
  destruct (fresh_system_inv _ _ _ _ _ _ HQ Hfresh) as (Hinv0 & _).
  pose proof (run_inv _ _ _ Hinv0 Hn Hrun) as Hinv.
  assert (Hle : 0 ≤ count_enq st - count_deq st).
  { destruct Hinv as [_ _ _ _ _ _ _ [Hes Hfs] _ Hused].
    pose proof (total_nonneg wrote (threads st) wrote_nonneg).
    pose proof (total_nonneg holds_full (threads st) holds_full_nonneg). lia. }
  destruct (dequeue_all tid (Z.to_nat (count_enq st - count_deq st)) st m0 Hinv Hq Hth)
    as (sch' & st' & Hok & Hrun' & Hinv' & Henq & Hcnt); [lia|].
  exists sch', st'. split; [done|]. split; [done|]. split; [done|].
  pose proof (inv_fifo st' Hinv') as Hfifo.
  unfold count_enq, count_deq in Hcnt. apply Nat2Z.inj in Hcnt.
  rewrite Hfifo, Hcnt, firstn_all. done.
Qed.

Lemma worker_drains_witness :
  ∃ sch' st', all_ok sch' = true ∧ run sch' demo_full = Next st'
              ∧ enqueued (trace st') = enqueued (trace demo_full)
              ∧ dequeued (trace st') = enqueued (trace demo_full).
Proof.
  apply (worker_drains env_ok 2 1 "q" demo_threads demo_system (alone 0 16) demo_full
           1%nat zero_msg);
    [unfold INT_MAX; lia|by vm_compute..].
Defined.

(** ** Several producers *)

Lemma written_by_app tid tr1 tr2 :
  written_by tid (tr1 ++ tr2) = written_by tid tr1 ++ written_by tid tr2.
Proof. apply omap_app. Qed.

Lemma written_by_other tid tid' (ev : list event) :
  tid' ≠ tid → written_by tid ((λ e, (tid', e)) <$> ev) = [].
Proof.
  intros Hne. induction ev as [|e ev IH]; simpl; [done|].
  unfold written_by in *. simpl. rewrite bool_decide_eq_false_2 by done. exact IH.
Qed.

Lemma producer_progress_step tid hd ts tid' o st st' :
  hd ≠ NULL →
  producer_progress tid hd ts st →
  sys_step tid' o st = Next st' →
  producer_progress tid hd ts st'.
Proof.
  intros Hhd (p & Hth & Hh & Hw) Hstep. unfold sys_step in Hstep.
  destruct (threads st !! tid') as [th'|] eqn:Hth'; [|done].
  destruct (thread_step tid' o th' (sched st)) as [[[s1 th1] ev]| |] eqn:Hts; [|done..].
  simplify_eq. unfold producer_progress. simpl.
  destruct (decide (tid' = tid)) as [->|Hne].
  - rewrite list_lookup_insert_eq by (eapply lookup_lt_Some; eauto).
    rewrite Hth in Hth'. simplify_eq.
    destruct p as [hd pc [|pMsg rest] rets]; simpl in *; [done|].
    destruct pc; simpl in Hts; repeat (case_bool_decide || case_match); simplify_eq/=;
      (eexists; split; [done|]; split; [done|];
       rewrite written_by_app; unfold written_by at 2; simpl;
       rewrite ?bool_decide_eq_true_2 by done; simpl; rewrite ?app_nil_r; try done).
    unfold unwritten; simpl. by rewrite <- app_assoc.
  - rewrite list_lookup_insert_ne by done.
    exists p. split; [done|]. split; [done|].
    rewrite written_by_app, written_by_other by done. by rewrite app_nil_r.
Qed.

Lemma producer_progress_run tid hd ts sch st st' :
  hd ≠ NULL →
  producer_progress tid hd ts st →
  run sch st = Next st' →
  producer_progress tid hd ts st'.
Proof.
  intros Hhd. revert st. induction sch as [|[t o] sch IH]; intros st Hp Hrun; simpl in *.
  - by simplify_eq.
  - destruct (sys_step t o st) as [st1| |] eqn:Hstep; [|done..].
    apply (IH st1); [|done]. by eapply producer_progress_step.
Qed.

(** X6. Several producers.  With any number of producers and workers,
    the records read are always the first so many of the records
    written, in the order of the writes on line 172; and the records a
    producer has written, in that order, followed by those it has not
    written yet, are the records it was given: the queue keeps the order
    of each producer, and the order between producers is the order in
    which they held the lock. *)
Theorem producers_keep_their_order env Q W lbl ths st0 sch st :
  1 ≤ Q ≤ INT_MAX →
  fresh_system env Q W lbl ths = Some st0 →
  normal_schedule sch st0 = true →
  run sch st0 = Next st →
  dequeued (trace st) = take (length (dequeued (trace st))) (enqueued (trace st))
  ∧ ∀ tid p0, ths !! tid = Some (Producer p0) → p_handle p0 ≠ NULL →
      ∃ p, threads st !! tid = Some (Producer p)
           ∧ written_by tid (trace st) ++ unwritten p = p_todo p0.
Proof.
  intros HQ Hfresh Hn Hrun.
  destruct (fresh_system_inv _ _ _ _ _ _ HQ Hfresh) as (Hinv0 & _ & _ & _ & Hths & Htr & Hinit).
  pose proof (run_inv _ _ _ Hinv0 Hn Hrun) as Hinv.
  split; [by apply inv_fifo|].
  intros tid p0 Hp0 Hh.
  assert (Hp : producer_progress tid (p_handle p0) (p_todo p0) st0).
  { exists p0. rewrite Hths, Htr. split; [done|]. split; [done|].
    pose proof (forallb_lookup _ _ _ _ Hinit Hp0) as Hi. simpl in Hi.
    apply andb_true_iff in Hi as [Hpc _]. apply bool_decide_eq_true in Hpc.
    unfold unwritten. rewrite Hpc. done. }
  destruct (producer_progress_run _ _ _ _ _ _ Hh Hp Hrun) as (p & Hth & _ & Hw).
  by exists p.
Qed.

Lemma producers_keep_their_order_witness :
  dequeued (trace demo_pair_final)
  = take (length (dequeued (trace demo_pair_final))) (enqueued (trace demo_pair_final))
  ∧ ∀ tid p0, demo_pair_threads !! tid = Some (Producer p0) → p_handle p0 ≠ NULL →
      ∃ p, threads demo_pair_final !! tid = Some (Producer p)
           ∧ written_by tid (trace demo_pair_final) ++ unwritten p = p_todo p0.
Proof.
  apply (producers_keep_their_order env_ok 2 1 "q" demo_pair_threads demo_pair_system
           demo_pair_schedule demo_pair_final);
    [unfold INT_MAX; lia|by vm_compute..].
Defined.

(** ** Interrupted and failed waits *)

(** X7. Interrupted waits are retried.  Any number of waits that fail
    with [EINTR] before the wait on [emptySem] (lines 161-167) or on
    [fullSem] (lines 123-130) change nothing but the log: the call, and
    the iteration, go on exactly as without them, after one trace line
    for each interruption. *)
Theorem interrupted_waits_are_retried me n :
  (∀ os qhandle pMsg s,
     exec_task me (replicate n (OsFail EINTR) ++ os) qhandle pMsg PWaitEmpty s
     = match exec_task me os qhandle pMsg PWaitEmpty s with
       | Next (s', c, ev) =>
           Next (s', c,
                 interrupted n EmptySem "wait %s emptySem was interrupted" (label s) ++ ev)
       | Blocked => Blocked
       | Fault => Fault
       end)
  ∧ (∀ os m s,
       exec_worker me (replicate n (OsFail EINTR) ++ os) WWaitFull m s
       = match exec_worker me os WWaitFull m s with
         | Next (s', pc, m', ev) =>
             Next (s', pc, m',
                   interrupted n FullSem "wait %s fullSem was interrupted" (label s) ++ ev)
         | Blocked => Blocked
         | Fault => Fault
         end).
Proof.
  split.
  - intros os qhandle pMsg s. induction n as [|n IH]; simpl.
    + by destruct (exec_task _ _ _ _ _ _) as [[[? ?] ?]| |].
    + rewrite IH. by destruct (exec_task me os _ _ _ _) as [[[? ?] ?]| |].
  - intros os m s. induction n as [|n IH]; simpl.
    + by destruct (exec_worker _ _ _ _ _) as [[[[? ?] ?] ?]| |].
    + rewrite IH. by destruct (exec_worker me os _ _ _) as [[[[? ?] ?] ?]| |].
Qed.

(** X8. A wait that fails for another reason than [EINTR] is logged and
    walked past (the [break] on line 164 and the fall-through on line
    129): the producer writes its record and posts [fullSem] although it
    took no unit of [emptySem], and the worker reads, clears and hands
    on the slot at [fullSlot] and posts [emptySem] although it took no
    unit of [fullSem]. *)
Theorem failed_wait_is_walked_past me e qhandle pMsg m0 s q x :
  e ≠ EINTR →
  queueMutex s = None →
  queue s = Some q →
  Z.of_nat (length q) = queueSize s →
  1 ≤ queueSize s ≤ INT_MAX →
  0 ≤ emptySlot s < queueSize s →
  0 ≤ fullSlot s < queueSize s →
  q !! Z.to_nat (fullSlot s) = Some x →
  exec_task me (OsFail e :: replicate 6 OsOk) qhandle pMsg PWaitEmpty s
  = Next (mkSched (label s) (emptySem s) (fullSem s + 1) None (fullSlot s)
            ((emptySlot s + 1) `mod` queueSize s)
            (queueSize s) (numOfThreads s) (qthread s)
            (Some (<[Z.to_nat (emptySlot s) := pMsg]> q)) (pTmrCtrl s) (pTimer s),
          Return 0,
          [ESemWait EmptySem (OsFail e);
           uError "wait %s emptySem failed(%s)" [AStr (label s); AErrno e];
           ELock OsOk; EWrite (emptySlot s) pMsg;
           ESetEmptySlot ((emptySlot s + 1) `mod` queueSize s);
           EUnlock OsOk; ESemPost FullSem OsOk; EReturn 0])
  ∧ exec_worker me (OsFail e :: replicate 7 OsOk) WWaitFull m0 s
    = Next (mkSched (label s) (emptySem s + 1) (fullSem s) None
              ((fullSlot s + 1) `mod` queueSize s) (emptySlot s)
              (queueSize s) (numOfThreads s) (qthread s)
              (Some (<[Z.to_nat (fullSlot s) := zero_msg]> q)) (pTmrCtrl s) (pTimer s),
            WWaitFull, x,
            [ESemWait FullSem (OsFail e);
             uError "wait %s fullSem failed(%s)" [AStr (label s); AErrno e];
             ELock OsOk; ERead (fullSlot s) x; EClear (fullSlot s);
             ESetFullSlot ((fullSlot s + 1) `mod` queueSize s);
             EUnlock OsOk; ESemPost EmptySem OsOk] ++ dispatch x).
Proof.
  intros He Hmx Hq Hlen HQ Hes Hfs Hx.
  assert (Hrd : slot_read q (fullSlot s) = Some x) by (apply slot_read_in; [lia|done]).
  assert (Hwr : slot_write q (fullSlot s) zero_msg
                = Some (<[Z.to_nat (fullSlot s) := zero_msg]> q))
    by (apply slot_write_in; lia).
  assert (Hww : slot_write q (emptySlot s) pMsg
                = Some (<[Z.to_nat (emptySlot s) := pMsg]> q))
    by (apply slot_write_in; lia).
  assert (Hae : c_rem (c_add (emptySlot s) 1) (queueSize s)
                = (emptySlot s + 1) `mod` queueSize s) by (by apply advance_in_range).
  assert (Haf : c_rem (c_add (fullSlot s) 1) (queueSize s)
                = (fullSlot s + 1) `mod` queueSize s) by (by apply advance_in_range).
  assert (HQ0 : bool_decide (queueSize s = 0) = false) by (apply bool_decide_eq_false; lia).
  split;
    repeat (progress (simpl;
      rewrite ?(bool_decide_eq_true_2 (e ≠ EINTR)) by done;
      rewrite ?(bool_decide_eq_false_2 (e = EINTR)) by done;
      rewrite ?Hmx, ?Hq, ?Hrd, ?Hwr, ?Hww, ?HQ0, ?Hae, ?Haf));
    rewrite ?app_nil_r; reflexivity.
Qed.

Lemma failed_wait_is_walked_past_witness :
  exec_task 0 (OsFail 22 :: replicate 6 OsOk) 4096 demo_task2 PWaitEmpty demo_loaded
  = Next (mkSched (label demo_loaded) (emptySem demo_loaded) (fullSem demo_loaded + 1) None
            (fullSlot demo_loaded)
            ((emptySlot demo_loaded + 1) `mod` queueSize demo_loaded)
            (queueSize demo_loaded) (numOfThreads demo_loaded) (qthread demo_loaded)
            (Some (<[Z.to_nat (emptySlot demo_loaded) := demo_task2]> [demo_task1; zero_msg]))
            (pTmrCtrl demo_loaded) (pTimer demo_loaded),
          Return 0,
          [ESemWait EmptySem (OsFail 22);
           uError "wait %s emptySem failed(%s)" [AStr (label demo_loaded); AErrno 22];
           ELock OsOk; EWrite (emptySlot demo_loaded) demo_task2;
           ESetEmptySlot ((emptySlot demo_loaded + 1) `mod` queueSize demo_loaded);
           EUnlock OsOk; ESemPost FullSem OsOk; EReturn 0])
  ∧ exec_worker 0 (OsFail 22 :: replicate 7 OsOk) WWaitFull zero_msg demo_loaded
    = Next (mkSched (label demo_loaded) (emptySem demo_loaded + 1) (fullSem demo_loaded) None
              ((fullSlot demo_loaded + 1) `mod` queueSize demo_loaded) (emptySlot demo_loaded)
              (queueSize demo_loaded) (numOfThreads demo_loaded) (qthread demo_loaded)
              (Some (<[Z.to_nat (fullSlot demo_loaded) := zero_msg]> [demo_task1; zero_msg]))
              (pTmrCtrl demo_loaded) (pTimer demo_loaded),
            WWaitFull, demo_task1,
            [ESemWait FullSem (OsFail 22);
             uError "wait %s fullSem failed(%s)" [AStr (label demo_loaded); AErrno 22];
             ELock OsOk; ERead (fullSlot demo_loaded) demo_task1; EClear (fullSlot demo_loaded);
             ESetFullSlot ((fullSlot demo_loaded + 1) `mod` queueSize demo_loaded);
             EUnlock OsOk; ESemPost EmptySem OsOk] ++ dispatch demo_task1).
Proof.
  apply (failed_wait_is_walked_past 0 22 4096 demo_task2 zero_msg demo_loaded
           [demo_task1; zero_msg] demo_task1);
    (done || (unfold INT_MAX; simpl; lia)).
Defined.

(** ** Construction followed by shutdown *)

Lemma create_workers_true env lbl (n : nat) : ∀ k s tb s' ev,
  0 ≤ k → k + Z.of_nat n ≤ INT_MAX →
  qthread s = Some tb → numOfThreads s = k →
  create_workers env lbl (seqZ k (Z.of_nat n)) s = (s', ev, true) →
  same_queue s s' ∧ numOfThreads s' = k + Z.of_nat n
  ∧ ev = (λ i, EThreadCreate i 0 (env_thread_create env i).2) <$> seqZ k (Z.of_nat n)
  ∧ ∃ tb', qthread s' = Some tb' ∧ length tb' = length tb
     ∧ (∀ i, k ≤ i < k + Z.of_nat n → (Z.to_nat i < length tb)%nat →
             tb' !! Z.to_nat i = Some (env_thread_create env i).2)
     ∧ (∀ j, (j < Z.to_nat k)%nat → tb' !! j = tb !! j).
Proof.
  induction n as [|n IH]; intros k s tb s' ev Hk Hmax Htb Hnum H.
  - rewrite seqZ_nil in H |- * by done. simpl in H. simplify_eq.
    split; [by repeat split|]. split; [lia|]. split; [done|].
    exists tb. split; [done|]. split; [done|]. split; [intros; lia|done].
  - rewrite seqZ_cons in H |- * by lia. simpl in H.
    replace (Z.pred (Z.of_nat (S n))) with (Z.of_nat n) in * by lia.
    destruct (env_thread_create env k) as [code th] eqn:Hc.
    case_bool_decide as Hcode; [done|].
    destruct (create_workers _ _ _ _) as [[s2 ev2] ok2] eqn:Hrec. simplify_eq.
    rewrite Htb in Hrec. simpl in Hrec.
    unfold INT_MAX in Hmax. unfold c_add in Hrec. rewrite wrap32_id in Hrec by lia.
    apply IH with (tb := <[Z.to_nat (numOfThreads s) := th]> tb) in Hrec;
      [|lia|unfold INT_MAX; lia|done|simpl; lia].
    destruct Hrec as (Hsame & Hnum' & -> & tb' & Htb' & Hlen & Hnew & Hold).
    split; [unfold same_queue in *; simpl in *; done|].
    split; [lia|]. split; [simpl; by rewrite Hc|].
    exists tb'. rewrite length_insert in Hlen. split; [done|]. split; [done|]. split.
    + intros i Hi Hlt. destruct (decide (i = numOfThreads s)) as [->|Hne].
      * rewrite Hold by lia. rewrite list_lookup_insert_eq by done. by rewrite Hc.
      * apply Hnew; [lia|]. by rewrite length_insert.
    + intros j Hj. rewrite Hold by lia. rewrite list_lookup_insert_ne by lia. done.
Qed.

Lemma create_workers_succeeds env lbl (n : nat) : ∀ k s,
  (∀ i, k ≤ i < k + Z.of_nat n → (env_thread_create env i).1 = 0) →
  ∃ s' ev, create_workers env lbl (seqZ k (Z.of_nat n)) s = (s', ev, true).
Proof.
  induction n as [|n IH]; intros k s Hall.
  - rewrite seqZ_nil by done. simpl. eauto.
  - rewrite seqZ_cons by lia. simpl.
    replace (Z.pred (Z.of_nat (S n))) with (Z.of_nat n) by lia.
    pose proof (Hall k ltac:(lia)) as Hk.
    destruct (env_thread_create env k) as [code th]. simpl in Hk. subst code.
    rewrite bool_decide_eq_false_2 by (intros ?; done).
    edestruct (IH (Z.succ k)) as (s' & ev & ->); [intros i Hi; apply Hall; lia|]. eauto.
Qed.

Lemma create_workers_app env lbl l1 l2 s :
  create_workers env lbl (l1 ++ l2) s
  = let '(s1, ev1, ok1) := create_workers env lbl l1 s in
    if ok1
    then let '(s2, ev2, ok2) := create_workers env lbl l2 s1 in (s2, ev1 ++ ev2, ok2)
    else (s1, ev1, false).
Proof.
  revert s. induction l1 as [|i l1 IH]; intros s; simpl.
  - by destruct (create_workers env lbl l2 s) as [[? ?] ?].
  - destruct (env_thread_create env i) as [code th].
    case_bool_decide; [done|]. rewrite IH.
    destruct (create_workers env lbl l1 _) as [[s1 ev1] [|]]; [|done].
    by destruct (create_workers env lbl l2 s1) as [[? ?] ?].
Qed.

Lemma started_threads_created env s tb n :
  0 ≤ n →
  numOfThreads s = n → qthread s = Some tb →
  (∀ i, 0 ≤ i < n → tb !! Z.to_nat i = Some (env_thread_create env i).2) →
  started_threads s = Some (worker_ids env n).
Proof.
  intros Hn Hnum Htb Hall. unfold started_threads, worker_ids. rewrite Htb, Hnum.
  apply mapM_Some_2, Forall2_fmap_r, Forall_Forall2_diag, Forall_seqZ.
  intros i Hi. simpl. apply slot_read_in; [lia|]. apply Hall. lia.
Qed.

(** X9. Construction followed by shutdown.  When [taosInitScheduler]
    returns a handle, every worker was created, and
    [taosCleanUpScheduler] on that handle cancels and then joins
    exactly the threads that were created (those with a non-zero
    identifier), destroys both semaphores and the mutex, frees the two
    buffers and the handle block, and leaves the heap as it was before
    the construction. *)
Theorem construct_then_shutdown env Q W lbl h p h1 ev :
  0 ≤ W ≤ INT_MAX →
  h !! env_calloc_sched env = None →
  taosInitScheduler env Q W lbl h = Some (p, h1, ev) →
  p ≠ NULL →
  taosCleanUpScheduler p h1 = Some (h, teardown_calls (worker_ids env W))
  ∧ (∀ i, 0 ≤ i < W → EThreadCreate i 0 (env_thread_create env i).2 ∈ ev).
Proof.
  intros HW Hfresh H Hp. unfold taosInitScheduler in H.
  repeat (case_bool_decide || case_match);
    try (apply init_abort_null in H; simpl in H; congruence);
    simplify_eq.
  match goal with
  | Hcw : create_workers _ _ _ _ = _ |- _ =>
      rewrite <- (Z2Nat.id W) in Hcw by lia;
      eapply (create_workers_true _ _ _ 0) in Hcw;
        [|lia|rewrite Z2Nat.id by lia; lia|simpl; reflexivity|done];
      destruct Hcw as (Hsame & Hnum & -> & tb' & Htb' & Hlen & Hnew & _)
  end.
  rewrite Z2Nat.id in * by lia. rewrite length_replicate in *. simpl in Hnum.
  unfold same_queue in Hsame. simpl in Hsame.
  destruct Hsame as (_ & _ & _ & _ & _ & _ & _ & Hq & _ & Htm).
  split.
  - unfold taosCleanUpScheduler. rewrite (bool_decide_eq_false_2 _ Hp), lookup_insert_eq.
    rewrite (started_threads_created env _ tb' W); [|lia|done|done|].
    2:{ intros i Hi. apply Hnew; lia. }
    rewrite Htm, Hq, Htb'. simpl.
    rewrite delete_insert_eq, delete_id by done.
    unfold teardown_calls. done.
  - intros i Hi. apply elem_of_app. right. apply elem_of_app. left.
    apply (list_elem_of_fmap_2 (λ i, EThreadCreate i 0 (env_thread_create env i).2)).
    apply elem_of_seqZ. lia.
Qed.

Lemma construct_then_shutdown_witness :
  taosCleanUpScheduler 4096 {[4096 := demo_sched]}
  = Some (∅, teardown_calls (worker_ids env_ok 1))
  ∧ (∀ i, 0 ≤ i < 1 → EThreadCreate i 0 (env_thread_create env_ok i).2 ∈ demo_init_events).
Proof.
  apply (construct_then_shutdown env_ok 2 1 "q" ∅ 4096 {[4096 := demo_sched]}
           demo_init_events);
    [unfold INT_MAX; lia|done|by vm_compute|done].
Defined.

(** X10. A worker that cannot be created.  When [pthread_create] fails
    for worker [k] after the workers before it were created (lines
    88-100), the constructor logs the failure, cancels and joins the
    [k] workers already running, releases everything, returns [NULL]
    and leaves the heap as it was: [numOfThreads] counts only the
    workers created, so the shutdown visits exactly those. *)
Theorem thread_creation_failure env Q W lbl h k :
  0 ≤ k < W → W ≤ INT_MAX →
  env_calloc_sched env ≠ NULL →
  h !! env_calloc_sched env = None →
  env_calloc_queue env = true →
  env_calloc_qthread env = true →
  0 ≤ env_mutex_init env →
  env_sem_init_empty env = 0 →
  env_sem_init_full env = 0 →
  (∀ i, 0 ≤ i < k → (env_thread_create env i).1 = 0) →
  (env_thread_create env k).1 ≠ 0 →
  taosInitScheduler env Q W lbl h
  = Some (NULL, h,
          [ECalloc BSched true; ECalloc BQueue true; ECalloc BQthread true;
           EMutexInit (env_mutex_init env);
           ESemInit EmptySem (Q `mod` 2 ^ 32) 0; ESemInit FullSem 0 0]
          ++ ((λ i, EThreadCreate i 0 (env_thread_create env i).2) <$> seqZ 0 k)
          ++ [EThreadCreate k (env_thread_create env k).1 0;
              uError "%s: failed to create rpc thread(%s)" [AStr lbl]]
          ++ teardown_calls (worker_ids env k)).
Proof.
  intros Hk HW Hp Hfresh Hq Hqt Hm He Hf Hall Hfail.
  unfold taosInitScheduler.
  rewrite (bool_decide_eq_false_2 _ Hp), Hq, Hqt. simpl negb. cbv iota.
  rewrite (bool_decide_eq_false_2 (env_mutex_init env < 0)) by lia.
  rewrite He, Hf. rewrite !(bool_decide_eq_false_2 (0 ≠ 0)) by (intros ?; done).
  assert (Hsplit : seqZ 0 W = seqZ 0 k ++ k :: seqZ (Z.succ k) (Z.pred (W - k))).
  { replace W with (k + (W - k)) at 1 by lia.
    rewrite seqZ_app by lia. by rewrite (seqZ_cons (0 + k)) by lia. }
  rewrite Hsplit, create_workers_app.
  set (s6 := set_fullSem 0 _).
  destruct (create_workers_succeeds env lbl (Z.to_nat k) 0 s6) as (s7 & ev7 & Hcw).
  { intros i Hi. apply Hall. lia. }
  rewrite Z2Nat.id in Hcw by lia. rewrite Hcw.
  rewrite <- (Z2Nat.id k) in Hcw by lia.
  eapply (create_workers_true _ _ _ 0) in Hcw;
    [|lia|rewrite Z2Nat.id by lia; unfold INT_MAX in *; lia|simpl; reflexivity|done].
  destruct Hcw as (Hsame & Hnum & -> & tb' & Htb' & Hlen & Hnew & _).
  rewrite Z2Nat.id in * by lia. rewrite length_replicate in *. simpl in Hnum.
  unfold same_queue in Hsame. simpl in Hsame.
  destruct Hsame as (_ & _ & _ & _ & _ & _ & _ & Hqq & _ & Htm).
  simpl. destruct (env_thread_create env k) as [code th] eqn:Hc. simpl in Hfail.
  rewrite (bool_decide_eq_true_2 _ Hfail).
  unfold init_abort, taosCleanUpScheduler.
  rewrite (bool_decide_eq_false_2 _ Hp), lookup_insert_eq.
  rewrite (started_threads_created env _ tb' k); [|lia|done|done|].
  2:{ intros i Hi. apply Hnew; lia. }
  rewrite Htm, Hqq, Htb'. simpl.
  rewrite delete_insert_eq, delete_id by done.
  unfold teardown_calls. rewrite <- !app_assoc. simpl. done.
Qed.

Lemma thread_creation_failure_witness :
  taosInitScheduler env_thread_fails 2 3 "q" ∅
  = Some (NULL, ∅,
          [ECalloc BSched true; ECalloc BQueue true; ECalloc BQthread true;
           EMutexInit (env_mutex_init env_thread_fails);
           ESemInit EmptySem (2 `mod` 2 ^ 32) 0; ESemInit FullSem 0 0]
          ++ ((λ i, EThreadCreate i 0 (env_thread_create env_thread_fails i).2) <$> seqZ 0 1)
          ++ [EThreadCreate 1 (env_thread_create env_thread_fails 1).1 0;
              uError "%s: failed to create rpc thread(%s)" [AStr "q"]]
          ++ teardown_calls (worker_ids env_thread_fails 1)).
Proof.
  apply (thread_creation_failure env_thread_fails 2 3 "q" ∅ 1);
    try (unfold INT_MAX; simpl; (done || lia)).
  intros i Hi. simpl. rewrite bool_decide_eq_false_2 by lia. reflexivity.
Defined.

(** ** Which constructions fail *)

Lemma create_workers_ok_iff env lbl idx s s' ev ok :
  create_workers env lbl idx s = (s', ev, ok) →
  ok = true ↔ ∀ i, i ∈ idx → (env_thread_create env i).1 = 0.
Proof.
  revert s s' ev ok. induction idx as [|i idx IH]; intros s s' ev ok H; simpl in H.
  - simplify_eq. split; [intros _ i Hi; by apply elem_of_nil in Hi|done].
  - destruct (env_thread_create env i) as [code th] eqn:Hc.
    case_bool_decide as Hcode.
    + simplify_eq. split; [done|]. intros Hall.
      specialize (Hall i ltac:(left)). rewrite Hc in Hall. done.
    + assert (Hz : code = 0) by (destruct (decide (code = 0)); [done|by destruct Hcode]).
      destruct (create_workers _ _ _ _) as [[s2 ev2] ok2] eqn:Hrec.
      injection H as <- <- <-.
      rewrite (IH _ _ _ _ Hrec). split.
      * intros Hall j Hj. apply elem_of_cons in Hj as [->|Hj]; [|by apply Hall].
        by rewrite Hc.
      * intros Hall j Hj. apply Hall. by right.
Qed.

(** X11. Which constructions fail.  [taosInitScheduler] returns [NULL]
    exactly when one of the three allocations fails, [pthread_mutex_init]
    returns a negative number, one of the two [tsem_init] returns
    non-zero, or [pthread_create] fails for one of the workers; then the
    heap is as before the call.  Otherwise it returns the block it
    allocated, which is live. *)
Theorem init_null_iff_detected env Q W lbl h p h' ev :
  h !! env_calloc_sched env = None →
  taosInitScheduler env Q W lbl h = Some (p, h', ev) →
  (p = NULL ↔ detected_failure env W)
  ∧ (p = NULL → h' = h)
  ∧ (p ≠ NULL → p = env_calloc_sched env ∧ is_Some (h' !! p)).
Proof.
  intros Hfresh H.
  split; [|split].
  2:{ intros ->. by eapply init_failure_restores_heap. }
  2:{ intros Hp. destruct (init_success _ _ _ _ _ _ _ _ H Hp) as (s & Hs & _).
      split; [|by eexists].
      unfold taosInitScheduler in H.
      repeat (case_bool_decide || case_match);
        try (apply init_abort_null in H; simpl in H; congruence); by simplify_eq. }
  unfold taosInitScheduler, detected_failure in *.
  case_bool_decide as H0; [simplify_eq; split; [auto|done]|].
  destruct (env_calloc_queue env) eqn:Hq; simpl in H.
  2:{ apply init_abort_null in H. simpl in H. split; [auto|done]. }
  destruct (env_calloc_qthread env) eqn:Hqt; simpl in H.
  2:{ apply init_abort_null in H. simpl in H. split; [auto 10|done]. }
  case_bool_decide as Hm.
  { apply init_abort_null in H. simpl in H. split; [auto 10|done]. }
  case_bool_decide as He.
  { apply init_abort_null in H. simpl in H. split; [auto 10|done]. }
  case_bool_decide as Hf.
  { apply init_abort_null in H. simpl in H. split; [auto 10|done]. }
  destruct (create_workers _ _ _ _) as [[s7 evt] ok] eqn:Hcw.
  apply create_workers_ok_iff in Hcw.
  destruct ok.
  - simplify_eq. split; [done|].
    intros [?|[?|[?|[?|[?|[?|(i & Hi & Hc)]]]]]]; try done.
    destruct Hcw as [Hall _]. specialize (Hall eq_refl i).
    rewrite elem_of_seqZ in Hall. destruct Hc. apply Hall. lia.
  - apply init_abort_null in H. simpl in H. split; [|done]. intros _.
    do 6 right.
    destruct (decide (Forall (λ i, (env_thread_create env i).1 = 0) (seqZ 0 W))) as [Hall|Hex].
    + destruct Hcw as [_ Hcw]. rewrite Forall_forall in Hall. by specialize (Hcw Hall).
    + apply not_Forall_Exists in Hex; [|apply _].
      apply Exists_exists in Hex as (i & Hi & Hc).
      exists i. apply elem_of_seqZ in Hi. split; [lia|done].
Qed.

Lemma init_null_iff_detected_witness :
  (4096 = NULL ↔ detected_failure env_ok 1)
  ∧ (4096 = NULL → ({[4096 := demo_sched]} : heap) = ∅)
  ∧ (4096 ≠ NULL →
     4096 = env_calloc_sched env_ok
     ∧ is_Some (({[4096 := demo_sched]} : heap) !! 4096)).
Proof.
  apply (init_null_iff_detected env_ok 2 1 "q" ∅ 4096 {[4096 := demo_sched]}
           demo_init_events);
    [done|by vm_compute].
Defined.

(** ** The timer registration from construction to shutdown *)

(** X12. [taosInitSchedulerWithInfo], lines 107-116.  With a null timer
    controller, or when the construction fails, it is
    [taosInitScheduler]: nothing is registered.  Otherwise the
    controller is stored and the reporter is registered once, with the
    interval [DUMP_SCHEDULER_TIME_WINDOW] and the handle as its
    argument, replacing no earlier registration; the scheduler is
    otherwise as [taosInitScheduler] left it. *)
Theorem init_with_info_registers env tmr Q W lbl tmrCtrl h p h1 ev :
  taosInitScheduler env Q W lbl h = Some (p, h1, ev) →
  (p = NULL ∨ tmrCtrl = NULL →
   taosInitSchedulerWithInfo env tmr Q W lbl tmrCtrl h = Some (p, h1, ev))
  ∧ (p ≠ NULL → tmrCtrl ≠ NULL →
     ∃ s, h1 !! p = Some s
          ∧ pTimer s = NULL
          ∧ taosInitSchedulerWithInfo env tmr Q W lbl tmrCtrl h
            = Some (p, <[p := set_pTimer tmr (set_pTmrCtrl tmrCtrl s)]> h1,
                    ev ++ [ETmrReset DUMP_SCHEDULER_TIME_WINDOW p tmrCtrl NULL])).
Proof.
  intros H. unfold taosInitSchedulerWithInfo. rewrite H. split.
  - intros [->| ->].
    + rewrite (bool_decide_eq_false_2 (NULL ≠ NULL)) by (intros ?; done).
      by rewrite andb_false_r.
    + by rewrite (bool_decide_eq_false_2 (NULL ≠ NULL)) by (intros ?; done).
  - intros Hp Hc.
    destruct (init_success _ _ _ _ _ _ _ _ H Hp) as (s & Hs & _ & _ & _ & _ & _ & _ & _ & Ht).
    exists s. split; [done|]. split; [done|].
    rewrite (bool_decide_eq_true_2 _ Hp), (bool_decide_eq_true_2 _ Hc), Hs. simpl.
    by rewrite Ht.
Qed.

Lemma init_with_info_registers_witness :
  (4096 = NULL ∨ 55 = NULL →
   taosInitSchedulerWithInfo env_ok 77 2 1 "q" 55 ∅
   = Some (4096, {[4096 := demo_sched]}, demo_init_events))
  ∧ (4096 ≠ NULL → 55 ≠ NULL →
     ∃ s, ({[4096 := demo_sched]} : heap) !! 4096 = Some s
          ∧ pTimer s = NULL
          ∧ taosInitSchedulerWithInfo env_ok 77 2 1 "q" 55 ∅
            = Some (4096, <[4096 := set_pTimer 77 (set_pTmrCtrl 55 s)]> {[4096 := demo_sched]},
                    demo_init_events ++ [ETmrReset DUMP_SCHEDULER_TIME_WINDOW 4096 55 NULL])).
Proof.
  apply (init_with_info_registers env_ok 77 2 1 "q" 55 ∅ 4096 {[4096 := demo_sched]}
           demo_init_events).
  by vm_compute.
Defined.

(** X13. The timer registration from firing to shutdown.  A firing of
    the reporter with the stored registration ends by setting the timer
    again and stores the new registration; a later firing that still
    carries the old one does nothing (line 213); and the shutdown stops
    the registration stored last, once, if it is not null, and removes
    the handle. *)
Theorem timer_rearmed_then_stopped t2 p t h s ths :
  p ≠ NULL →
  h !! p = Some s →
  pTimer s = t → t ≠ NULL →
  queueSize s ≠ 0 →
  started_threads s = Some ths →
  ∃ ev, taosDumpSchedulerStatus t2 p t h = Some (<[p := set_pTimer t2 s]> h, ev)
        ∧ last ev = Some (ETmrReset DUMP_SCHEDULER_TIME_WINDOW p (pTmrCtrl s) t)
        ∧ (t ≠ t2 → ∀ t3, taosDumpSchedulerStatus t3 p t (<[p := set_pTimer t2 s]> h)
                          = Some (<[p := set_pTimer t2 s]> h, []))
        ∧ ∃ ev', taosCleanUpScheduler p (<[p := set_pTimer t2 s]> h) = Some (delete p h, ev')
                 ∧ filter (λ e, is_tmr_stop e = true) ev'
                   = if bool_decide (t2 ≠ NULL) then [ETmrStop t2] else [].
Proof.
  intros Hp Hs Ht Htn HQ Hths.
  unfold taosDumpSchedulerStatus at 1.
  rewrite (bool_decide_eq_false_2 _ Hp), Hs, Ht.
  rewrite (bool_decide_eq_false_2 (t = NULL)) by done.
  rewrite (bool_decide_eq_false_2 (t ≠ t)) by (intros ?; done).
  rewrite (bool_decide_eq_false_2 _ HQ). simpl.
  eexists. split; [rewrite Ht; done|]. split.
  { rewrite last_app. done. }
  split.
  - intros Hne t3. unfold taosDumpSchedulerStatus.
    rewrite (bool_decide_eq_false_2 _ Hp), lookup_insert_eq. simpl.
    rewrite (bool_decide_eq_true_2 (t2 ≠ t)) by (intros ?; done).
    by rewrite orb_true_r.
  - unfold taosCleanUpScheduler.
    rewrite (bool_decide_eq_false_2 _ Hp), lookup_insert_eq.
    assert (Hst : started_threads (set_pTimer t2 s) = Some ths) by done.
    rewrite Hst, delete_insert_eq. simpl pTimer.
    eexists. split; [done|].
    rewrite !filter_app.
    assert (Hc : ∀ l : list Z, filter (λ e, is_tmr_stop e = true) (EThreadCancel <$> l) = []).
    { induction l as [|a l IH]; [done|]. simpl. rewrite filter_cons_False by (simpl; done). done. }
    assert (Hj : ∀ l : list Z, filter (λ e, is_tmr_stop e = true) (EThreadJoin <$> l) = []).
    { induction l as [|a l IH]; [done|]. simpl. rewrite filter_cons_False by (simpl; done). done. }
    rewrite Hc, Hj. simpl.
    repeat case_bool_decide; destruct (queue s), (qthread s); simpl; done.
Qed.

Lemma timer_rearmed_then_stopped_witness :
  ∃ ev, taosDumpSchedulerStatus 78 4096 77 {[4096 := demo_loaded]}
        = Some (<[4096 := set_pTimer 78 demo_loaded]> {[4096 := demo_loaded]}, ev)
        ∧ last ev = Some (ETmrReset DUMP_SCHEDULER_TIME_WINDOW 4096 (pTmrCtrl demo_loaded) 77)
        ∧ (77 ≠ 78 →
           ∀ t3, taosDumpSchedulerStatus t3 4096 77
                   (<[4096 := set_pTimer 78 demo_loaded]> {[4096 := demo_loaded]})
                 = Some (<[4096 := set_pTimer 78 demo_loaded]> {[4096 := demo_loaded]}, []))
        ∧ ∃ ev', taosCleanUpScheduler 4096
                   (<[4096 := set_pTimer 78 demo_loaded]> {[4096 := demo_loaded]})
                 = Some (delete 4096 ({[4096 := demo_loaded]} : heap), ev')
                 ∧ filter (λ e, is_tmr_stop e = true) ev'
                   = if bool_decide (78 ≠ NULL) then [ETmrStop 78] else [].
Proof.
  apply (timer_rearmed_then_stopped 78 4096 77 {[4096 := demo_loaded]} demo_loaded [100]);
    by vm_compute.
Defined.

(** ** The label *)

Lemma substring_prefix n (l : string) :
  (∃ rest, l = String.append (String.substring 0 n l) rest)
  ∧ String.length (String.substring 0 n l) = Nat.min n (String.length l)
  ∧ ((String.length l ≤ n)%nat → String.substring 0 n l = l).
Proof.
  revert n. induction l as [|c l IH]; intros [|n]; simpl.
  - split; [by exists EmptyString|done].
  - split; [by exists EmptyString|done].
  - split; [by exists (String c l)|]. split; [done|]. intros; lia.
  - destruct (IH n) as ((rest & Hrest) & Hlen & Hid).
    split; [exists rest; change (String c l = String c (String.append (substring 0 n l) rest));
            by rewrite <- Hrest|].
    split; [by rewrite Hlen|]. intros Hle. rewrite Hid by lia. done.
Qed.

(** X14. The label.  The label a constructed scheduler carries (lines
    64-65) is the first 15 characters of the label given: it has at
    most 15 characters, the label given starts with it, and a label of
    at most 15 characters is stored whole. *)
Theorem label_is_truncated env Q W lbl h p h1 ev s :
  taosInitScheduler env Q W lbl h = Some (p, h1, ev) →
  p ≠ NULL →
  h1 !! p = Some s →
  label s = copy_label lbl
  ∧ (String.length (label s) ≤ 15)%nat
  ∧ (∃ rest, lbl = String.append (label s) rest)
  ∧ ((String.length lbl ≤ 15)%nat → label s = lbl).
Proof.
  intros H Hp Hs.
  assert (Hl : label s = copy_label lbl).
  { unfold taosInitScheduler in H.
    repeat (case_bool_decide || case_match);
      try (apply init_abort_null in H; simpl in H; congruence);
      simplify_eq.
    rewrite lookup_insert_eq in Hs. simplify_eq.
    match goal with
    | Hcw : create_workers _ _ _ _ = _ |- _ =>
        apply create_workers_same in Hcw; unfold same_queue in Hcw; simpl in Hcw;
        by destruct Hcw as (? & _)
    end. }
  rewrite Hl. unfold copy_label.
  destruct (substring_prefix 15 lbl) as ((rest & Hrest) & Hlen & Hid).
  split; [done|]. split; [lia|]. split; [by exists rest|done].
Qed.

Lemma label_is_truncated_witness :
  label demo_long_sched = copy_label demo_long_label
  ∧ (String.length (label demo_long_sched) ≤ 15)%nat
  ∧ (∃ rest, demo_long_label = String.append (label demo_long_sched) rest)
  ∧ ((String.length demo_long_label ≤ 15)%nat → label demo_long_sched = demo_long_label).
Proof.
  apply (label_is_truncated env_ok 2 1 demo_long_label ∅ 4096 {[4096 := demo_long_sched]}
           [ECalloc BSched true; ECalloc BQueue true; ECalloc BQthread true;
            EMutexInit 0; ESemInit EmptySem 2 0; ESemInit FullSem 0 0;
            EThreadCreate 0 0 100;
            uTrace "%s scheduler is initialized, numOfThreads:%d"
              [AStr demo_long_label; AInt 1]]);
    [by vm_compute|done|by vm_compute].
Defined.

(** ** No record stays in the buffer after it was read *)

Lemma lag_clear_cs y : in_cs y = false → lag_clear y = 0.
Proof. destruct y as [[? [] ? ?]|[[] ?]]; simpl; congruence. Qed.

Lemma lag_clear_nonneg th : 0 ≤ lag_clear th.
Proof. destruct th as [[? [] ? ?]|[[] ?]]; simpl; lia. Qed.

Lemma step_clean st tid o th st' :
  queue_inv st → slots_clean st →
  threads st !! tid = Some th →
  os_normal th o = true →
  sys_step tid o st = Next st' →
  slots_clean st'.
Proof.
  intros Hinv Hclean Hth Hn Hstep.
  unfold sys_step in Hstep. rewrite Hth in Hstep.
  pose proof (mutex_excl st tid th Hinv Hth) as Hex.
  destruct Hinv as [Hsz (q & Hq & Hlen & Hring) Hmx Hown Hec Hfc Hfifo [Hes Hfs] Hfree Hused].
  pose proof (Hmx tid th Hth) as Hme.
  pose proof (total_nonneg holds_empty (threads st) holds_empty_nonneg) as Hhe.
  pose proof (total_nonneg wrote (threads st) wrote_nonneg) as Hwr.
  pose proof (total_nonneg holds_full (threads st) holds_full_nonneg) as Hhf.
  pose proof (total_nonneg took (threads st) took_nonneg) as Htk.
  pose proof (total_nonneg lag_clear (threads st) lag_clear_nonneg) as Hlc.
  pose proof (total_ge took (threads st) tid th took_nonneg Hth) as Htk1.
  unfold slots_clean, count_enq, count_deq in *.
  specialize (Hclean q Hq).
  destruct th as [[hd pc todo rets]|[pc m]]; simpl in Hstep.
  - destruct todo as [|pMsg rest]; [done|].
    destruct pc; simpl in Hstep.
    all: repeat case_match; simplify_eq/=.
    all: try (unfold os_normal in Hn; simpl in Hn; repeat case_bool_decide; simplify_eq/=; try done).
    all: try specialize (Hme eq_refl); try specialize (Hex Hme).
    all: rewrite ?enqueued_app, ?dequeued_app, ?length_app, ?app_nil_r;
         rewrite (total_insert _ _ _ _ _ Hth); simpl;
         rewrite ?Nat.add_0_r, ?Nat2Z.inj_add.
    all: try (intros q0 Hq0 i Hi; simplify_eq; apply Hclean; lia).
    (* PWrite *)
    intros q0 Hq0 i Hi. simplify_eq.
    match goal with H : slot_write _ _ _ = Some _ |- _ =>
      apply slot_write_spec in H as [Hi0 ->] end.
    rewrite (total_cs lag_empty _ _ _ lag_empty_cs Hth Hex) in Hec. simpl in Hec.
    rewrite Z.sub_0_r in Hec.
    rewrite list_lookup_insert_ne; [apply Hclean; lia|].
    rewrite Hec. intros Heq. apply Z2Nat.inj in Heq.
    + revert Heq. apply mod_slots_distinct; lia.
    + apply Z.mod_pos_bound; lia.
    + apply Z.mod_pos_bound; lia.
  - destruct pc; simpl in Hstep.
    all: repeat case_match; simplify_eq/=.
    all: try (unfold os_normal in Hn; simpl in Hn; repeat case_bool_decide; simplify_eq/=; try done).
    all: try specialize (Hme eq_refl); try specialize (Hex Hme).
    all: rewrite ?enqueued_app, ?dequeued_app, ?dispatch_enqueued, ?dispatch_dequeued,
           ?length_app, ?app_nil_r;
         rewrite (total_insert _ _ _ _ _ Hth); simpl;
         rewrite ?Nat.add_0_r, ?Nat2Z.inj_add.
    all: try (intros q0 Hq0 i Hi; simplify_eq; apply Hclean; lia).
    (* WClear *)
    intros q0 Hq0 i Hi. simplify_eq.
    match goal with H : slot_write _ _ _ = Some _ |- _ =>
      apply slot_write_spec in H as [Hi0 ->] end.
    rewrite (total_cs lag_full _ _ _ lag_full_cs Hth Hex) in Hfc. simpl in Hfc.
    rewrite (total_cs lag_clear _ _ _ lag_clear_cs Hth Hex) in Hi, Hclean. simpl in Hi, Hclean.
    destruct (decide (Z.to_nat (i `mod` queueSize (sched st))
                      = Z.to_nat (fullSlot (sched st)))) as [Heq|Hne].
    + rewrite Heq. apply list_lookup_insert_eq. lia.
    + rewrite list_lookup_insert_ne by done. apply Hclean.
      destruct (decide (i = Z.of_nat (length (dequeued (trace st))) - 1
                            + queueSize (sched st))) as [->|Hne']; [|lia].
      destruct Hne. rewrite Hfc. f_equal.
      rewrite <- (Z.mul_1_l (queueSize (sched st))) at 1.
      apply Z.mod_add. lia.
Qed.

Lemma run_clean sch st st' :
  queue_inv st → slots_clean st →
  normal_schedule sch st = true → run sch st = Next st' →
  slots_clean st'.
Proof.
  revert st. induction sch as [|[tid o] sch IH]; intros st Hinv Hc Hn Hrun; simpl in *.
  - by simplify_eq.
  - destruct (threads st !! tid) as [th|] eqn:Hth.
    2:{ unfold sys_step in Hrun. by rewrite Hth in Hrun. }
    apply andb_true_iff in Hn as [Hos Hn].
    destruct (sys_step tid o st) as [st1| |] eqn:Hstep; [|done..].
    apply (IH st1); [by eapply step_inv|by eapply step_clean|done..].
Qed.

(** X15. No record stays in the buffer after it was read.  In every
    state a fresh scheduler reaches under normal operation in which no
    worker is between its read (line 135) and its [memset] (line 136),
    the buffer has [Q] slots and each of them holds either the zero
    record or a record that was written and not read yet, at the
    position of that record modulo [Q]. *)
Theorem slots_zero_or_pending env Q W lbl ths st0 sch st :
  1 ≤ Q ≤ INT_MAX →
  fresh_system env Q W lbl ths = Some st0 →
  normal_schedule sch st0 = true →
  run sch st0 = Next st →
  total lag_clear (threads st) = 0 →
  ∃ q, queue (sched st) = Some q
       ∧ Z.of_nat (length q) = Q
       ∧ ∀ j, 0 ≤ j < Q →
           q !! Z.to_nat j = Some zero_msg
           ∨ ∃ i, count_deq st ≤ i < count_enq st ∧ i `mod` Q = j
                  ∧ q !! Z.to_nat j = enqueued (trace st) !! Z.to_nat i.
Proof.
  intros HQ Hfresh Hn Hrun Hlc.
  assert (Hc0 : slots_clean st0).
  { pose proof Hfresh as Hf. unfold fresh_system in Hf.
    destruct (taosInitScheduler _ _ _ _ _) as [[[p h] ev]|] eqn:Hi0; [|done].
    case_bool_decide as Hp; [done|].
    destruct (init_success _ _ _ _ _ _ _ _ Hi0 Hp) as (s & Hs & HsQ & Hqs & _).
    rewrite Hs in Hf. destruct (forallb initial_thread ths); [|done]. simplify_eq.
    intros q Hq i Hi. simpl in *. rewrite Hqs in Hq. simplify_eq.
    apply lookup_replicate_2.
    pose proof (Z.mod_pos_bound i (queueSize s) ltac:(lia)). lia. }
  destruct (fresh_system_inv _ _ _ _ _ _ HQ Hfresh) as (Hinv0 & HQ0 & _).
  pose proof (run_inv _ _ _ Hinv0 Hn Hrun) as Hinv.
  pose proof (run_clean _ _ _ Hinv0 Hc0 Hn Hrun) as Hc.
  pose proof (run_queueSize _ _ _ Hrun) as HQs. rewrite HQ0 in HQs.
  destruct (inv_buf st Hinv) as (q & Hq & Hlen & Hring).
  exists q. split; [done|]. split; [lia|].
  intros j Hj. unfold slots_clean in Hc. rewrite Hlc, HQs, Z.sub_0_r in Hc.
  rewrite HQs in Hring.
  specialize (Hc q Hq).
  assert (Hne : count_deq st ≤ count_enq st).
  { destruct Hinv as [_ _ _ _ _ _ _ [Hes Hfs] _ Hused].
    pose proof (total_nonneg wrote (threads st) wrote_nonneg).
    pose proof (total_nonneg holds_full (threads st) holds_full_nonneg). lia. }
  set (i := count_deq st + (j - count_deq st) `mod` Q).
  assert (Hi : count_deq st ≤ i < count_deq st + Q).
  { pose proof (Z.mod_pos_bound (j - count_deq st) Q ltac:(lia)). unfold i. lia. }
  assert (Him : i `mod` Q = j).
  { unfold i. rewrite Zplus_mod_idemp_r.
    replace (count_deq st + (j - count_deq st)) with j by lia.
    apply Z.mod_small. lia. }
  destruct (decide (i < count_enq st)) as [Hlt|Hge].
  - right. exists i. split; [lia|]. split; [done|]. rewrite <- Him. apply Hring. lia.
  - left. rewrite <- Him. apply Hc. lia.
Qed.

Lemma slots_zero_or_pending_witness :
  ∃ q, queue (sched demo_half) = Some q
       ∧ Z.of_nat (length q) = 2
       ∧ ∀ j, 0 ≤ j < 2 →
           q !! Z.to_nat j = Some zero_msg
           ∨ ∃ i, count_deq demo_half ≤ i < count_enq demo_half ∧ i `mod` 2 = j
                  ∧ q !! Z.to_nat j = enqueued (trace demo_half) !! Z.to_nat i.
Proof.
  apply (slots_zero_or_pending env_ok 2 1 "q" demo_threads demo_system (alone 0 8) demo_half);
    [unfold INT_MAX; lia|by vm_compute..].
Defined.

(** ** The reporter cannot tell a full queue from an empty one *)

(** X16. The reporter cannot tell a full queue from an empty one.  In a
    reachable state of a scheduler of capacity at most [2^30] with no
    thread inside an enqueue or a dequeue, the size line 217 computes is
    the number of pending records modulo [Q].  With between 1 and
    [Q - 1] records pending a firing of the reporter logs that number;
    with [Q] records pending, as with none, the size is 0 and the
    firing logs nothing and only sets the timer again. *)
Theorem full_queue_is_reported_empty env Q W lbl ths st0 sch st tmr p t c h :
  1 ≤ Q ≤ 2 ^ 30 →
  fresh_system env Q W lbl ths = Some st0 →
  normal_schedule sch st0 = true →
  run sch st0 = Next st →
  quiescent st = true →
  p ≠ NULL → t ≠ NULL →
  h !! p = Some (set_pTimer t (set_pTmrCtrl c (sched st))) →
  dump_size (sched st) = (count_enq st - count_deq st) `mod` Q
  ∧ (count_enq st - count_deq st = Q ∨ count_enq st = count_deq st →
     taosDumpSchedulerStatus tmr p t h
     = Some (<[p := set_pTimer tmr (set_pTmrCtrl c (sched st))]> h,
             [ETmrReset DUMP_SCHEDULER_TIME_WINDOW p c t]))
  ∧ (0 < count_enq st - count_deq st < Q →
     taosDumpSchedulerStatus tmr p t h
     = Some (<[p := set_pTimer tmr (set_pTmrCtrl c (sched st))]> h,
             [uTrace "scheduler:%s, current tasks in queue:%d, task thread:%d"
                [AStr (label (sched st)); AInt (count_enq st - count_deq st);
                 AInt (numOfThreads (sched st))];
              ETmrReset DUMP_SCHEDULER_TIME_WINDOW p c t])).
Proof.
  intros HQ Hfresh Hn Hrun Hq Hp Ht Hh.
  assert (HQ' : 1 ≤ Q ≤ INT_MAX) by (unfold INT_MAX; lia).
  destruct (fresh_system_inv _ _ _ _ _ _ HQ' Hfresh) as (Hinv0 & HQ0 & _).
  pose proof (run_inv _ _ _ Hinv0 Hn Hrun) as Hinv.
  pose proof (run_queueSize _ _ _ Hrun) as HQs. rewrite HQ0 in HQs.
  destruct (dump_size_in_runs _ _ _ _ _ _ _ _ HQ Hfresh Hn Hrun) as [Hd _].
  destruct (quiescent_sems st Hinv Hq) as (_ & Hfs & Hocc).
  rewrite HQs in Hocc. rewrite Hfs in Hocc.
  assert (Hsz : dump_size (sched st) = (count_enq st - count_deq st) `mod` Q) by congruence.
  assert (Hds : dump_size (set_pTimer t (set_pTmrCtrl c (sched st))) = dump_size (sched st))
    by done.
  assert (Hcall : taosDumpSchedulerStatus tmr p t h
                  = Some (<[p := set_pTimer tmr (set_pTmrCtrl c (sched st))]> h,
                          (if bool_decide (dump_size (sched st) > 0)
                           then [uTrace "scheduler:%s, current tasks in queue:%d, task thread:%d"
                                   [AStr (label (sched st)); AInt (dump_size (sched st));
                                    AInt (numOfThreads (sched st))]]
                           else [])
                          ++ [ETmrReset DUMP_SCHEDULER_TIME_WINDOW p c t])).
  { unfold taosDumpSchedulerStatus.
    rewrite (bool_decide_eq_false_2 _ Hp), Hh. simpl pTimer.
    rewrite (bool_decide_eq_false_2 _ Ht).
    rewrite (bool_decide_eq_false_2 (t ≠ t)) by (intros ?; done).
    simpl queueSize. rewrite (bool_decide_eq_false_2 (queueSize (sched st) = 0)) by lia.
    rewrite Hds. done. }
  split; [done|]. split.
  - intros Hfull. rewrite Hcall.
    assert (Hz : dump_size (sched st) = 0).
    { rewrite Hsz. destruct Hfull as [-> | ->].
      - apply Z.mod_same. lia.
      - rewrite Z.sub_diag. apply Z.mod_0_l. lia. }
    rewrite Hz. done.
  - intros Hmid. rewrite Hcall.
    assert (Hz : dump_size (sched st) = count_enq st - count_deq st).
    { rewrite Hsz. apply Z.mod_small. lia. }
    rewrite Hz. rewrite bool_decide_eq_true_2 by lia. done.
Qed.

Lemma full_queue_is_reported_empty_witness :
  dump_size (sched demo_full) = (count_enq demo_full - count_deq demo_full) `mod` 2
  ∧ (count_enq demo_full - count_deq demo_full = 2 ∨ count_enq demo_full = count_deq demo_full →
     taosDumpSchedulerStatus 78 4096 77
       {[4096 := set_pTimer 77 (set_pTmrCtrl 55 (sched demo_full))]}
     = Some (<[4096 := set_pTimer 78 (set_pTmrCtrl 55 (sched demo_full))]>
               {[4096 := set_pTimer 77 (set_pTmrCtrl 55 (sched demo_full))]},
             [ETmrReset DUMP_SCHEDULER_TIME_WINDOW 4096 55 77]))
  ∧ (0 < count_enq demo_full - count_deq demo_full < 2 →
     taosDumpSchedulerStatus 78 4096 77
       {[4096 := set_pTimer 77 (set_pTmrCtrl 55 (sched demo_full))]}
     = Some (<[4096 := set_pTimer 78 (set_pTmrCtrl 55 (sched demo_full))]>
               {[4096 := set_pTimer 77 (set_pTmrCtrl 55 (sched demo_full))]},
             [uTrace "scheduler:%s, current tasks in queue:%d, task thread:%d"
                [AStr (label (sched demo_full));
                 AInt (count_enq demo_full - count_deq demo_full);
                 AInt (numOfThreads (sched demo_full))];
              ETmrReset DUMP_SCHEDULER_TIME_WINDOW 4096 55 77])).
Proof.
  apply (full_queue_is_reported_empty env_ok 2 1 "q" demo_threads demo_system (alone 0 16)
           demo_full 78 4096 77 55
           {[4096 := set_pTimer 77 (set_pTmrCtrl 55 (sched demo_full))]});
    [lia|by vm_compute..].
Defined.
